(** * useEventBus: a keyed publish/subscribe registry

    Shallow embedding of [packages/core/useEventBus/index.ts] and of the
    registry [events] it shares ([internal.ts]).

    The JavaScript objects the code mutates are kept in an explicit store:
    arrays of functions and [Map] objects live at locations, a [Listeners]
    record is the pair of the locations of its two fields, and the registry
    maps a bus identifier to such a record.  Two names of a handler map may
    point to one array, an emission keeps working on the record it has
    fetched after the entry is deleted, and [forEach] reads the array as it
    is at each index: all three happen in the code and are kept here.

    Function values are compared by identity.  [Callback n] is the n-th
    function of the caller; every closure that [once] creates carries a
    fresh identifier.  A function of the caller is an observer: calling it
    appends the call and its arguments to the trace, it does not call back
    into a bus and does not throw.  Identifiers, event names and payloads
    are [undefined], strings, integers and symbols, on which the key
    equality of [Map] is plain equality.
    The scope that [getCurrentScope()] returns is an argument of
    [useEventBus]; its [cleanups] arrays are part of the state. *)

From stdpp Require Import gmap strings list fin_maps.
From Stdlib Require Import ZArith Lia.

(** ** Values, functions and the store *)

(** Bus identifiers, event names and payloads.  [VUndefined] is what an
    omitted argument evaluates to. *)
Inductive value :=
  | VUndefined
  | VString (s : string)
  | VNumber (z : Z)
  | VSymbol (n : nat).

#[global] Instance value_eq_dec : EqDecision value.
Proof. solve_decision. Defined.

#[global] Instance value_countable : Countable value.
Proof.
  apply (inj_countable'
    (λ v, match v with
          | VUndefined => inl ()
          | VString s => inr (inl s)
          | VNumber z => inr (inr (inl z))
          | VSymbol n => inr (inr (inr n))
          end)
    (λ x, match x with
          | inl _ => VUndefined
          | inr (inl s) => VString s
          | inr (inr (inl z)) => VNumber z
          | inr (inr (inr n)) => VSymbol n
          end)).
  by intros [].
Defined.

(** Function values stored in the registry.  [Callback n] is the n-th
    function of the caller.  [OnceListener] and [OnceHandler] are the
    closures [_listener] and [_handler] that [once] builds; [uid] is the
    identity of the closure object, the other fields are what it captures. *)
Inductive fn :=
  | Callback (id : nat)
  | OnceListener (uid : nat) (key : value) (listener : nat)
  | OnceHandler (uid : nat) (key : value) (event : value) (handler : nat).

#[global] Instance fn_eq_dec : EqDecision fn.
Proof. solve_decision. Defined.

(** The closures [_off] returned by [on]: [() => off(listener)] and
    [() => off(event, handler)]. *)
Inductive stop :=
  | StopListener (key : value) (listener : fn)
  | StopHandler (key : value) (event : value) (handler : fn).

#[global] Instance stop_eq_dec : EqDecision stop.
Proof. solve_decision. Defined.

Definition loc := nat.

(** [interface Listeners]: the two fields are assigned once, at creation. *)
Record Listeners := MkListeners {
  listeners : loc;
  handlerMap : loc
}.

#[global] Instance Listeners_eq_dec : EqDecision Listeners.
Proof. solve_decision. Defined.

(** One recorded invocation of a caller's function. *)
Definition call_record : Type := nat * list value.

Record state := State {
  events : gmap value Listeners;
  arrays : gmap loc (list fn);
  maps : gmap loc (gmap value loc);
  next_loc : loc;
  next_fn : nat;
  cleanups : gmap nat (list stop);
  trace : list call_record
}.

(** What [useEventBus(key)] closes over: the identifier and the result of
    [getCurrentScope()]. *)
Record bus := Bus {
  key : value;
  scope : option nat
}.

Definition useEventBus (k : value) (current_scope : option nat) : bus :=
  Bus k current_scope.

Definition empty_state : state :=
  State ∅ ∅ ∅ 0 0 ∅ [].

Definition set_events (f : gmap value Listeners → gmap value Listeners)
    (σ : state) : state :=
  State (f (events σ)) (arrays σ) (maps σ) (next_loc σ) (next_fn σ)
        (cleanups σ) (trace σ).

Definition set_arrays (f : gmap loc (list fn) → gmap loc (list fn))
    (σ : state) : state :=
  State (events σ) (f (arrays σ)) (maps σ) (next_loc σ) (next_fn σ)
        (cleanups σ) (trace σ).

Definition set_maps (f : gmap loc (gmap value loc) → gmap loc (gmap value loc))
    (σ : state) : state :=
  State (events σ) (arrays σ) (f (maps σ)) (next_loc σ) (next_fn σ)
        (cleanups σ) (trace σ).

Definition set_next_loc (n : loc) (σ : state) : state :=
  State (events σ) (arrays σ) (maps σ) n (next_fn σ) (cleanups σ) (trace σ).

Definition set_next_fn (n : nat) (σ : state) : state :=
  State (events σ) (arrays σ) (maps σ) (next_loc σ) n (cleanups σ) (trace σ).

Definition set_cleanups (f : gmap nat (list stop) → gmap nat (list stop))
    (σ : state) : state :=
  State (events σ) (arrays σ) (maps σ) (next_loc σ) (next_fn σ)
        (f (cleanups σ)) (trace σ).

Definition log (n : nat) (args : list value) (σ : state) : state :=
  State (events σ) (arrays σ) (maps σ) (next_loc σ) (next_fn σ)
        (cleanups σ) (trace σ ++ [(n, args)]).

(** ** Array and Map primitives *)

(** [[]]: a new array object. *)
Definition new_array (σ : state) : loc * state :=
  (next_loc σ,
   set_next_loc (S (next_loc σ)) (set_arrays <[next_loc σ := []]> σ)).

(** [new Map()]. *)
Definition new_map (σ : state) : loc * state :=
  (next_loc σ,
   set_next_loc (S (next_loc σ)) (set_maps <[next_loc σ := ∅]> σ)).

(** [a.push(f)]. *)
Definition push (a : loc) (f : fn) (σ : state) : state :=
  set_arrays (alter (λ fs, fs ++ [f]) a) σ.

(** [fs.indexOf(f)] followed by [fs.splice(index, 1)] when [index > -1]:
    the first element identical to [f] is taken out. *)
Fixpoint remove_first (f : fn) (fs : list fn) : list fn :=
  match fs with
  | [] => []
  | g :: fs' => if decide (f = g) then fs' else g :: remove_first f fs'
  end.

(** [m.get(e)] on the Map object at [m]. *)
Definition map_get (m : loc) (e : value) (σ : state) : option loc :=
  maps σ !! m ≫= λ hm, hm !! e.

(** [m.set(e, a)]. *)
Definition map_set (m : loc) (e : value) (a : loc) (σ : state) : state :=
  set_maps (alter <[e := a]> m) σ.

(** [m.delete(e)]. *)
Definition map_delete (m : loc) (e : value) (σ : state) : state :=
  set_maps (alter (delete e) m) σ.

(** [a.forEach(cb)]: the length is read once, the elements are read from
    the live array at each index; an index that is no longer present is
    skipped. *)
Fixpoint forEach_from (a : loc) (cb : fn → state → state) (k n : nat)
    (σ : state) : state :=
  match n with
  | 0 => σ
  | S n' =>
      forEach_from a cb (S k) n'
        match arrays σ !! a ≫= λ fs, fs !! k with
        | Some f => cb f σ
        | None => σ
        end
  end.

Definition forEach (a : loc) (cb : fn → state → state) (σ : state) : state :=
  match arrays σ !! a with
  | Some fs => forEach_from a cb 0 (length fs) σ
  | None => σ
  end.

(** ** The operations of a bus *)

(** [events.get(key) || { listeners: [], handlerMap: new Map() }] *)
Definition listenerRecord (k : value) (σ : state) : Listeners * state :=
  match events σ !! k with
  | Some r => (r, σ)
  | None =>
      let '(l, σ1) := new_array σ in
      let '(m, σ2) := new_map σ1 in
      (MkListeners l m, σ2)
  end.

(** [scope?.cleanups?.push(_off)] *)
Definition register_cleanup (s : option nat) (off_ : stop) (σ : state) : state :=
  match s with
  | Some i => set_cleanups (alter (λ cs, cs ++ [off_]) i) σ
  | None => σ
  end.

(** [on(listener)] *)
Definition on_listener (b : bus) (listener : fn) (σ : state) : stop * state :=
  let '(r, σ1) := listenerRecord (key b) σ in
  let σ2 := push (listeners r) listener σ1 in
  let σ3 := set_events <[key b := r]> σ2 in
  let off_ := StopListener (key b) listener in
  (off_, register_cleanup (scope b) off_ σ3).

(** [on(event, handler)] *)
Definition on_handler (b : bus) (event : value) (handler : fn) (σ : state)
    : stop * state :=
  let '(r, σ1) := listenerRecord (key b) σ in
  let '(eventFreeHandlers, σ2) :=
    match map_get (handlerMap r) (key b) σ1 with
    | Some a => (a, σ1)
    | None => new_array σ1
    end in
  let σ3 := push eventFreeHandlers handler σ2 in
  let σ4 := map_set (handlerMap r) event eventFreeHandlers σ3 in
  let σ5 := set_events <[key b := r]> σ4 in
  let off_ := StopHandler (key b) event handler in
  (off_, register_cleanup (scope b) off_ σ5).

(** [off(listener)] *)
Definition off_listener (k : value) (listener : fn) (σ : state) : state :=
  match events σ !! k with
  | None => σ
  | Some r =>
      match arrays σ !! listeners r with
      | None => σ
      | Some fs =>
          let fs' := remove_first listener fs in
          let σ1 := set_arrays <[listeners r := fs']> σ in
          if decide (length fs' = 0) then set_events (delete k) σ1 else σ1
      end
  end.

(** [off(event, handler)].  When [handlerMap.get(event)] is undefined the
    code works on a temporary empty array: nothing is found in it and
    [handlerMap.delete(event)] removes nothing. *)
Definition off_handler (k : value) (event : value) (handler : fn) (σ : state)
    : state :=
  match events σ !! k with
  | None => σ
  | Some r =>
      let σ1 :=
        match map_get (handlerMap r) event σ with
        | None => σ
        | Some a =>
            match arrays σ !! a with
            | None => σ
            | Some fs =>
                let fs' := remove_first handler fs in
                let σ' := set_arrays <[a := fs']> σ in
                if decide (length fs' = 0)
                then map_delete (handlerMap r) event σ'
                else σ'
            end
        end in
      match maps σ1 !! handlerMap r with
      | None => σ1
      | Some hm => if decide (size hm = 0) then set_events (delete k) σ1 else σ1
      end
  end.

(** [reset()] *)
Definition reset (k : value) (σ : state) : state :=
  set_events (delete k) σ.

(** Calling a stored function with the argument list [args].  A function
    of the caller is an observer: the call is recorded and the store is
    left as it is.  The closures of [once] run the code of [_listener] and
    [_handler]. *)
Definition call (f : fn) (args : list value) (σ : state) : state :=
  match f with
  | Callback n => log n args σ
  | OnceListener _ k listener => log listener args (off_listener k f σ)
  | OnceHandler _ k event handler => log handler args (off_handler k event f σ)
  end.

(** [emit(event, payload)] *)
Definition emit (k : value) (event payload : value) (σ : state) : state :=
  match events σ !! k with
  | None => σ
  | Some r =>
      let σ1 :=
        match map_get (handlerMap r) event σ with
        | Some a => forEach a (λ v, call v [payload]) σ
        | None => σ
        end in
      forEach (listeners r) (λ v, call v [event; payload]) σ1
  end.

(** [once(listener)] *)
Definition once_listener (b : bus) (listener : nat) (σ : state) : stop * state :=
  let _listener := OnceListener (next_fn σ) (key b) listener in
  on_listener b _listener (set_next_fn (S (next_fn σ)) σ).

(** [once(event, handler)] *)
Definition once_handler (b : bus) (event : value) (handler : nat) (σ : state)
    : stop * state :=
  let _handler := OnceHandler (next_fn σ) (key b) event handler in
  on_handler b event _handler (set_next_fn (S (next_fn σ)) σ).

(** Invoking a function returned by [on] or [once]. *)
Definition run_stop (u : stop) (σ : state) : state :=
  match u with
  | StopListener k listener => off_listener k listener σ
  | StopHandler k event handler => off_handler k event handler σ
  end.


(** ** Observations on a state *)

(** The caller's function that a call of [f] ends up invoking. *)
Definition target (f : fn) : nat :=
  match f with
  | Callback n => n
  | OnceListener _ _ n => n
  | OnceHandler _ _ _ n => n
  end.

(** A function of the caller, as opposed to a closure built by [once].
    A function of the caller is an observer here (see [call]), so [plain f]
    stands for: [f] returns normally and performs no operation of a bus,
    neither [on], [once], [off], [emit], [reset] nor a function that [on]
    returned, while it runs.  A function of the caller that unsubscribes
    itself or throws is outside the model. *)
Definition plain (f : fn) : Prop :=
  match f with
  | Callback _ => True
  | _ => False
  end.

(** The bus a closure built by [once] unsubscribes from. *)
Definition fn_key (f : fn) : option value :=
  match f with
  | Callback _ => None
  | OnceListener _ k _ => Some k
  | OnceHandler _ k _ _ => Some k
  end.

Definition add_trace (t : list call_record) (σ : state) : state :=
  State (events σ) (arrays σ) (maps σ) (next_loc σ) (next_fn σ)
        (cleanups σ) (trace σ ++ t).

(** The elements of the array at [a]. *)
Definition content (a : loc) (σ : state) : list fn :=
  default [] (arrays σ !! a).

(** The handler sequence that record [r] holds for [event]. *)
Definition handlers (r : Listeners) (event : value) (σ : state) : list fn :=
  match map_get (handlerMap r) event σ with
  | Some a => content a σ
  | None => []
  end.

(** Calling each function of [fs], in order, with [args]. *)
Definition calls (args : list value) (fs : list fn) : list call_record :=
  map (λ f, (target f, args)) fs.

(** A sequence of emissions, each one [(identifier, event, payload)]. *)
Definition emits (es : list (value * value * value)) (σ : state) : state :=
  fold_left (λ σ' x, emit x.1.1 x.1.2 x.2 σ') es σ.

(** How many times the caller's function [n] was invoked. *)
Definition fired (n : nat) (t : list call_record) : nat :=
  length (filter (λ c, c.1 = n) t).


(** ** Well-formed stores *)

(** The arrays reachable from the entry of [k]: its global sequence and
    the handler sequences its Map points to. *)
Definition owns_array (σ : state) (k : value) (a : loc) : Prop :=
  ∃ r, events σ !! k = Some r
       ∧ (a = listeners r ∨ ∃ e, map_get (handlerMap r) e σ = Some a).

Definition owns_map (σ : state) (k : value) (m : loc) : Prop :=
  ∃ r, events σ !! k = Some r ∧ m = handlerMap r.

(** A closure built by [once] on the bus [k] unsubscribes from [k]. *)
Definition fn_ok (k : value) (f : fn) : Prop :=
  match fn_key f with
  | Some k' => k' = k
  | None => True
  end.

(** The shape of every store the operations build: the objects an entry
    refers to are allocated, no object is shared between two entries, a
    global sequence is never also a handler sequence, and the closures of
    [once] sit in the entry of the bus they were created on. *)
Record wf (σ : state) : Prop := MkWf {
  wf_listeners : ∀ k r, events σ !! k = Some r →
    listeners r < next_loc σ ∧ is_Some (arrays σ !! listeners r);
  wf_handlerMap : ∀ k r, events σ !! k = Some r →
    handlerMap r < next_loc σ ∧ is_Some (maps σ !! handlerMap r);
  wf_handlers : ∀ k r e a, events σ !! k = Some r →
    map_get (handlerMap r) e σ = Some a →
    a < next_loc σ ∧ is_Some (arrays σ !! a) ∧ a ≠ listeners r;
  wf_sep_arrays : ∀ k1 k2 a,
    owns_array σ k1 a → owns_array σ k2 a → k1 = k2;
  wf_sep_maps : ∀ k1 k2 m,
    owns_map σ k1 m → owns_map σ k2 m → k1 = k2;
  wf_fn : ∀ k a f, owns_array σ k a → f ∈ content a σ → fn_ok k f
}.

(** [σ'] is [σ] with entries, Map bindings and array elements taken out
    and calls added to the trace; nothing else is changed. *)
Record shrinks (σ σ' : state) : Prop := MkShrinks {
  sh_events : events σ' ⊆ events σ;
  sh_maps : ∀ m, option_Forall2 (⊆) (maps σ' !! m) (maps σ !! m);
  sh_arrays : ∀ a, option_Forall2 sublist (arrays σ' !! a) (arrays σ !! a);
  sh_next_loc : next_loc σ' = next_loc σ;
  sh_next_fn : next_fn σ' = next_fn σ;
  sh_cleanups : cleanups σ' = cleanups σ;
  sh_trace : trace σ `prefix_of` trace σ'
}.

(** The entry of every identifier other than [k], and every object
    reachable from it, is the same in [σ'] as in [σ]. *)
Definition frame (k : value) (σ σ' : state) : Prop :=
  ∀ k', k' ≠ k →
    events σ' !! k' = events σ !! k'
    ∧ (∀ a, owns_array σ k' a → arrays σ' !! a = arrays σ !! a)
    ∧ (∀ m, owns_map σ k' m → maps σ' !! m = maps σ !! m).

(** [σ'] differs from [σ], in the registry and in the objects that were
    already allocated, only at the entry of [k] and the objects this entry
    owns. *)
Definition local (k : value) (σ σ' : state) : Prop :=
  (∀ k', k' ≠ k → events σ' !! k' = events σ !! k')
  ∧ (∀ a, a < next_loc σ → ¬ owns_array σ k a → arrays σ' !! a = arrays σ !! a)
  ∧ (∀ m, m < next_loc σ → ¬ owns_map σ k m → maps σ' !! m = maps σ !! m).

(** What a caller can do with the handles it holds.  The functions it
    passes are its own; the functions it removes may be any. *)
Inductive step : state → state → Prop :=
  | step_on_listener b n σ : step σ (on_listener b (Callback n) σ).2
  | step_on_handler b e n σ : step σ (on_handler b e (Callback n) σ).2
  | step_once_listener b n σ : step σ (once_listener b n σ).2
  | step_once_handler b e n σ : step σ (once_handler b e n σ).2
  | step_off_listener k f σ : step σ (off_listener k f σ)
  | step_off_handler k e f σ : step σ (off_handler k e f σ)
  | step_emit k e p σ : step σ (emit k e p σ)
  | step_reset k σ : step σ (reset k σ).

(** The states a program can bring the registry into. *)
Definition reachable (σ : state) : Prop := rtc step empty_state σ.

(** ** What [once] needs *)

(** The caller's function [n] is in no sequence of the registry, neither
    by itself nor wrapped by [once]. *)
Definition unregistered (n : nat) (σ : state) : Prop :=
  ∀ k a f, owns_array σ k a → f ∈ content a σ → target f ≠ n.

(** The first half of [off(event, handler)]: the work on the handler
    sequence and on the Map, before the entry itself is looked at. *)
Definition remove_handler (r : Listeners) (event : value) (handler : fn)
    (σ : state) : state :=
  match map_get (handlerMap r) event σ with
  | None => σ
  | Some a =>
      match arrays σ !! a with
      | None => σ
      | Some fs =>
          let fs' := remove_first handler fs in
          let σ' := set_arrays <[a := fs']> σ in
          if decide (length fs' = 0)
          then map_delete (handlerMap r) event σ'
          else σ'
      end
  end.

(** The sequence [A] is where the closure [once_fn] will look for itself
    when it is called: the global sequence of [r] for a closure of
    [once(listener)], the sequence under its event name for a closure of
    [once(event, handler)]. *)
Definition linked (once_fn : fn) (r : Listeners) (A : loc) (σ : state) : Prop :=
  match once_fn with
  | Callback _ => False
  | OnceListener _ _ _ => listeners r = A
  | OnceHandler _ _ e _ => map_get (handlerMap r) e σ = Some A
  end.

(** The state right after [once]: the closure [once_fn] is the last element
    of the sequence [A] of the entry [r] of [k], and nothing else in the
    registry invokes its target. *)
Record armed (once_fn : fn) (k : value) (r : Listeners) (A : loc)
    (σ1 : state) : Prop := MkArmed {
  ar_wf : wf σ1;
  ar_key : fn_key once_fn = Some k;
  ar_only : ∀ k' a f, owns_array σ1 k' a → f ∈ content a σ1 →
                      target f = target once_fn → f = once_fn ∧ a = A;
  ar_last : ∃ fs0, content A σ1 = fs0 ++ [once_fn] ∧ once_fn ∉ fs0;
  ar_entry : events σ1 !! k = Some r;
  ar_owns : owns_array σ1 k A;
  ar_linked : linked once_fn r A σ1
}.

(** What holds of every state [σ] that emissions lead to from [σ1]. *)
Record once_inv (once_fn : fn) (k : value) (r : Listeners) (A : loc)
    (σ1 σ : state) : Prop := MkOnceInv {
  oi_shrinks : shrinks σ1 σ;
  oi_lower : fired (target once_fn) (trace σ1) ≤ fired (target once_fn) (trace σ);
  oi_upper : fired (target once_fn) (trace σ)
             ≤ S (fired (target once_fn) (trace σ1));
  oi_linked : once_fn ∈ content A σ → events σ !! k = Some r →
              linked once_fn r A σ;
  oi_spent : fired (target once_fn) (trace σ)
             = S (fired (target once_fn) (trace σ1)) →
             once_fn ∉ content A σ ∨ events σ !! k = None
}.

(** Every function in the sequences of the bus [k] is a function of the
    caller, hence an observer: no closure of [once] is waiting there, and
    nothing that would change a sequence while [forEach] walks it. *)
Definition plain_bus (k : value) (σ : state) : Prop :=
  ∀ a f, owns_array σ k a → f ∈ content a σ → plain f.

(** The function that [u] would remove is in the sequence [u] looks at. *)
Definition subscribed (u : stop) (σ : state) : Prop :=
  match u with
  | StopListener k f =>
      ∃ r, events σ !! k = Some r ∧ f ∈ content (listeners r) σ
  | StopHandler k e f =>
      ∃ r, events σ !! k = Some r ∧ f ∈ handlers r e σ
  end.

(** ** Further observations *)

(** The global sequence of the bus [k]; empty when the bus has no entry. *)
Definition listeners_of (k : value) (σ : state) : list fn :=
  match events σ !! k with
  | Some r => content (listeners r) σ
  | None => []
  end.

(** The sequence the bus [k] holds for [event]. *)
Definition handlers_of (k event : value) (σ : state) : list fn :=
  match events σ !! k with
  | Some r => handlers r event σ
  | None => []
  end.

(** [on(listener)] for each function of [ns], in order. *)
Definition on_listeners (b : bus) (ns : list nat) (σ : state) : state :=
  fold_left (λ σ' n, (on_listener b (Callback n) σ').2) ns σ.

(** What the two deletion tests of [off] keep true of every entry:
    [listeners.length > 0] or [handlerMap.size > 0].  A binding of the Map
    counts whatever array it points to, an empty one as well: this does not
    say that the entry has a subscriber. *)
Definition has_length_or_size (σ : state) : Prop :=
  ∀ k r, events σ !! k = Some r →
    content (listeners r) σ ≠ []
    ∨ ∃ hm, maps σ !! handlerMap r = Some hm ∧ hm ≠ ∅.

(** The elements at the positions 0, 2, 4, ... and at 1, 3, 5, ... *)
Fixpoint evens (l : list fn) : list fn :=
  match l with
  | [] => []
  | [x] => [x]
  | x :: _ :: l' => x :: evens l'
  end.

Definition odds (l : list fn) : list fn :=
  match l with
  | [] => []
  | _ :: l' => evens l'
  end.

(** A closure of [once(listener)] made on the bus [k]. *)
Definition once_listener_of (k : value) (f : fn) : Prop :=
  match f with
  | OnceListener _ k' _ => k' = k
  | _ => False
  end.

(** What [scope?.cleanups?.push(_off)] leaves behind, for a subscription
    made through the handle [b] in the state [σ] that returned [p.1] and led
    to [p.2]: the returned function is the new last cleanup of the scope of
    [b], when that scope has a [cleanups] array; the arrays of the other
    scopes are as before. *)
Definition scope_registered (b : bus) (σ : state) (p : stop * state) : Prop :=
  (∀ i cs, scope b = Some i → cleanups σ !! i = Some cs →
           cleanups p.2 !! i = Some (cs ++ [p.1]))
  ∧ (∀ j, scope b ≠ Some j → cleanups p.2 !! j = cleanups σ !! j).

(** ** Basic facts *)

Lemma add_trace_nil σ : add_trace [] σ = σ.
Proof. destruct σ. unfold add_trace. simpl. by rewrite app_nil_r. Qed.

Lemma add_trace_app t1 t2 σ :
  add_trace t2 (add_trace t1 σ) = add_trace (t1 ++ t2) σ.
Proof. unfold add_trace. simpl. by rewrite app_assoc. Qed.

Lemma log_add_trace n args σ : log n args σ = add_trace [(n, args)] σ.
Proof. done. Qed.

Lemma plain_callback f : plain f → f = Callback (target f).
Proof. by destruct f. Qed.

Lemma call_plain f args σ : plain f → call f args σ = add_trace [(target f, args)] σ.
Proof. by destruct f. Qed.

(** Iterating over an array of caller's functions calls each of them in
    order and leaves the store as it was. *)
Lemma forEach_from_plain a args fs n :
  ∀ k σ,
    arrays σ !! a = Some fs →
    Forall plain fs →
    k + n = length fs →
    forEach_from a (λ v, call v args) k n σ
    = add_trace (calls args (drop k fs)) σ.
Proof.
  induction n as [|n IH]; intros k σ Ha Hpl Hlen; simpl.
  - rewrite drop_ge by lia. by rewrite add_trace_nil.
  - rewrite Ha. simpl.
    destruct (lookup_lt_is_Some_2 fs k) as [f Hf]; [lia|].
    rewrite Hf.
    assert (plain f) as Hp.
    { eapply Forall_forall; [exact Hpl|]. eapply list_elem_of_lookup_2, Hf. }
    rewrite (call_plain _ _ _ Hp).
    rewrite (IH (S k)); [|done|done|lia].
    rewrite add_trace_app.
    by rewrite (drop_S _ _ _ Hf).
Qed.

Lemma forEach_plain a args σ :
  Forall plain (content a σ) →
  forEach a (λ v, call v args) σ = add_trace (calls args (content a σ)) σ.
Proof.
  unfold forEach, content. destruct (arrays σ !! a) as [fs|] eqn:Ha; simpl.
  - intros Hpl. by rewrite (forEach_from_plain a args fs (length fs) 0 σ).
  - intros _. by rewrite add_trace_nil.
Qed.

Lemma handlers_add_trace r e t σ :
  handlers r e (add_trace t σ) = handlers r e σ.
Proof. done. Qed.

(** [emit] on an entry whose functions are all caller's functions. *)
Lemma emit_plain k e p σ r :
  events σ !! k = Some r →
  Forall plain (handlers r e σ) →
  Forall plain (content (listeners r) σ) →
  emit k e p σ
  = add_trace (calls [p] (handlers r e σ)
               ++ calls [e; p] (content (listeners r) σ)) σ.
Proof.
  intros Hk Hh Hl. unfold emit. rewrite Hk.
  unfold handlers in *.
  destruct (map_get (handlerMap r) e σ) as [a|] eqn:Hm.
  - rewrite (forEach_plain _ _ _ Hh).
    rewrite forEach_plain; [|done].
    by rewrite add_trace_app.
  - rewrite forEach_plain; [|done]. done.
Qed.

Lemma calls_target_elem n args args' fs :
  Forall plain fs → (n, args') ∈ calls args fs → Callback n ∈ fs.
Proof.
  intros Hpl Hin. unfold calls in Hin.
  apply list_elem_of_fmap in Hin as (f & Heq & Hf).
  injection Heq as -> _.
  rewrite <- plain_callback; [done|].
  eapply Forall_forall; eauto.
Qed.

(** ** Removal only shrinks the store *)

Lemma remove_first_sublist f fs : remove_first f fs `sublist_of` fs.
Proof.
  induction fs as [|g fs IH]; simpl; [constructor|].
  case_decide; [by apply sublist_cons | by apply sublist_skip].
Qed.

Lemma remove_first_notin f fs : f ∉ fs → remove_first f fs = fs.
Proof.
  induction fs as [|g fs IH]; simpl; [done|].
  intros Hnin. apply not_elem_of_cons in Hnin as [Hne Hnin].
  case_decide; [done|]. by rewrite IH.
Qed.

Lemma remove_first_other f g fs : g ∈ fs → f ≠ g → g ∈ remove_first f fs.
Proof.
  induction fs as [|h fs IH]; simpl; [by intros ?%elem_of_nil|].
  intros Hin Hne. case_decide as Hd.
  - subst h. apply elem_of_cons in Hin as [->|Hin]; done.
  - apply elem_of_cons in Hin as [->|Hin]; [left | right; by apply IH].
Qed.

Lemma opt_sublist_refl (o : option (list fn)) : option_Forall2 sublist o o.
Proof. destruct o; by constructor. Qed.

Lemma opt_submap_refl (o : option (gmap value loc)) :
  option_Forall2 (⊆) o o.
Proof. destruct o; by constructor. Qed.

Lemma arrays_insert_shrinks (arrs : gmap loc (list fn)) l fs fs' :
  arrs !! l = Some fs → fs' `sublist_of` fs →
  ∀ a, option_Forall2 sublist (<[l := fs']> arrs !! a) (arrs !! a).
Proof.
  intros Hl Hsub a. destruct (decide (l = a)) as [<-|Hne].
  - rewrite lookup_insert_eq, Hl. by constructor.
  - rewrite lookup_insert_ne by done. apply opt_sublist_refl.
Qed.

Lemma maps_alter_shrinks (ms : gmap loc (gmap value loc)) l g :
  (∀ hm, g hm ⊆ hm) →
  ∀ m, option_Forall2 (⊆) (alter g l ms !! m) (ms !! m).
Proof.
  intros Hg m. destruct (decide (l = m)) as [<-|Hne].
  - rewrite lookup_alter_eq. destruct (ms !! l); simpl; constructor. apply Hg.
  - rewrite lookup_alter_ne by done. apply opt_submap_refl.
Qed.

Lemma shrinks_refl σ : shrinks σ σ.
Proof.
  constructor; first [done | intros; apply opt_submap_refl
                     | intros; apply opt_sublist_refl].
Qed.

Lemma fired_prefix n t1 t2 : t1 `prefix_of` t2 → fired n t1 ≤ fired n t2.
Proof.
  intros [t ->]. unfold fired. rewrite filter_app, length_app.
  apply Nat.le_add_r.
Qed.

Lemma shrinks_trans σ1 σ2 σ3 : shrinks σ1 σ2 → shrinks σ2 σ3 → shrinks σ1 σ3.
Proof.
  intros [He1 Hm1 Ha1 ? ? ? Ht1] [He2 Hm2 Ha2 ? ? ? Ht2].
  constructor; try congruence; [| | |by etrans].
  - by etrans.
  - intros m. specialize (Hm1 m). specialize (Hm2 m).
    destruct Hm2 as [x y Hxy|]; inversion Hm1; subst; constructor.
    by etrans.
  - intros a. specialize (Ha1 a). specialize (Ha2 a).
    destruct Ha2 as [x y Hxy|]; inversion Ha1; subst; constructor.
    by etrans.
Qed.

Lemma shrinks_log n args σ : shrinks σ (log n args σ).
Proof.
  constructor; first [done | intros; apply opt_submap_refl
                     | intros; apply opt_sublist_refl
                     | by apply prefix_app_r].
Qed.

Lemma shrinks_reset k σ : shrinks σ (reset k σ).
Proof.
  constructor;
    first [done | apply delete_subseteq | intros; apply opt_submap_refl
          | intros; apply opt_sublist_refl].
Qed.

Lemma shrinks_delete_entry k σ : shrinks σ (set_events (delete k) σ).
Proof. apply shrinks_reset. Qed.

Lemma shrinks_set_array a fs fs' σ :
  arrays σ !! a = Some fs → fs' `sublist_of` fs →
  shrinks σ (set_arrays <[a := fs']> σ).
Proof.
  intros Ha Hsub.
  constructor;
    first [done | intros; apply opt_submap_refl
          | simpl; by eapply arrays_insert_shrinks].
Qed.

Lemma shrinks_map_delete m e σ : shrinks σ (map_delete m e σ).
Proof.
  constructor;
    first [done | intros; apply opt_sublist_refl
          | simpl; apply maps_alter_shrinks; intros hm; apply delete_subseteq].
Qed.

Lemma shrinks_off_listener k f σ : shrinks σ (off_listener k f σ).
Proof.
  unfold off_listener.
  destruct (events σ !! k) as [r|]; [|apply shrinks_refl].
  destruct (arrays σ !! listeners r) as [fs|] eqn:Ha; [|apply shrinks_refl].
  pose proof (shrinks_set_array _ _ _ σ Ha (remove_first_sublist f fs)) as Hs.
  case_decide; [|done].
  eapply shrinks_trans; [exact Hs|]. apply shrinks_delete_entry.
Qed.

Lemma shrinks_off_handler k e f σ : shrinks σ (off_handler k e f σ).
Proof.
  unfold off_handler.
  destruct (events σ !! k) as [r|]; [|apply shrinks_refl].
  match goal with
  | |- shrinks σ (match maps ?s !! _ with _ => _ end) =>
      assert (shrinks σ s) as Hs; [|set (σ1 := s) in *]
  end.
  { destruct (map_get (handlerMap r) e σ) as [a|]; [|apply shrinks_refl].
    destruct (arrays σ !! a) as [fs|] eqn:Ha; [|apply shrinks_refl].
    pose proof (shrinks_set_array _ _ _ σ Ha (remove_first_sublist f fs)) as Hs.
    case_decide; [|done].
    eapply shrinks_trans; [exact Hs|]. apply shrinks_map_delete. }
  destruct (maps σ1 !! handlerMap r) as [hm|]; [|done].
  case_decide; [|done].
  eapply shrinks_trans; [exact Hs|]. apply shrinks_delete_entry.
Qed.

Lemma shrinks_call f args σ : shrinks σ (call f args σ).
Proof.
  destruct f; simpl.
  - apply shrinks_log.
  - eapply shrinks_trans; [apply shrinks_off_listener | apply shrinks_log].
  - eapply shrinks_trans; [apply shrinks_off_handler | apply shrinks_log].
Qed.

(** Reasoning on a [forEach]: a property of the state that every callback
    preserves on the element it is given holds at the end. *)
Lemma forEach_from_inv (P : state → Prop) a cb :
  (∀ f σ, P σ → f ∈ content a σ → P (cb f σ)) →
  ∀ n k σ, P σ → P (forEach_from a cb k n σ).
Proof.
  intros Hstep. induction n as [|n IH]; intros k σ HP; simpl; [done|].
  apply IH.
  destruct (arrays σ !! a ≫= λ fs, fs !! k) as [f|] eqn:Hf; [|done].
  apply Hstep; [done|].
  unfold content. destruct (arrays σ !! a) as [fs|]; simpl in *; [|done].
  by eapply list_elem_of_lookup_2.
Qed.

Lemma forEach_inv (P : state → Prop) a cb :
  (∀ f σ, P σ → f ∈ content a σ → P (cb f σ)) →
  ∀ σ, P σ → P (forEach a cb σ).
Proof.
  intros Hstep σ HP. unfold forEach.
  destruct (arrays σ !! a); [|done]. by apply forEach_from_inv.
Qed.

Lemma shrinks_forEach a args σ : shrinks σ (forEach a (λ v, call v args) σ).
Proof.
  apply (forEach_inv (shrinks σ)); [|apply shrinks_refl].
  intros f σ' Hs _. eapply shrinks_trans; [exact Hs|]. apply shrinks_call.
Qed.

Lemma shrinks_emit k e p σ : shrinks σ (emit k e p σ).
Proof.
  unfold emit. destruct (events σ !! k) as [r|]; [|apply shrinks_refl].
  eapply shrinks_trans; [|apply shrinks_forEach].
  destruct (map_get (handlerMap r) e σ); [apply shrinks_forEach|apply shrinks_refl].
Qed.

Lemma shrinks_emits es σ : shrinks σ (emits es σ).
Proof.
  revert σ. induction es as [|x es IH]; intros σ; simpl; [apply shrinks_refl|].
  eapply shrinks_trans; [apply shrinks_emit|]. apply IH.
Qed.

Lemma shrinks_run_stop u σ : shrinks σ (run_stop u σ).
Proof. destruct u; [apply shrinks_off_listener|apply shrinks_off_handler]. Qed.

(** What is reachable after shrinking was reachable before. *)
Lemma shrinks_events σ σ' k r :
  shrinks σ σ' → events σ' !! k = Some r → events σ !! k = Some r.
Proof.
  intros Hs H. eapply lookup_weaken; [exact H|]. apply (sh_events _ _ Hs).
Qed.

Lemma shrinks_map_get σ σ' m e a :
  shrinks σ σ' → map_get m e σ' = Some a → map_get m e σ = Some a.
Proof.
  intros Hs. unfold map_get. pose proof (sh_maps _ _ Hs m) as Hm.
  destruct Hm as [hm' hm Hsub|]; simpl; [|done].
  intros H. by eapply lookup_weaken.
Qed.

Lemma shrinks_owns_array σ σ' k a :
  shrinks σ σ' → owns_array σ' k a → owns_array σ k a.
Proof.
  intros Hs (r & Hr & Ha). exists r. split; [by eapply shrinks_events|].
  destruct Ha as [->|[e He]]; [by left|right]. exists e.
  by eapply shrinks_map_get.
Qed.

Lemma shrinks_owns_map σ σ' k m :
  shrinks σ σ' → owns_map σ' k m → owns_map σ k m.
Proof.
  intros Hs (r & Hr & ->). exists r. split; [by eapply shrinks_events|done].
Qed.

Lemma shrinks_content σ σ' a :
  shrinks σ σ' → content a σ' `sublist_of` content a σ.
Proof.
  intros Hs. unfold content. by destruct (sh_arrays _ _ Hs a).
Qed.

Lemma shrinks_content_elem σ σ' a f :
  shrinks σ σ' → f ∈ content a σ' → f ∈ content a σ.
Proof.
  intros Hs Hin. eapply elem_of_sublist; [exact Hin|].
  by apply shrinks_content.
Qed.

Lemma shrinks_allocated_array σ σ' a :
  shrinks σ σ' → is_Some (arrays σ !! a) → is_Some (arrays σ' !! a).
Proof. intros Hs [fs Hfs]. destruct (sh_arrays _ _ Hs a); [eauto|congruence]. Qed.

Lemma shrinks_allocated_map σ σ' m :
  shrinks σ σ' → is_Some (maps σ !! m) → is_Some (maps σ' !! m).
Proof. intros Hs [hm Hhm]. destruct (sh_maps _ _ Hs m); [eauto|congruence]. Qed.

(** Well-formedness survives every removal. *)
Lemma wf_shrinks σ σ' : wf σ → shrinks σ σ' → wf σ'.
Proof.
  intros Hwf Hs. constructor.
  - intros k r Hr. apply (shrinks_events _ _ _ _ Hs) in Hr.
    destruct (wf_listeners _ Hwf k r Hr) as [Hlt Hal].
    rewrite (sh_next_loc _ _ Hs). split; [done|].
    by eapply shrinks_allocated_array.
  - intros k r Hr. apply (shrinks_events _ _ _ _ Hs) in Hr.
    destruct (wf_handlerMap _ Hwf k r Hr) as [Hlt Hal].
    rewrite (sh_next_loc _ _ Hs). split; [done|].
    by eapply shrinks_allocated_map.
  - intros k r e a Hr Ha. apply (shrinks_events _ _ _ _ Hs) in Hr.
    apply (shrinks_map_get _ _ _ _ _ Hs) in Ha.
    destruct (wf_handlers _ Hwf k r e a Hr Ha) as (Hlt & Hal & Hne).
    rewrite (sh_next_loc _ _ Hs). split_and!; [done| |done].
    by eapply shrinks_allocated_array.
  - intros k1 k2 a H1 H2. eapply (wf_sep_arrays _ Hwf); by eapply shrinks_owns_array.
  - intros k1 k2 m H1 H2. eapply (wf_sep_maps _ Hwf); by eapply shrinks_owns_map.
  - intros k a f Ho Hf. eapply (wf_fn _ Hwf).
    + by eapply shrinks_owns_array.
    + by eapply shrinks_content_elem.
Qed.

Lemma wf_off_listener k f σ : wf σ → wf (off_listener k f σ).
Proof. intros H. eapply wf_shrinks; [exact H|apply shrinks_off_listener]. Qed.

Lemma wf_off_handler k e f σ : wf σ → wf (off_handler k e f σ).
Proof. intros H. eapply wf_shrinks; [exact H|apply shrinks_off_handler]. Qed.

Lemma wf_reset k σ : wf σ → wf (reset k σ).
Proof. intros H. eapply wf_shrinks; [exact H|apply shrinks_reset]. Qed.

Lemma wf_emit k e p σ : wf σ → wf (emit k e p σ).
Proof. intros H. eapply wf_shrinks; [exact H|apply shrinks_emit]. Qed.

(** ** Subscribing keeps the store well formed *)

Lemma owns_array_lt σ k a : wf σ → owns_array σ k a → a < next_loc σ.
Proof.
  intros Hwf (r & Hr & [->|[e He]]).
  - apply (wf_listeners _ Hwf k r Hr).
  - apply (wf_handlers _ Hwf k r e a Hr He).
Qed.

Lemma owns_map_lt σ k m : wf σ → owns_map σ k m → m < next_loc σ.
Proof. intros Hwf (r & Hr & ->). apply (wf_handlerMap _ Hwf k r Hr). Qed.

Lemma owns_array_allocated σ k a : wf σ → owns_array σ k a → is_Some (arrays σ !! a).
Proof.
  intros Hwf (r & Hr & [->|[e He]]).
  - apply (wf_listeners _ Hwf k r Hr).
  - apply (wf_handlers _ Hwf k r e a Hr He).
Qed.

Lemma content_lookup a σ fs : arrays σ !! a = Some fs → content a σ = fs.
Proof. unfold content. by intros ->. Qed.

Lemma content_push_elem a a' f f' σ :
  f' ∈ content a' (push a f σ) → f' ∈ content a' σ ∨ (a' = a ∧ f' = f).
Proof.
  unfold content, push. simpl.
  destruct (decide (a = a')) as [<-|Hne].
  - rewrite lookup_alter_eq. destruct (arrays σ !! a); simpl; [|by left].
    intros [H| ->%list_elem_of_singleton]%elem_of_app; [by left|by right].
  - rewrite lookup_alter_ne by done. by left.
Qed.

Lemma content_push_eq a f σ :
  is_Some (arrays σ !! a) → content a (push a f σ) = content a σ ++ [f].
Proof.
  intros [fs Hfs]. unfold content, push. simpl.
  by rewrite lookup_alter_eq, Hfs.
Qed.

Lemma content_push_ne a a' f σ :
  a ≠ a' → content a' (push a f σ) = content a' σ.
Proof.
  intros Hne. unfold content, push. simpl. by rewrite lookup_alter_ne.
Qed.

Lemma is_Some_alter `{Countable K} {A} (g : A → A) (j i : K) (m : gmap K A) :
  is_Some (m !! i) → is_Some (alter g j m !! i).
Proof.
  intros Hs. rewrite lookup_alter. case_decide; [subst|done].
  by apply fmap_is_Some.
Qed.

Lemma wf_empty : wf empty_state.
Proof.
  constructor.
  - intros k r H. simpl in H. by rewrite lookup_empty in H.
  - intros k r H. simpl in H. by rewrite lookup_empty in H.
  - intros k r e a H. simpl in H. by rewrite lookup_empty in H.
  - intros k1 k2 a (r & H & _). simpl in H. by rewrite lookup_empty in H.
  - intros k1 k2 a (r & H & _). simpl in H. by rewrite lookup_empty in H.
  - intros k a f (r & H & _). simpl in H. by rewrite lookup_empty in H.
Qed.

Lemma wf_register_cleanup s u σ : wf σ → wf (register_cleanup s u σ).
Proof. intros [? ? ? ? ? ?]. destruct s; [constructor|constructor]; done. Qed.

Lemma wf_set_next_fn n σ : wf σ → wf (set_next_fn n σ).
Proof. intros [? ? ? ? ? ?]. constructor; done. Qed.

Lemma wf_new_array σ : wf σ → wf (new_array σ).2.
Proof.
  intros Hwf. unfold new_array. simpl. constructor.
  - intros k r Hr. simpl in *.
    destruct (wf_listeners _ Hwf k r Hr) as [Hlt Hal]. split; [lia|].
    rewrite lookup_insert_ne by lia. done.
  - intros k r Hr. simpl in *.
    destruct (wf_handlerMap _ Hwf k r Hr) as [Hlt Hal]. split; [lia|done].
  - intros k r e a Hr Ha. simpl in *.
    destruct (wf_handlers _ Hwf k r e a Hr Ha) as (Hlt & Hal & Hne).
    split_and!; [lia| |done]. rewrite lookup_insert_ne by lia. done.
  - apply (wf_sep_arrays _ Hwf).
  - apply (wf_sep_maps _ Hwf).
  - intros k a f Ho Hf. eapply (wf_fn _ Hwf); [exact Ho|].
    pose proof (owns_array_lt _ _ _ Hwf Ho).
    unfold content in *. simpl in Hf.
    rewrite lookup_insert_ne in Hf by lia. done.
Qed.

Lemma map_get_new_map σ m e a :
  map_get m e (new_map σ).2 = Some a → map_get m e σ = Some a.
Proof.
  unfold map_get, new_map. simpl.
  destruct (decide (next_loc σ = m)) as [<-|Hne].
  - rewrite lookup_insert_eq. simpl. by rewrite lookup_empty.
  - by rewrite lookup_insert_ne.
Qed.

Lemma owns_array_new_map σ k a :
  owns_array (new_map σ).2 k a → owns_array σ k a.
Proof.
  intros (r & Hr & Ha). exists r. split; [done|].
  destruct Ha as [->|[e He]]; [by left|right].
  exists e. by apply map_get_new_map.
Qed.

Lemma wf_new_map σ : wf σ → wf (new_map σ).2.
Proof.
  intros Hwf. constructor.
  - intros k r Hr. simpl in *.
    destruct (wf_listeners _ Hwf k r Hr) as [Hlt Hal]. split; [lia|done].
  - intros k r Hr. simpl in *.
    destruct (wf_handlerMap _ Hwf k r Hr) as [Hlt Hal]. split; [lia|].
    rewrite lookup_insert_ne by lia. done.
  - intros k r e a Hr Ha. apply map_get_new_map in Ha. simpl in *.
    destruct (wf_handlers _ Hwf k r e a Hr Ha) as (Hlt & Hal & Hne).
    split_and!; [lia|done|done].
  - intros k1 k2 a H1%owns_array_new_map H2%owns_array_new_map.
    by eapply (wf_sep_arrays _ Hwf).
  - apply (wf_sep_maps _ Hwf).
  - intros k a f Ho%owns_array_new_map Hf. by eapply (wf_fn _ Hwf).
Qed.

Lemma wf_push a f σ :
  wf σ → (∀ k, owns_array σ k a → fn_ok k f) → wf (push a f σ).
Proof.
  intros Hwf Hok. constructor.
  - intros k r Hr. simpl in *.
    destruct (wf_listeners _ Hwf k r Hr) as [Hlt Hal]. split; [done|].
    by apply is_Some_alter.
  - apply (wf_handlerMap _ Hwf).
  - intros k r e a' Hr Ha.
    destruct (wf_handlers _ Hwf k r e a' Hr Ha) as (Hlt & Hal & Hne).
    split_and!; [done| |done]. simpl.
    by apply is_Some_alter.
  - apply (wf_sep_arrays _ Hwf).
  - apply (wf_sep_maps _ Hwf).
  - intros k a' f' Ho Hf.
    apply content_push_elem in Hf as [Hf|[-> ->]].
    + by eapply (wf_fn _ Hwf).
    + by apply Hok.
Qed.

Lemma map_get_map_set m e a m' e' a' σ :
  map_get m' e' (map_set m e a σ) = Some a' →
  map_get m' e' σ = Some a' ∨ (m' = m ∧ e' = e ∧ a' = a).
Proof.
  unfold map_get, map_set. simpl.
  destruct (decide (m = m')) as [<-|Hne].
  - rewrite lookup_alter_eq. destruct (maps σ !! m) as [hm|]; simpl; [|done].
    destruct (decide (e = e')) as [<-|Hne].
    + rewrite lookup_insert_eq. intros [= <-]. by right.
    + rewrite lookup_insert_ne by done. by left.
  - rewrite lookup_alter_ne by done. by left.
Qed.

Lemma map_get_map_set_eq m e a σ :
  is_Some (maps σ !! m) → map_get m e (map_set m e a σ) = Some a.
Proof.
  intros [hm Hhm]. unfold map_get, map_set. simpl.
  rewrite lookup_alter_eq, Hhm. simpl. by rewrite lookup_insert_eq.
Qed.

Lemma owns_array_map_set m e a σ k a' :
  owns_array (map_set m e a σ) k a' →
  owns_array σ k a' ∨ (a' = a ∧ owns_map σ k m).
Proof.
  intros (r & Hr & Ha). simpl in Hr.
  destruct Ha as [->|[e' He']].
  - left. exists r. split; [done|by left].
  - apply map_get_map_set in He' as [He'|(Hm & -> & ->)].
    + left. exists r. split; [done|]. right. by exists e'.
    + right. split; [done|]. exists r. done.
Qed.

Lemma wf_map_set m e a σ :
  wf σ →
  a < next_loc σ →
  is_Some (arrays σ !! a) →
  (∀ k r, events σ !! k = Some r → handlerMap r = m →
     a ≠ listeners r
     ∧ (∀ k', owns_array σ k' a → k' = k)
     ∧ (∀ f, f ∈ content a σ → fn_ok k f)) →
  wf (map_set m e a σ).
Proof.
  intros Hwf Hlt Hal Hown. constructor.
  - apply (wf_listeners _ Hwf).
  - intros k r Hr. simpl in *.
    destruct (wf_handlerMap _ Hwf k r Hr) as [Hlt' Hal']. split; [done|].
    by apply is_Some_alter.
  - intros k r e' a' Hr Ha. simpl in Hr.
    apply map_get_map_set in Ha as [Ha|(Hm & -> & ->)].
    + apply (wf_handlers _ Hwf k r e' a' Hr Ha).
    + destruct (Hown k r Hr Hm) as (Hne & _ & _). done.
  - intros k1 k2 a' H1 H2.
    apply owns_array_map_set in H1 as [H1|[-> H1]];
      apply owns_array_map_set in H2 as [H2|[Heq H2]].
    + by eapply (wf_sep_arrays _ Hwf).
    + subst a'. destruct H2 as (r2 & Hr2 & Hm2).
      destruct (Hown k2 r2 Hr2 (eq_sym Hm2)) as (_ & Hsep & _). by apply Hsep.
    + destruct H1 as (r1 & Hr1 & Hm1).
      destruct (Hown k1 r1 Hr1 (eq_sym Hm1)) as (_ & Hsep & _).
      symmetry. by apply Hsep.
    + by eapply (wf_sep_maps _ Hwf).
  - apply (wf_sep_maps _ Hwf).
  - intros k a' f Ho Hf.
    apply owns_array_map_set in Ho as [Ho|[-> Ho]].
    + by eapply (wf_fn _ Hwf).
    + destruct Ho as (r & Hr & Hm).
      destruct (Hown k r Hr (eq_sym Hm)) as (_ & _ & Hfn). by apply Hfn.
Qed.

Lemma owns_array_insert_entry σ k l m k' a :
  owns_array (set_events <[k := MkListeners l m]> σ) k' a →
  (k' ≠ k ∧ owns_array σ k' a)
  ∨ (k' = k ∧ (a = l ∨ ∃ e, map_get m e σ = Some a)).
Proof.
  intros (r & Hr & Ha). simpl in Hr.
  destruct (decide (k = k')) as [<-|Hne].
  - rewrite lookup_insert_eq in Hr. injection Hr as <-. right. done.
  - rewrite lookup_insert_ne in Hr by done. left. split; [done|].
    exists r. done.
Qed.

Lemma owns_map_insert_entry σ k l m k' m' :
  owns_map (set_events <[k := MkListeners l m]> σ) k' m' →
  (k' ≠ k ∧ owns_map σ k' m') ∨ (k' = k ∧ m' = m).
Proof.
  intros (r & Hr & Ha). simpl in Hr.
  destruct (decide (k = k')) as [<-|Hne].
  - rewrite lookup_insert_eq in Hr. injection Hr as <-. right. done.
  - rewrite lookup_insert_ne in Hr by done. left. split; [done|].
    exists r. done.
Qed.

Lemma wf_insert_entry k l m σ :
  wf σ →
  l < next_loc σ → is_Some (arrays σ !! l) →
  m < next_loc σ → is_Some (maps σ !! m) →
  (∀ k', ¬ owns_array σ k' l) →
  (∀ k', ¬ owns_map σ k' m) →
  (∀ f, f ∈ content l σ → fn_ok k f) →
  (∀ e a, map_get m e σ = Some a →
     a < next_loc σ ∧ is_Some (arrays σ !! a) ∧ a ≠ l
     ∧ (∀ k', ¬ owns_array σ k' a)
     ∧ (∀ f, f ∈ content a σ → fn_ok k f)) →
  wf (set_events <[k := MkListeners l m]> σ).
Proof.
  intros Hwf Hl Hla Hm Hma Hul Hum Hfl Hh. constructor.
  - intros k' r Hr. simpl in *.
    destruct (decide (k = k')) as [<-|Hne].
    + rewrite lookup_insert_eq in Hr. injection Hr as <-. done.
    + rewrite lookup_insert_ne in Hr by done. by eapply (wf_listeners _ Hwf).
  - intros k' r Hr. simpl in *.
    destruct (decide (k = k')) as [<-|Hne].
    + rewrite lookup_insert_eq in Hr. injection Hr as <-. done.
    + rewrite lookup_insert_ne in Hr by done. by eapply (wf_handlerMap _ Hwf).
  - intros k' r e a Hr Ha. simpl in Hr.
    destruct (decide (k = k')) as [<-|Hne].
    + rewrite lookup_insert_eq in Hr. injection Hr as <-.
      destruct (Hh e a Ha) as (? & ? & ? & _). done.
    + rewrite lookup_insert_ne in Hr by done.
      by eapply (wf_handlers _ Hwf).
  - intros k1 k2 a H1 H2.
    apply owns_array_insert_entry in H1 as [[Hn1 H1]|[-> H1]];
      apply owns_array_insert_entry in H2 as [[Hn2 H2]|[-> H2]]; [| | |done].
    + by eapply (wf_sep_arrays _ Hwf).
    + exfalso. destruct H2 as [->|[e He]]; [by eapply Hul|].
      destruct (Hh e a He) as (_ & _ & _ & Hu & _). by eapply Hu.
    + exfalso. destruct H1 as [->|[e He]]; [by eapply Hul|].
      destruct (Hh e a He) as (_ & _ & _ & Hu & _). by eapply Hu.
  - intros k1 k2 m' H1 H2.
    apply owns_map_insert_entry in H1 as [[Hn1 H1]|[-> ->]];
      apply owns_map_insert_entry in H2 as [[Hn2 H2]|[-> Heq]]; [| | |done].
    + by eapply (wf_sep_maps _ Hwf).
    + subst m'. exfalso. by eapply Hum.
    + exfalso. by eapply Hum.
  - intros k' a f Ho Hf.
    apply owns_array_insert_entry in Ho as [[Hn Ho]|[-> Ho]].
    + by eapply (wf_fn _ Hwf).
    + destruct Ho as [->|[e He]]; [by apply Hfl|].
      destruct (Hh e a He) as (_ & _ & _ & _ & Hfn). by apply Hfn.
Qed.

Lemma set_events_insert_id k r σ :
  events σ !! k = Some r → set_events <[k := r]> σ = σ.
Proof.
  intros Hr. destruct σ. unfold set_events. simpl in *. by rewrite insert_id.
Qed.

Lemma owns_array_push a f σ k x : owns_array (push a f σ) k x → owns_array σ k x.
Proof. done. Qed.

Lemma owns_array_new_array σ k x : owns_array (new_array σ).2 k x → owns_array σ k x.
Proof. done. Qed.

Lemma owns_array_self_listeners σ k r :
  events σ !! k = Some r → owns_array σ k (listeners r).
Proof. intros Hr. exists r. split; [done|by left]. Qed.

Lemma owns_array_self_handlers σ k r e a :
  events σ !! k = Some r → map_get (handlerMap r) e σ = Some a → owns_array σ k a.
Proof. intros Hr Ha. exists r. split; [done|right; by exists e]. Qed.

Lemma owns_map_self σ k r : events σ !! k = Some r → owns_map σ k (handlerMap r).
Proof. intros Hr. by exists r. Qed.

Lemma not_owns_next_loc σ k : wf σ → ¬ owns_array σ k (next_loc σ).
Proof. intros Hwf Ho. apply owns_array_lt in Ho; [lia|done]. Qed.

Lemma not_owns_map_ge σ k m : wf σ → next_loc σ ≤ m → ¬ owns_map σ k m.
Proof. intros Hwf Hle Ho. apply owns_map_lt in Ho; [lia|done]. Qed.

Lemma not_owns_array_ge σ k a : wf σ → next_loc σ ≤ a → ¬ owns_array σ k a.
Proof. intros Hwf Hle Ho. apply owns_array_lt in Ho; [lia|done]. Qed.

Theorem wf_on_listener b f σ :
  wf σ → fn_ok (key b) f → wf (on_listener b f σ).2.
Proof.
  intros Hwf Hok. unfold on_listener, listenerRecord.
  destruct (events σ !! key b) as [r|] eqn:Hr; simpl.
  - apply wf_register_cleanup.
    rewrite set_events_insert_id by done.
    apply wf_push; [done|]. intros k' Ho.
    rewrite (wf_sep_arrays _ Hwf k' (key b) (listeners r) Ho); [done|].
    by apply owns_array_self_listeners.
  - apply wf_register_cleanup.
    set (l := next_loc σ).
    set (σb := (new_map (new_array σ).2).2).
    assert (wf σb) as Hwfb by (apply wf_new_map, wf_new_array, Hwf).
    assert (∀ k', ¬ owns_array σb k' l) as Hul.
    { intros k' Ho%owns_array_new_map%owns_array_new_array.
      exact (not_owns_next_loc σ k' Hwf Ho). }
    assert (wf (push l f σb)) as Hwfc.
    { apply wf_push; [done|]. intros k' Ho. by destruct (Hul k'). }
    apply (wf_insert_entry (key b) l (S l) (push l f σb)); try done.
    + simpl. lia.
    + simpl. apply is_Some_alter. rewrite lookup_insert_eq. eauto.
    + simpl. lia.
    + simpl. rewrite lookup_insert_eq. eauto.
    + intros k' Ho. apply (not_owns_map_ge σ k' (S l)); [done|unfold l; lia|].
      exact Ho.
    + intros f'. unfold content. simpl.
      rewrite lookup_alter_eq, lookup_insert_eq. simpl.
      by intros ->%list_elem_of_singleton.
    + intros e a. unfold map_get. simpl.
      rewrite lookup_insert_eq. simpl. by rewrite lookup_empty.
Qed.

Theorem wf_on_handler b e f σ :
  wf σ → fn_ok (key b) f → wf (on_handler b e f σ).2.
Proof.
  intros Hwf Hok. unfold on_handler, listenerRecord.
  destruct (events σ !! key b) as [r|] eqn:Hr.
  - destruct (map_get (handlerMap r) (key b) σ) as [a|] eqn:Ha; simpl.
    + (* the sequence found under the bus identifier is reused *)
      apply wf_register_cleanup.
      rewrite set_events_insert_id by done.
      pose proof (owns_array_self_handlers _ _ _ _ _ Hr Ha) as Hown.
      assert (wf (push a f σ)) as Hwf3.
      { apply wf_push; [done|]. intros k' Ho.
        by rewrite (wf_sep_arrays _ Hwf k' (key b) a Ho Hown). }
      destruct (wf_handlers _ Hwf _ _ _ _ Hr Ha) as (Hlt & Hal & Hne).
      apply wf_map_set; [done|done|by apply is_Some_alter|].
      intros k' r' Hr' Hm. simpl in Hr'.
      assert (k' = key b) as ->.
      { apply (wf_sep_maps _ Hwf k' (key b) (handlerMap r)); [|by exists r].
        exists r'. done. }
      assert (r' = r) as -> by congruence.
      split_and!; [done| |].
      * intros k' Ho. by apply (wf_sep_arrays _ Hwf k' (key b) a).
      * intros f' Hf'. by apply (wf_fn _ Hwf3 (key b) a).
    + (* a new array *)
      apply wf_register_cleanup.
      rewrite set_events_insert_id by done.
      set (a := next_loc σ).
      assert (wf (push a f (new_array σ).2)) as Hwf3.
      { apply wf_push; [by apply wf_new_array|]. intros k' Ho.
        destruct (not_owns_next_loc σ k' Hwf Ho). }
      apply wf_map_set; [done|simpl; lia| |].
      { simpl. apply is_Some_alter. rewrite lookup_insert_eq. eauto. }
      intros k' r' Hr' Hm. simpl in Hr'.
      assert (k' = key b) as ->.
      { apply (wf_sep_maps _ Hwf k' (key b) (handlerMap r)); [|by exists r].
        exists r'. done. }
      assert (r' = r) as -> by congruence.
      split_and!.
      * destruct (wf_listeners _ Hwf _ _ Hr) as [Hlt _]. unfold a. lia.
      * intros k' Ho. destruct (not_owns_next_loc σ k' Hwf Ho).
      * intros f'. unfold content. simpl.
        rewrite lookup_alter_eq, lookup_insert_eq. simpl.
        by intros ->%list_elem_of_singleton.
  - (* a new entry: its Map is empty, so the array is new as well *)
    simpl. unfold map_get. simpl. rewrite lookup_insert_eq. simpl.
    rewrite lookup_empty. simpl.
    apply wf_register_cleanup.
    set (l := next_loc σ).
    set (σb := (new_map (new_array σ).2).2).
    set (σ2 := (new_array σb).2).
    set (a := S (S l)).
    assert (wf σb) as Hwfb by (apply wf_new_map, wf_new_array, Hwf).
    assert (∀ k' x, owns_array σ2 k' x → owns_array σ k' x) as Hback.
    { intros k' x Ho. apply (owns_array_new_map (new_array σ).2 k' x). exact Ho. }
    assert (wf (push a f σ2)) as Hwf3.
    { apply wf_push; [by apply wf_new_array|]. intros k' Ho%Hback.
      destruct (not_owns_array_ge σ k' a Hwf); [unfold a, l; lia|done]. }
    assert (wf (map_set (S l) e a (push a f σ2))) as Hwf4.
    { apply wf_map_set; [done|simpl; lia| |].
      { simpl. apply is_Some_alter. rewrite lookup_insert_eq. eauto. }
      intros k' r' Hr' Hm. simpl in Hr'.
      destruct (not_owns_map_ge σ k' (S l) Hwf); [unfold l; lia|].
      by exists r'. }
    change (wf (set_events <[key b := MkListeners l (S l)]>
                  (map_set (S l) e a (push a f σ2)))).
    assert (∀ k' x, owns_array (map_set (S l) e a (push a f σ2)) k' x →
                    owns_array σ k' x) as Hback4.
    { intros k' x [Ho|[_ Ho]]%owns_array_map_set; [by apply Hback|].
      destruct (not_owns_map_ge σ k' (S l) Hwf); [unfold l; lia|done]. }
    apply wf_insert_entry; try done.
    + simpl. lia.
    + simpl. apply is_Some_alter.
      rewrite lookup_insert_ne by (unfold l; lia).
      rewrite lookup_insert_eq. eauto.
    + simpl. lia.
    + simpl. apply is_Some_alter. rewrite lookup_insert_eq. eauto.
    + intros k' Ho%Hback4.
      destruct (not_owns_array_ge σ k' l Hwf); [unfold l; lia|done].
    + intros k' Ho.
      destruct (not_owns_map_ge σ k' (S l) Hwf); [unfold l; lia|done].
    + intros f'. unfold content. simpl.
      rewrite lookup_alter_ne by (unfold a; lia).
      rewrite lookup_insert_ne by (unfold l; lia).
      rewrite lookup_insert_eq. simpl. by intros ?%elem_of_nil.
    + intros e' a' [Hg|(_ & -> & ->)]%map_get_map_set.
      { unfold map_get in Hg. simpl in Hg.
        rewrite lookup_insert_eq in Hg. simpl in Hg.
        by rewrite lookup_empty in Hg. }
      split_and!.
      * simpl. lia.
      * simpl. apply is_Some_alter. rewrite lookup_insert_eq. eauto.
      * unfold a. lia.
      * intros k' Ho%Hback4.
        destruct (not_owns_array_ge σ k' a Hwf); [unfold a, l; lia|done].
      * intros f'. unfold content. simpl.
        rewrite lookup_alter_eq, lookup_insert_eq. simpl.
        by intros ->%list_elem_of_singleton.
Qed.

Lemma wf_once_listener b n σ : wf σ → wf (once_listener b n σ).2.
Proof.
  intros Hwf. unfold once_listener.
  apply wf_on_listener; [by apply wf_set_next_fn|done].
Qed.

Lemma wf_once_handler b e n σ : wf σ → wf (once_handler b e n σ).2.
Proof.
  intros Hwf. unfold once_handler.
  apply wf_on_handler; [by apply wf_set_next_fn|done].
Qed.

(** Every state a program can reach is well formed. *)
Lemma step_wf σ σ' : step σ σ' → wf σ → wf σ'.
Proof.
  intros Hstep Hwf. destruct Hstep.
  - by apply wf_on_listener.
  - by apply wf_on_handler.
  - by apply wf_once_listener.
  - by apply wf_once_handler.
  - by apply wf_off_listener.
  - by apply wf_off_handler.
  - by apply wf_emit.
  - by apply wf_reset.
Qed.

(** X1: whatever sequence of [on], [once], [off], [emit] and [reset] a
    program performs, on whatever buses, the store stays well formed: the
    objects an entry refers to exist, no array and no Map is shared between
    two entries, the global array of an entry is none of its handler
    arrays, and a closure of [once] sits in the entry of the bus it was made
    on. *)
Theorem reachable_wf σ : reachable σ → wf σ.
Proof.
  unfold reachable. intros Hr.
  assert (wf empty_state) as H0 by apply wf_empty.
  induction Hr as [|σ1 σ2 σ3 Hstep _ IH]; [done|].
  apply IH. by eapply step_wf.
Qed.

(** ** Operations on one bus leave the other entries alone *)

Lemma frame_refl k σ : frame k σ σ.
Proof. intros k' _. done. Qed.

Lemma frame_owns_array k σ σ' k' a :
  frame k σ σ' → k' ≠ k → owns_array σ k' a → owns_array σ' k' a.
Proof.
  intros Hf Hne (r & Hr & Ha). destruct (Hf k' Hne) as (He & _ & Hm).
  exists r. split; [by rewrite He|].
  destruct Ha as [->|[e Hg]]; [by left|right]. exists e.
  unfold map_get in *. rewrite Hm; [done|]. by exists r.
Qed.

Lemma frame_owns_map k σ σ' k' m :
  frame k σ σ' → k' ≠ k → owns_map σ k' m → owns_map σ' k' m.
Proof.
  intros Hf Hne (r & Hr & ->). destruct (Hf k' Hne) as (He & _ & _).
  exists r. by rewrite He.
Qed.

Lemma frame_trans k σ1 σ2 σ3 : frame k σ1 σ2 → frame k σ2 σ3 → frame k σ1 σ3.
Proof.
  intros H12 H23 k' Hne.
  destruct (H12 k' Hne) as (He1 & Ha1 & Hm1).
  destruct (H23 k' Hne) as (He2 & Ha2 & Hm2).
  split_and!.
  - by rewrite He2.
  - intros a Ho. rewrite Ha2; [by apply Ha1|]. by eapply frame_owns_array.
  - intros m Ho. rewrite Hm2; [by apply Hm1|]. by eapply frame_owns_map.
Qed.

Lemma local_frame k σ σ' : wf σ → local k σ σ' → frame k σ σ'.
Proof.
  intros Hwf (He & Ha & Hm) k' Hne. split_and!.
  - by apply He.
  - intros a Ho. apply Ha; [by eapply owns_array_lt|].
    intros Hk. apply Hne. by eapply (wf_sep_arrays _ Hwf).
  - intros m Ho. apply Hm; [by eapply owns_map_lt|].
    intros Hk. apply Hne. by eapply (wf_sep_maps _ Hwf).
Qed.

Lemma local_log k n args σ σ' : local k σ σ' → local k σ (log n args σ').
Proof. done. Qed.

Lemma local_register_cleanup k s u σ σ' :
  local k σ σ' → local k σ (register_cleanup s u σ').
Proof. by destruct s. Qed.

Lemma local_set_next_fn k n σ σ' :
  local k (set_next_fn n σ) σ' → local k σ σ'.
Proof. done. Qed.

Lemma local_reset k σ : local k σ (reset k σ).
Proof.
  split_and!; [|done|done].
  intros k' Hne. simpl. by rewrite lookup_delete_ne.
Qed.

Lemma local_off_listener k f σ : local k σ (off_listener k f σ).
Proof.
  unfold off_listener.
  destruct (events σ !! k) as [r|] eqn:Hr; [|done].
  destruct (arrays σ !! listeners r) as [fs|] eqn:Hfs; [|done].
  assert (∀ a, ¬ owns_array σ k a → listeners r ≠ a) as Hne.
  { intros a Hno <-. apply Hno. by apply owns_array_self_listeners. }
  case_decide; (split_and!; [|intros a _ Ha; simpl|done]).
  - intros k' Hk. simpl. by rewrite lookup_delete_ne.
  - rewrite lookup_insert_ne; [done|by apply Hne].
  - done.
  - rewrite lookup_insert_ne; [done|by apply Hne].
Qed.

Lemma local_off_handler k e f σ : local k σ (off_handler k e f σ).
Proof.
  unfold off_handler.
  destruct (events σ !! k) as [r|] eqn:Hr; [|done].
  match goal with
  | |- local k σ (match maps ?s !! _ with _ => _ end) =>
      assert (local k σ s) as Hs; [|set (σ1 := s) in *]
  end.
  { destruct (map_get (handlerMap r) e σ) as [a|] eqn:Hg; [|done].
    destruct (arrays σ !! a) as [fs|] eqn:Hfs; [|done].
    assert (∀ a', ¬ owns_array σ k a' → a ≠ a') as Hne.
    { intros a' Hno <-. apply Hno. by eapply owns_array_self_handlers. }
    assert (∀ m, ¬ owns_map σ k m → handlerMap r ≠ m) as Hnm.
    { intros m Hno <-. apply Hno. by apply owns_map_self. }
    case_decide; (split_and!; [done|intros a' _ Ha; simpl|intros m _ Hm; simpl]).
    - rewrite lookup_insert_ne; [done|by apply Hne].
    - rewrite lookup_alter_ne; [done|by apply Hnm].
    - rewrite lookup_insert_ne; [done|by apply Hne].
    - done. }
  destruct (maps σ1 !! handlerMap r) as [hm|]; [|done].
  case_decide; [|done].
  destruct Hs as (He & Ha & Hm). split_and!; [|done|done].
  intros k' Hk. simpl. rewrite lookup_delete_ne by done. by apply He.
Qed.

Lemma local_on_listener b f σ : local (key b) σ (on_listener b f σ).2.
Proof.
  unfold on_listener, listenerRecord.
  destruct (events σ !! key b) as [r|] eqn:Hr; simpl;
    apply local_register_cleanup.
  - split_and!; simpl.
    + intros k' Hk. by rewrite lookup_insert_ne.
    + intros a _ Ha. rewrite lookup_alter_ne; [done|].
      intros <-. apply Ha. by apply owns_array_self_listeners.
    + done.
  - split_and!; simpl.
    + intros k' Hk. by rewrite lookup_insert_ne.
    + intros a Hlt _. rewrite lookup_alter_ne, lookup_insert_ne by lia. done.
    + intros m Hlt _. rewrite lookup_insert_ne by lia. done.
Qed.

Lemma local_on_handler b e f σ : local (key b) σ (on_handler b e f σ).2.
Proof.
  unfold on_handler, listenerRecord.
  destruct (events σ !! key b) as [r|] eqn:Hr.
  - assert (∀ m, ¬ owns_map σ (key b) m → handlerMap r ≠ m) as Hnm.
    { intros m Hno <-. apply Hno. by apply owns_map_self. }
    destruct (map_get (handlerMap r) (key b) σ) as [a|] eqn:Ha; simpl;
      apply local_register_cleanup; (split_and!; simpl).
    + intros k' Hk. by rewrite lookup_insert_ne.
    + intros a' _ Hno. rewrite lookup_alter_ne; [done|].
      intros <-. apply Hno. by eapply owns_array_self_handlers.
    + intros m _ Hno. rewrite lookup_alter_ne; [done|by apply Hnm].
    + intros k' Hk. by rewrite lookup_insert_ne.
    + intros a' Hlt _. rewrite lookup_alter_ne, lookup_insert_ne by lia. done.
    + intros m _ Hno. rewrite lookup_alter_ne; [done|by apply Hnm].
  - simpl. unfold map_get. simpl. rewrite lookup_insert_eq. simpl.
    rewrite lookup_empty. simpl.
    apply local_register_cleanup. split_and!; simpl.
    + intros k' Hk. by rewrite lookup_insert_ne.
    + intros a' Hlt _.
      rewrite lookup_alter_ne, !lookup_insert_ne by lia. done.
    + intros m Hlt _. rewrite lookup_alter_ne, lookup_insert_ne by lia. done.
Qed.

Lemma frame_call k f args σ : wf σ → fn_ok k f → frame k σ (call f args σ).
Proof.
  intros Hwf Hok. apply local_frame; [done|].
  unfold fn_ok in Hok.
  destruct f; simpl in *; [done| |]; subst; apply local_log.
  - apply local_off_listener.
  - apply local_off_handler.
Qed.

(** A [forEach] over an array that [k] owns stays inside the entry of [k]. *)
Lemma frame_forEach k a args σ :
  wf σ → owns_array σ k a →
  frame k σ (forEach a (λ v, call v args) σ).
Proof.
  intros Hwf Ho.
  apply (forEach_inv (λ σ', shrinks σ σ' ∧ frame k σ σ')).
  - intros f σ' [Hs Hf] Hin. split.
    + eapply shrinks_trans; [exact Hs|apply shrinks_call].
    + eapply frame_trans; [exact Hf|].
      apply frame_call; [by eapply wf_shrinks|].
      apply (wf_fn _ Hwf k a); [done|]. by eapply shrinks_content_elem.
  - split; [apply shrinks_refl|apply frame_refl].
Qed.

Lemma frame_emit k e p σ : wf σ → frame k σ (emit k e p σ).
Proof.
  intros Hwf. unfold emit.
  destruct (events σ !! k) as [r|] eqn:Hr; [|apply frame_refl].
  set (σ1 := match map_get (handlerMap r) e σ with
             | Some a => forEach a (λ v, call v [p]) σ
             | None => σ
             end).
  assert (shrinks σ σ1 ∧ frame k σ σ1) as [Hs Hf].
  { unfold σ1. destruct (map_get (handlerMap r) e σ) as [a|] eqn:Hg.
    - split; [apply shrinks_forEach|].
      apply frame_forEach; [done|]. by eapply owns_array_self_handlers.
    - split; [apply shrinks_refl|apply frame_refl]. }
  apply (forEach_inv (λ σ', shrinks σ σ' ∧ frame k σ σ')); [|done].
  intros f σ' [Hs' Hf'] Hin. split.
  - eapply shrinks_trans; [exact Hs'|apply shrinks_call].
  - eapply frame_trans; [exact Hf'|].
    apply frame_call; [by eapply wf_shrinks|].
    apply (wf_fn _ Hwf k (listeners r)); [by apply owns_array_self_listeners|].
    by eapply shrinks_content_elem.
Qed.

(** ** A function registered with [once] fires at most once *)

Lemma sublist_lookup_later {A} (l1 l2 : list A) j x :
  l1 `sublist_of` l2 → l1 !! j = Some x → ∃ j', j ≤ j' ∧ l2 !! j' = Some x.
Proof.
  intros Hsub. revert j.
  induction Hsub as [|y l1 l2 Hsub IH|y l1 l2 Hsub IH]; intros j Hj.
  - done.
  - destruct j as [|j]; simpl in Hj.
    + exists 0. split; [lia|done].
    + destruct (IH j Hj) as (j' & Hle & Hj'). exists (S j'). split; [lia|done].
  - destruct (IH j Hj) as (j' & Hle & Hj'). exists (S j'). split; [lia|done].
Qed.

Lemma sublist_snoc_last (fs0 l : list fn) x :
  l `sublist_of` fs0 ++ [x] → x ∉ fs0 → x ∈ l →
  ∃ l', l = l' ++ [x] ∧ x ∉ l'.
Proof.
  intros Hsub Hnin Hin.
  apply sublist_app_r in Hsub as (l1 & l2 & -> & H1 & H2).
  assert (x ∉ l1) as Hn1.
  { intros Hx. apply Hnin. by eapply elem_of_sublist. }
  inversion H2 as [|y l2' k2 H2' | y l2' k2 H2']; subst.
  - apply sublist_nil_r in H2' as ->. by exists l1.
  - apply sublist_nil_r in H2' as ->. rewrite app_nil_r in Hin. done.
Qed.

Lemma remove_first_snoc x l : x ∉ l → remove_first x (l ++ [x]) = l.
Proof.
  induction l as [|y l IH]; simpl; intros Hnin.
  - by rewrite decide_True.
  - apply not_elem_of_cons in Hnin as [Hne Hnin].
    rewrite decide_False by done. by rewrite IH.
Qed.

Lemma lookup_snoc_unique (l : list fn) x i :
  x ∉ l → (l ++ [x]) !! i = Some x → i = length l.
Proof.
  intros Hnin Hi.
  destruct (decide (i < length l)) as [Hlt|Hge].
  - rewrite lookup_app_l in Hi by done.
    destruct Hnin. by eapply list_elem_of_lookup_2.
  - rewrite lookup_app_r in Hi by lia.
    destruct (i - length l) as [|d] eqn:Hd; [lia|]. done.
Qed.

Lemma fired_app n t1 t2 : fired n (t1 ++ t2) = fired n t1 + fired n t2.
Proof. unfold fired. by rewrite filter_app, length_app. Qed.

Lemma fired_log n m args σ :
  fired n (trace (log m args σ))
  = fired n (trace σ) + (if decide (m = n) then 1 else 0).
Proof.
  simpl. rewrite fired_app. f_equal. unfold fired.
  rewrite filter_cons. simpl. by case_decide.
Qed.

Lemma trace_off_listener k f σ : trace (off_listener k f σ) = trace σ.
Proof.
  unfold off_listener. destruct (events σ !! k); [|done].
  destruct (arrays σ !! _); [|done]. by case_decide.
Qed.

Lemma off_handler_unfold k e f σ r :
  events σ !! k = Some r →
  off_handler k e f σ
  = match maps (remove_handler r e f σ) !! handlerMap r with
    | None => remove_handler r e f σ
    | Some hm =>
        if decide (size hm = 0)
        then set_events (delete k) (remove_handler r e f σ)
        else remove_handler r e f σ
    end.
Proof. intros Hr. unfold off_handler. by rewrite Hr. Qed.

Lemma trace_remove_handler r e f σ : trace (remove_handler r e f σ) = trace σ.
Proof.
  unfold remove_handler. destruct (map_get _ _ _); [|done].
  destruct (arrays σ !! _); [|done]. by case_decide.
Qed.

Lemma trace_off_handler k e f σ : trace (off_handler k e f σ) = trace σ.
Proof.
  destruct (events σ !! k) as [r|] eqn:Hr.
  - rewrite (off_handler_unfold _ _ _ _ _ Hr).
    destruct (maps _ !! _); [case_decide|]; simpl; apply trace_remove_handler.
  - unfold off_handler. by rewrite Hr.
Qed.

Lemma fired_call n f args σ :
  fired n (trace (call f args σ))
  = fired n (trace σ) + (if decide (target f = n) then 1 else 0).
Proof.
  destruct f; simpl call; rewrite fired_log; simpl target.
  - done.
  - by rewrite trace_off_listener.
  - by rewrite trace_off_handler.
Qed.

(** The parts of the store [off(event, handler)] leaves to its second half. *)
Lemma off_handler_arrays k e f σ r :
  events σ !! k = Some r →
  arrays (off_handler k e f σ) = arrays (remove_handler r e f σ).
Proof.
  intros Hr. rewrite (off_handler_unfold _ _ _ _ _ Hr).
  destruct (maps _ !! _); [case_decide|]; done.
Qed.

Lemma off_handler_maps k e f σ r :
  events σ !! k = Some r →
  maps (off_handler k e f σ) = maps (remove_handler r e f σ).
Proof.
  intros Hr. rewrite (off_handler_unfold _ _ _ _ _ Hr).
  destruct (maps _ !! _); [case_decide|]; done.
Qed.

(** A binding of a handler map survives a removal as long as the sequence
    it points to is not empty afterwards. *)
Lemma map_get_remove_handler r e f m e0 A σ :
  map_get m e0 σ = Some A →
  content A (remove_handler r e f σ) ≠ [] →
  map_get m e0 (remove_handler r e f σ) = Some A.
Proof.
  intros Hg Hne. unfold remove_handler in *.
  destruct (map_get (handlerMap r) e σ) as [a|] eqn:Ha; [|done].
  destruct (arrays σ !! a) as [fs|] eqn:Hfs; [|done].
  case_decide as Hlen; [|done].
  unfold map_get, map_delete in *. simpl in *.
  destruct (decide (handlerMap r = m)) as [<-|Hm].
  - rewrite lookup_alter_eq.
    destruct (maps σ !! handlerMap r) as [hm|]; simpl in *; [|done].
    destruct (decide (e = e0)) as [<-|He].
    + assert (a = A) as -> by congruence.
      exfalso. apply Hne. unfold content. simpl.
      rewrite lookup_insert_eq. simpl. by apply nil_length_inv.
    + by rewrite lookup_delete_ne.
  - by rewrite lookup_alter_ne.
Qed.

Lemma map_get_off_handler k e f m e0 A σ :
  map_get m e0 σ = Some A →
  content A (off_handler k e f σ) ≠ [] →
  map_get m e0 (off_handler k e f σ) = Some A.
Proof.
  intros Hg Hne.
  destruct (events σ !! k) as [r|] eqn:Hr.
  - unfold map_get, content in *.
    rewrite (off_handler_maps _ _ _ _ _ Hr).
    rewrite (off_handler_arrays _ _ _ _ _ Hr) in Hne.
    by apply map_get_remove_handler.
  - unfold off_handler in *. by rewrite Hr in *.
Qed.

Lemma maps_off_listener k f σ : maps (off_listener k f σ) = maps σ.
Proof.
  unfold off_listener. destruct (events σ !! k); [|done].
  destruct (arrays σ !! _); [|done]. by case_decide.
Qed.

Lemma linked_call once_fn r A f args σ :
  linked once_fn r A σ →
  once_fn ∈ content A (call f args σ) →
  linked once_fn r A (call f args σ).
Proof.
  intros Hl Hin. destruct once_fn as [|uid k0 n0|uid k0 e0 n0]; simpl in *;
    [done|done|].
  assert (content A (call f args σ) ≠ []) as Hne.
  { intros Heq. rewrite Heq in Hin. by apply elem_of_nil in Hin. }
  destruct f as [m|u k l|u k e h]; simpl in *.
  - done.
  - unfold map_get in *. simpl. by rewrite maps_off_listener.
  - by apply map_get_off_handler.
Qed.

Lemma lookup_content a i σ :
  arrays σ !! a ≫= (λ fs, fs !! i) = content a σ !! i.
Proof. unfold content. by destruct (arrays σ !! a). Qed.

Lemma content_nonempty_lookup a σ f :
  f ∈ content a σ → arrays σ !! a = Some (content a σ).
Proof.
  unfold content. destruct (arrays σ !! a); simpl; [done|].
  by intros ?%elem_of_nil.
Qed.

Lemma forEach_from_ind (P : nat → state → Prop) a cb :
  (∀ i σ, P i σ → content a σ !! i = None → P (S i) σ) →
  (∀ i σ f, P i σ → content a σ !! i = Some f → P (S i) (cb f σ)) →
  ∀ n i σ, P i σ → P (i + n) (forEach_from a cb i n σ).
Proof.
  intros Hnone Hsome. induction n as [|n IH]; intros i σ HP; simpl.
  - by rewrite Nat.add_0_r.
  - replace (i + S n) with (S i + n) by lia. apply IH.
    rewrite lookup_content.
    destruct (content a σ !! i) as [f|] eqn:Hf; [by apply Hsome|by apply Hnone].
Qed.

Section once_fires_once.
Context (once_fn : fn) (k : value) (r : Listeners) (A : loc) (σ1 : state).
Hypothesis Harmed : armed once_fn k r A σ1.

#[local] Abbreviation inv := (once_inv once_fn k r A σ1).
#[local] Abbreviation count σ := (fired (target once_fn) (trace σ)).

Lemma once_inv_start : inv σ1.
Proof.
  constructor; [apply shrinks_refl|lia|lia| |lia].
  intros _ _. apply (ar_linked _ _ _ _ _ Harmed).
Qed.

Lemma once_fn_last σ :
  shrinks σ1 σ → once_fn ∈ content A σ →
  ∃ l, content A σ = l ++ [once_fn] ∧ once_fn ∉ l.
Proof.
  intros Hs Hin.
  destruct (ar_last _ _ _ _ _ Harmed) as (fs0 & Heq & Hnin).
  apply (sublist_snoc_last fs0); [|done|done].
  rewrite <- Heq. by apply shrinks_content.
Qed.

Lemma once_fn_only σ k' a f :
  shrinks σ1 σ → owns_array σ1 k' a → f ∈ content a σ →
  target f = target once_fn →
  f = once_fn ∧ a = A.
Proof.
  intros Hs Ho Hin Ht. apply (ar_only _ _ _ _ _ Harmed k'); [done| |done].
  by eapply shrinks_content_elem.
Qed.

Lemma events_none_shrinks σ σ' k' :
  shrinks σ σ' → events σ !! k' = None → events σ' !! k' = None.
Proof.
  intros Hs Hn. destruct (events σ' !! k') as [r'|] eqn:Hr; [|done].
  apply (shrinks_events _ _ _ _ Hs) in Hr. congruence.
Qed.

Lemma spent_shrinks σ σ' :
  shrinks σ σ' →
  once_fn ∉ content A σ ∨ events σ !! k = None →
  once_fn ∉ content A σ' ∨ events σ' !! k = None.
Proof.
  intros Hs [Hn|Hn]; [left|right].
  - intros Hin. apply Hn. by eapply shrinks_content_elem.
  - by eapply events_none_shrinks.
Qed.

Lemma once_inv_call_other σ f args :
  inv σ → target f ≠ target once_fn → inv (call f args σ).
Proof.
  intros [Hs Hlo Hup Hli Hsp] Hne.
  pose proof (shrinks_call f args σ) as Hsc.
  assert (count (call f args σ) = count σ) as Hcount.
  { rewrite fired_call. rewrite decide_False by done. lia. }
  constructor.
  - by eapply shrinks_trans.
  - lia.
  - lia.
  - intros Hin Hev. apply linked_call; [|done]. apply Hli.
    + by eapply shrinks_content_elem.
    + by eapply shrinks_events.
  - intros Hf. eapply spent_shrinks; [exact Hsc|]. apply Hsp. lia.
Qed.

(** Called while it is still in its sequence, the closure takes itself
    out, unless the entry is gone. *)
Lemma once_fn_removes_itself σ args :
  inv σ → once_fn ∈ content A σ →
  once_fn ∉ content A (call once_fn args σ)
  ∨ events (call once_fn args σ) !! k = None.
Proof.
  intros [Hs Hlo Hup Hli Hsp] Hin.
  destruct (once_fn_last σ Hs Hin) as (l & Hl & Hnin).
  pose proof (content_nonempty_lookup _ _ _ Hin) as HA. rewrite Hl in HA.
  pose proof (ar_key _ _ _ _ _ Harmed) as Hkey.
  destruct (events σ !! k) as [r'|] eqn:Hr.
  2:{ right. eapply events_none_shrinks; [apply shrinks_call|done]. }
  assert (r' = r) as ->.
  { apply (shrinks_events _ _ _ _ Hs) in Hr.
    rewrite (ar_entry _ _ _ _ _ Harmed) in Hr. congruence. }
  specialize (Hli Hin eq_refl). left.
  destruct once_fn as [m|uid k0 n0|uid k0 e0 n0] eqn:Hfn; simpl in *;
    [done| |]; injection Hkey as ->.
  - subst A. unfold content, off_listener. simpl. rewrite Hr, HA.
    rewrite remove_first_snoc by done.
    case_decide; simpl; rewrite lookup_insert_eq; done.
  - unfold content. simpl. rewrite (off_handler_arrays _ _ _ _ _ Hr).
    unfold remove_handler. rewrite Hli, HA.
    rewrite remove_first_snoc by done.
    case_decide; simpl; rewrite lookup_insert_eq; done.
Qed.

Lemma once_inv_call_self σ args :
  inv σ → once_fn ∈ content A σ → count σ = count σ1 →
  inv (call once_fn args σ).
Proof.
  intros Hinv Hin Hc.
  pose proof (once_fn_removes_itself σ args Hinv Hin) as Hgone.
  destruct Hinv as [Hs Hlo Hup Hli Hsp].
  assert (count (call once_fn args σ) = S (count σ)) as Hcount.
  { rewrite fired_call. rewrite decide_True by done. lia. }
  constructor.
  - eapply shrinks_trans; [exact Hs|apply shrinks_call].
  - lia.
  - lia.
  - intros Hin' Hev. destruct Hgone as [Hg|Hg]; [done|congruence].
  - done.
Qed.

(** One [forEach] of an emission.  If the target has fired before the
    loop starts, the closure is not in the array the loop runs over. *)
Lemma once_inv_forEach k' a args σ :
  inv σ →
  owns_array σ1 k' a →
  (count σ = S (count σ1) → once_fn ∉ content a σ) →
  inv (forEach a (λ v, call v args) σ)
  ∧ (a ≠ A → count (forEach a (λ v, call v args) σ) = count σ).
Proof.
  intros Hinv Hown Hstart. unfold forEach.
  destruct (arrays σ !! a) as [fs|] eqn:Hfs; [|done].
  set (P := λ (i : nat) (σ' : state),
    once_inv once_fn k r A σ1 σ'
    ∧ (count σ' = S (count σ1) →
         ∀ j, i ≤ j → content a σ' !! j ≠ Some once_fn)
    ∧ (a ≠ A → count σ' = count σ)).
  assert (P (0 + length fs) (forEach_from a (λ v, call v args) 0 (length fs) σ))
    as (H1 & _ & H3); [|done].
  apply forEach_from_ind.
  - intros i σ' (Hi & Hq & Hc) _. split_and!; [done| |done].
    intros Hf j Hj. apply Hq; [done|lia].
  - intros i σ' f (Hi & Hq & Hc) Hf.
    assert (f ∈ content a σ') as Hfin by (by eapply list_elem_of_lookup_2).
    pose proof (shrinks_call f args σ') as Hsc.
    destruct (decide (target f = target once_fn)) as [Heq|Hne].
    + destruct (once_fn_only σ' k' a f (oi_shrinks _ _ _ _ _ _ Hi) Hown
                  Hfin Heq) as [-> ->].
      assert (count σ' = count σ1) as Hzero.
      { destruct (decide (count σ' = S (count σ1))) as [Hsp|Hnsp].
        - destruct (Hq Hsp i); [lia|done].
        - pose proof (oi_lower _ _ _ _ _ _ Hi).
          pose proof (oi_upper _ _ _ _ _ _ Hi). lia. }
      split_and!; [by apply once_inv_call_self| |done].
      intros _ j Hj Hlook.
      destruct (sublist_lookup_later _ _ j once_fn
                  (shrinks_content _ _ A Hsc) Hlook) as (j' & Hle & Hj').
      destruct (once_fn_last σ' (oi_shrinks _ _ _ _ _ _ Hi) Hfin)
        as (l & Hl & Hnin).
      rewrite Hl in Hf, Hj'.
      apply lookup_snoc_unique in Hf; [|done].
      apply lookup_snoc_unique in Hj'; [|done]. lia.
    + assert (count (call f args σ') = count σ') as Hcount.
      { rewrite fired_call. rewrite decide_False by done. lia. }
      split_and!; [by apply once_inv_call_other| |].
      * intros Hsp j Hj Hlook.
        destruct (sublist_lookup_later _ _ j once_fn
                    (shrinks_content _ _ a Hsc) Hlook) as (j' & Hle & Hj').
        apply (Hq ltac:(lia) j'); [lia|done].
      * intros Ha. rewrite Hcount. by apply Hc.
  - split_and!; [done| |done].
    intros Hsp j _ Hlook. apply (Hstart Hsp).
    by eapply list_elem_of_lookup_2.
Qed.

(** Once the target has fired, the closure is in no array that an
    emission can still reach. *)
Lemma spent_unreachable σ k' a :
  inv σ → count σ = S (count σ1) → owns_array σ k' a →
  once_fn ∉ content a σ.
Proof.
  intros Hinv Hsp Ho Hin.
  pose proof (oi_shrinks _ _ _ _ _ _ Hinv) as Hs.
  assert (a = A) as ->.
  { assert (owns_array σ1 k' a) as Ho1 by (by eapply shrinks_owns_array).
    by destruct (once_fn_only σ k' a once_fn Hs Ho1 Hin eq_refl). }
  destruct (oi_spent _ _ _ _ _ _ Hinv Hsp) as [Hn|Hn]; [done|].
  assert (k' = k) as ->.
  { apply (wf_sep_arrays _ (ar_wf _ _ _ _ _ Harmed) k' k A).
    - by eapply shrinks_owns_array.
    - apply (ar_owns _ _ _ _ _ Harmed). }
  destruct Ho as (r' & Hr' & _). congruence.
Qed.

Lemma once_inv_emit k' e p σ : inv σ → inv (emit k' e p σ).
Proof.
  intros Hinv. unfold emit.
  destruct (events σ !! k') as [r'|] eqn:Hr'; [|done].
  assert (wf σ) as Hwf.
  { eapply wf_shrinks; [apply (ar_wf _ _ _ _ _ Harmed)|].
    apply (oi_shrinks _ _ _ _ _ _ Hinv). }
  set (σm := match map_get (handlerMap r') e σ with
             | Some a => forEach a (λ v, call v [p]) σ
             | None => σ
             end).
  assert (inv σm ∧ shrinks σ σm
          ∧ (count σm ≠ count σ → map_get (handlerMap r') e σ = Some A))
    as (Hm & Hsm & Hchg).
  { unfold σm. destruct (map_get (handlerMap r') e σ) as [a|] eqn:Hg.
    - assert (owns_array σ k' a) as Ho
        by (by eapply owns_array_self_handlers).
      destruct (once_inv_forEach k' a [p] σ Hinv) as [H1 H2].
      { eapply shrinks_owns_array; [|exact Ho].
        apply (oi_shrinks _ _ _ _ _ _ Hinv). }
      { intros Hsp. by apply (spent_unreachable σ k'). }
      split_and!; [done|apply shrinks_forEach|].
      intros Hc. destruct (decide (a = A)) as [->|Hne]; [done|].
      destruct Hc. by apply H2.
    - split_and!; [done|apply shrinks_refl|done]. }
  assert (owns_array σ1 k' (listeners r')) as Ho1.
  { eapply shrinks_owns_array; [apply (oi_shrinks _ _ _ _ _ _ Hinv)|].
    by apply owns_array_self_listeners. }
  apply (once_inv_forEach k'); [done|done|].
  intros Hsp Hin.
  pose proof (oi_shrinks _ _ _ _ _ _ Hm) as Hs.
  destruct (once_fn_only σm k' _ once_fn Hs Ho1 Hin eq_refl) as [_ HA].
  destruct (decide (count σm = count σ)) as [Heq|Hne].
  - apply (spent_unreachable σ k' (listeners r')); [done|lia| |].
    + by apply owns_array_self_listeners.
    + by eapply shrinks_content_elem.
  - specialize (Hchg Hne).
    destruct (wf_handlers _ Hwf _ _ _ _ Hr' Hchg) as (_ & _ & Hdiff).
    congruence.
Qed.

Lemma once_inv_emits es σ : inv σ → inv (emits es σ).
Proof.
  revert σ. induction es as [|x es IH]; intros σ Hinv; simpl; [done|].
  apply IH. by apply once_inv_emit.
Qed.

Lemma armed_fires_at_most_once es :
  fired (target once_fn) (trace (emits es σ1))
  ≤ S (fired (target once_fn) (trace σ1)).
Proof. apply (oi_upper _ _ _ _ _ _ (once_inv_emits es σ1 once_inv_start)). Qed.

End once_fires_once.

(** ** The state [once] leaves behind *)

Lemma wf_register_cleanup_inv s u σ : wf (register_cleanup s u σ) → wf σ.
Proof. intros [? ? ? ? ? ?]. destruct s; constructor; done. Qed.

Lemma armed_register_cleanup once_fn k r A s u σ :
  armed once_fn k r A σ → armed once_fn k r A (register_cleanup s u σ).
Proof.
  intros [Hwf ? ? ? ? ? Hl]. constructor; try done.
  - by apply wf_register_cleanup.
  - destruct s; done.
  - destruct s; done.
  - destruct s; done.
  - destruct s; done.
  - destruct once_fn; destruct s; done.
Qed.

Lemma content_new_array_elem a f σ :
  f ∈ content a (new_array σ).2 → a ≠ next_loc σ ∧ f ∈ content a σ.
Proof.
  unfold content, new_array. simpl.
  destruct (decide (next_loc σ = a)) as [<-|Hne].
  - rewrite lookup_insert_eq. simpl. by intros ?%elem_of_nil.
  - rewrite lookup_insert_ne by done. done.
Qed.

Lemma unregistered_once_fn_notin n σ k a f :
  unregistered n σ → owns_array σ k a → target f = n → f ∉ content a σ.
Proof. intros Hun Ho Ht Hin. by apply (Hun k a f). Qed.

Lemma armed_once_listener b n σ :
  wf σ → unregistered n σ →
  ∃ r A, armed (OnceListener (next_fn σ) (key b) n) (key b) r A
               (once_listener b n σ).2.
Proof.
  intros Hwf Hun. pose proof (wf_once_listener b n σ Hwf) as Hwf1.
  revert Hwf1. unfold once_listener, on_listener, listenerRecord. simpl.
  set (once_fn := OnceListener (next_fn σ) (key b) n).
  set (σ0 := set_next_fn (S (next_fn σ)) σ).
  destruct (events σ !! key b) as [r|] eqn:Hr; simpl;
    intros Hwf1%wf_register_cleanup_inv.
  - exists r, (listeners r). apply armed_register_cleanup.
    rewrite set_events_insert_id in * by done.
    pose proof (owns_array_self_listeners σ _ _ Hr) as Hown.
    destruct (wf_listeners _ Hwf _ _ Hr) as [_ Hal].
    constructor; try done.
    + intros k' a f Ho [Hin|[-> ->]]%content_push_elem Ht; [|done].
      destruct (Hun k' a f Ho Hin Ht).
    + exists (content (listeners r) σ). split.
      * by rewrite content_push_eq.
      * by eapply unregistered_once_fn_notin.
  - set (l := next_loc σ) in *.
    exists (MkListeners l (S l)), l. apply armed_register_cleanup.
    constructor; try done.
    + intros k' a f Ho Hin Ht.
      apply owns_array_insert_entry in Ho as [[Hne Ho]|[-> Ho]].
      * apply owns_array_push, owns_array_new_map in Ho.
        apply content_push_elem in Hin as [Hin|[-> ->]]; [|done].
        apply content_new_array_elem in Hin as [_ Hin].
        destruct (Hun k' a f Ho Hin Ht).
      * destruct Ho as [->|[e He]].
        -- apply content_push_elem in Hin as [Hin|[_ ->]]; [|done].
           by apply content_new_array_elem in Hin as [? _].
        -- unfold map_get in He. simpl in He.
           rewrite lookup_insert_eq in He. simpl in He.
           by rewrite lookup_empty in He.
    + exists []. split; [|by intros ?%elem_of_nil].
      unfold content. simpl. by rewrite lookup_alter_eq, lookup_insert_eq.
    + simpl. by rewrite lookup_insert_eq.
    + eexists. split; [simpl; by rewrite lookup_insert_eq|]. by left.
Qed.

Lemma armed_once_handler b e n σ :
  wf σ → unregistered n σ →
  ∃ r A, armed (OnceHandler (next_fn σ) (key b) e n) (key b) r A
               (once_handler b e n σ).2.
Proof.
  intros Hwf Hun. pose proof (wf_once_handler b e n σ Hwf) as Hwf1.
  revert Hwf1. unfold once_handler, on_handler, listenerRecord. simpl.
  set (once_fn := OnceHandler (next_fn σ) (key b) e n).
  set (σ0 := set_next_fn (S (next_fn σ)) σ).
  destruct (events σ !! key b) as [r|] eqn:Hr.
  - destruct (wf_handlerMap _ Hwf _ _ Hr) as [_ Hmal].
    change (map_get (handlerMap r) (key b) σ0)
      with (map_get (handlerMap r) (key b) σ).
    destruct (map_get (handlerMap r) (key b) σ) as [a|] eqn:Ha; simpl;
      intros Hwf1%wf_register_cleanup_inv.
    + (* the closure joins the sequence found under the bus identifier *)
      exists r, a. apply armed_register_cleanup.
      rewrite set_events_insert_id in * by done.
      pose proof (owns_array_self_handlers σ _ _ _ _ Hr Ha) as Hown.
      destruct (wf_handlers _ Hwf _ _ _ _ Hr Ha) as (_ & Hal & _).
      assert (map_get (handlerMap r) e
                (map_set (handlerMap r) e a (push a once_fn σ0)) = Some a) as Hg.
      { by apply map_get_map_set_eq. }
      constructor; try done.
      * intros k' a' f Ho Hin Ht.
        apply content_push_elem in Hin as [Hin|[-> ->]]; [|done].
        apply owns_array_map_set in Ho as [Ho|[-> Ho]].
        -- destruct (Hun k' a' f Ho Hin Ht).
        -- destruct (Hun (key b) a f Hown Hin Ht).
      * exists (content a σ). split.
        -- change (content a (push a once_fn σ0) = content a σ0 ++ [once_fn]).
           by rewrite content_push_eq.
        -- by eapply unregistered_once_fn_notin.
      * by eapply owns_array_self_handlers.
    + (* the closure is alone in a new array *)
      set (a := next_loc σ) in *.
      exists r, a. apply armed_register_cleanup.
      rewrite set_events_insert_id in * by done.
      assert (map_get (handlerMap r) e
                (map_set (handlerMap r) e a (push a once_fn (new_array σ0).2))
              = Some a) as Hg.
      { by apply map_get_map_set_eq. }
      constructor; try done.
      * intros k' a' f Ho Hin Ht.
        apply content_push_elem in Hin as [Hin|[-> ->]]; [|done].
        apply (content_new_array_elem a' f σ0) in Hin as [Hne Hin].
        apply owns_array_map_set in Ho as [Ho|[-> Ho]]; [|done].
        destruct (Hun k' a' f Ho Hin Ht).
      * exists []. split; [|by intros ?%elem_of_nil].
        unfold content. simpl. by rewrite lookup_alter_eq, lookup_insert_eq.
      * by eapply owns_array_self_handlers.
  - (* a new entry *)
    simpl. unfold map_get at 1 2. simpl. rewrite lookup_insert_eq. simpl.
    rewrite lookup_empty. simpl.
    intros Hwf1%wf_register_cleanup_inv.
    set (l := next_loc σ) in *.
    exists (MkListeners l (S l)), (S (S l)). apply armed_register_cleanup.
    match goal with
    | |- armed _ _ _ _ (set_events _ ?s) =>
        assert (map_get (S l) e s = Some (S (S l))) as Hg
    end.
    { apply map_get_map_set_eq. simpl. rewrite lookup_insert_eq. eauto. }
    constructor; try done.
    + intros k' a' f Ho Hin Ht.
      apply content_push_elem in Hin as [Hin|[-> ->]]; [|done].
      apply content_new_array_elem in Hin as [Hne Hin].
      apply content_new_array_elem in Hin as [Hne' Hin].
      apply owns_array_insert_entry in Ho as [[Hk Ho]|[-> Ho]].
      * apply owns_array_map_set in Ho as [Ho|[-> Ho]]; [|done].
        apply (owns_array_new_map (new_array σ0).2) in Ho.
        destruct (Hun k' a' f Ho Hin Ht).
      * destruct Ho as [->|[e' He']]; [done|].
        apply map_get_map_set in He' as [He'|(_ & _ & ->)]; [|done].
        unfold map_get in He'. simpl in He'.
        rewrite lookup_insert_eq in He'. simpl in He'.
        by rewrite lookup_empty in He'.
    + exists []. split; [|by intros ?%elem_of_nil].
      unfold content. simpl. by rewrite lookup_alter_eq, lookup_insert_eq.
    + simpl. by rewrite lookup_insert_eq.
    + eexists. split; [simpl; by rewrite lookup_insert_eq|].
      right. exists e. exact Hg.
Qed.

(** ** [once] on a bus that has no entry *)

Lemma emit_absent k e p σ : events σ !! k = None → emit k e p σ = σ.
Proof. intros Hr. unfold emit. by rewrite Hr. Qed.

Lemma remove_first_hd f fs : remove_first f (f :: fs) = fs.
Proof. simpl. by rewrite decide_True. Qed.

Lemma emit_lone_once_listener σ k r uid n e p :
  events σ !! k = Some r →
  map_get (handlerMap r) e σ = None →
  arrays σ !! listeners r = Some [OnceListener uid k n] →
  events (emit k e p σ) !! k = None
  ∧ trace (emit k e p σ) = trace σ ++ [(n, [e; p])].
Proof.
  intros Hr Hg Ha.
  assert (emit k e p σ
          = log n [e; p]
              (set_events (delete k) (set_arrays <[listeners r := []]> σ)))
    as ->.
  { unfold emit. rewrite Hr, Hg.
    unfold forEach. rewrite Ha. simpl. rewrite Ha. simpl.
    unfold off_listener. rewrite Hr, Ha, remove_first_hd. done. }
  split; [apply lookup_delete_eq|done].
Qed.

Lemma emit_lone_once_handler σ k r a uid n e p :
  events σ !! k = Some r →
  maps σ !! handlerMap r = Some (<[e := a]> ∅) →
  arrays σ !! a = Some [OnceHandler uid k e n] →
  arrays σ !! listeners r = Some [] →
  a ≠ listeners r →
  events (emit k e p σ) !! k = None
  ∧ trace (emit k e p σ) = trace σ ++ [(n, [p])].
Proof.
  intros Hr Hm Ha Hl Hne.
  assert (map_get (handlerMap r) e σ = Some a) as Hg.
  { unfold map_get. rewrite Hm. simpl. apply lookup_insert_eq. }
  set (σ' := log n [p]
               (set_events (delete k)
                  (map_delete (handlerMap r) e (set_arrays <[a := []]> σ)))).
  assert (forEach a (λ v, call v [p]) σ = σ') as Hfirst.
  { unfold forEach. rewrite Ha. simpl. rewrite Ha. simpl.
    unfold off_handler. rewrite Hr, Hg, Ha, remove_first_hd. simpl.
    rewrite lookup_alter_eq, Hm. simpl.
    rewrite delete_insert_eq, delete_empty, map_size_empty. done. }
  assert (emit k e p σ = σ') as ->.
  { unfold emit. rewrite Hr, Hg, Hfirst.
    unfold forEach. simpl. rewrite lookup_insert_ne by done. by rewrite Hl. }
  split; [apply lookup_delete_eq|done].
Qed.

Lemma once_listener_unused_bus b n σ e1 p1 e2 p2 :
  events σ !! key b = None →
  trace (emits [(key b, e1, p1); (key b, e2, p2)] (once_listener b n σ).2)
  = trace σ ++ [(n, [e1; p1])].
Proof.
  intros Hr. simpl.
  destruct (emit_lone_once_listener (once_listener b n σ).2 (key b)
              (MkListeners (next_loc σ) (S (next_loc σ)))
              (next_fn σ) n e1 p1) as [Hgone Htrace].
  - unfold once_listener, on_listener, listenerRecord. simpl. rewrite Hr.
    destruct (scope b); simpl; apply lookup_insert_eq.
  - unfold once_listener, on_listener, listenerRecord, map_get. simpl.
    rewrite Hr. destruct (scope b); simpl;
      by rewrite lookup_insert_eq; simpl; rewrite lookup_empty.
  - unfold once_listener, on_listener, listenerRecord. simpl. rewrite Hr.
    destruct (scope b); simpl; by rewrite lookup_alter_eq, lookup_insert_eq.
  - rewrite emit_absent by done. rewrite Htrace.
    unfold once_listener, on_listener, listenerRecord. simpl. rewrite Hr.
    by destruct (scope b).
Qed.

Lemma once_handler_unused_bus b n σ e p1 p2 :
  events σ !! key b = None →
  trace (emits [(key b, e, p1); (key b, e, p2)] (once_handler b e n σ).2)
  = trace σ ++ [(n, [p1])].
Proof.
  intros Hr. simpl.
  assert (once_handler b e n σ
          = on_handler b e (OnceHandler (next_fn σ) (key b) e n)
              (set_next_fn (S (next_fn σ)) σ)) as Hdef by done.
  destruct (emit_lone_once_handler (once_handler b e n σ).2 (key b)
              (MkListeners (next_loc σ) (S (next_loc σ)))
              (S (S (next_loc σ))) (next_fn σ) n e p1) as [Hgone Htrace].
  - unfold once_handler, on_handler, listenerRecord. simpl. rewrite Hr. simpl.
    unfold map_get. simpl. rewrite lookup_insert_eq. simpl.
    rewrite lookup_empty. simpl.
    destruct (scope b); simpl; apply lookup_insert_eq.
  - unfold once_handler, on_handler, listenerRecord. simpl. rewrite Hr. simpl.
    unfold map_get. simpl. rewrite lookup_insert_eq. simpl.
    rewrite lookup_empty. simpl.
    destruct (scope b); simpl; by rewrite lookup_alter_eq, lookup_insert_eq.
  - unfold once_handler, on_handler, listenerRecord. simpl. rewrite Hr. simpl.
    unfold map_get. simpl. rewrite lookup_insert_eq. simpl.
    rewrite lookup_empty. simpl.
    destruct (scope b); simpl; by rewrite lookup_alter_eq, lookup_insert_eq.
  - unfold once_handler, on_handler, listenerRecord. simpl. rewrite Hr. simpl.
    unfold map_get. simpl. rewrite lookup_insert_eq. simpl.
    rewrite lookup_empty. simpl.
    destruct (scope b); simpl;
      rewrite lookup_alter_ne by lia;
      rewrite lookup_insert_ne by lia;
      by rewrite lookup_insert_eq.
  - simpl. lia.
  - rewrite emit_absent by done. rewrite Htrace.
    unfold once_handler, on_handler, listenerRecord. simpl. rewrite Hr. simpl.
    unfold map_get. simpl. rewrite lookup_insert_eq. simpl.
    rewrite lookup_empty. simpl.
    by destruct (scope b).
Qed.

(** ** On a bus of plain functions, [once] fires on the first emission *)

Lemma forEach_from_split a cb n1 n2 :
  ∀ k σ, forEach_from a cb k (n1 + n2) σ
         = forEach_from a cb (k + n1) n2 (forEach_from a cb k n1 σ).
Proof.
  induction n1 as [|n1 IH]; intros k σ; simpl.
  - by rewrite Nat.add_0_r.
  - rewrite IH. by replace (S k + n1) with (k + S n1) by lia.
Qed.

Lemma forEach_from_plain_prefix a args fs rest n :
  ∀ k σ,
    arrays σ !! a = Some (fs ++ rest) →
    Forall plain fs →
    k + n = length fs →
    forEach_from a (λ v, call v args) k n σ
    = add_trace (calls args (drop k fs)) σ.
Proof.
  induction n as [|n IH]; intros k σ Ha Hpl Hlen; simpl.
  - rewrite drop_ge by lia. by rewrite add_trace_nil.
  - rewrite Ha. simpl.
    destruct (lookup_lt_is_Some_2 fs k) as [f Hf]; [lia|].
    rewrite lookup_app_l by lia. rewrite Hf.
    assert (plain f) as Hp.
    { eapply Forall_forall; [exact Hpl|]. eapply list_elem_of_lookup_2, Hf. }
    rewrite (call_plain _ _ _ Hp).
    rewrite (IH (S k)); [|done|done|lia].
    rewrite add_trace_app.
    by rewrite (drop_S _ _ _ Hf).
Qed.

(** A [forEach] over plain functions followed by one more function. *)
Lemma forEach_plain_then a args fs f σ :
  arrays σ !! a = Some (fs ++ [f]) →
  Forall plain fs →
  forEach a (λ v, call v args) σ
  = call f args (add_trace (calls args fs) σ).
Proof.
  intros Ha Hpl. unfold forEach. rewrite Ha, length_app. simpl.
  rewrite forEach_from_split.
  rewrite (forEach_from_plain_prefix a args fs [f] (length fs) 0 σ Ha Hpl)
    by done.
  simpl. rewrite Ha. simpl.
  by rewrite list_lookup_middle.
Qed.

Lemma fired_add_trace n t σ :
  fired n (trace σ) ≤ fired n (trace (add_trace t σ)).
Proof. apply fired_prefix. by apply prefix_app_r. Qed.

Lemma fired_shrinks n σ σ' :
  shrinks σ σ' → fired n (trace σ) ≤ fired n (trace σ').
Proof. intros Hs. apply fired_prefix, (sh_trace _ _ Hs). Qed.

Section armed_fires.
Context (once_fn : fn) (k : value) (r : Listeners) (A : loc) (σ1 : state).
Hypothesis Harmed : armed once_fn k r A σ1.
Hypothesis Hothers : ∀ a g,
  owns_array σ1 k a → g ∈ content a σ1 → g = once_fn ∨ plain g.

Lemma armed_sequence :
  ∃ fs0, arrays σ1 !! A = Some (fs0 ++ [once_fn]) ∧ Forall plain fs0.
Proof.
  destruct (ar_last _ _ _ _ _ Harmed) as (fs0 & Hc & Hnin).
  exists fs0. split.
  - rewrite <- Hc. apply (content_nonempty_lookup _ _ once_fn).
    rewrite Hc. apply elem_of_app. right. by apply list_elem_of_singleton.
  - apply Forall_forall. intros g Hg.
    destruct (Hothers A g (ar_owns _ _ _ _ _ Harmed)) as [->|Hp]; [|done|done].
    rewrite Hc. apply elem_of_app. by left.
Qed.

Lemma armed_other_sequences a :
  owns_array σ1 k a → a ≠ A → Forall plain (content a σ1).
Proof.
  intros Ho Hne. apply Forall_forall. intros g Hg.
  destruct (Hothers a g Ho Hg) as [->|Hp]; [|done].
  by destruct (ar_only _ _ _ _ _ Harmed k a once_fn Ho Hg eq_refl).
Qed.

Lemma target_called_last f args σ :
  (target f, args) ∈ trace (call f args σ).
Proof.
  destruct f; simpl; apply elem_of_app; right; by apply list_elem_of_singleton.
Qed.

(** An emission on the bus calls a closure of [once(listener)]. *)
Lemma armed_listener_fires e p :
  listeners r = A →
  S (fired (target once_fn) (trace σ1))
  ≤ fired (target once_fn) (trace (emit k e p σ1))
  ∧ (target once_fn, [e; p]) ∈ trace (emit k e p σ1).
Proof.
  intros Hl.
  destruct armed_sequence as (fs0 & HA & Hpl).
  pose proof (ar_entry _ _ _ _ _ Harmed) as Hr.
  pose proof (ar_wf _ _ _ _ _ Harmed) as Hwf.
  unfold emit. rewrite Hr.
  assert (Forall plain (handlers r e σ1)) as Hh.
  { unfold handlers.
    destruct (map_get (handlerMap r) e σ1) as [a|] eqn:Ha; [|constructor].
    apply armed_other_sequences; [by eapply owns_array_self_handlers|].
    destruct (wf_handlers _ Hwf _ _ _ _ Hr Ha) as (_ & _ & Hne). congruence. }
  set (σm := match map_get (handlerMap r) e σ1 with
             | Some a => forEach a (λ v, call v [p]) σ1
             | None => σ1
             end).
  assert (σm = add_trace (calls [p] (handlers r e σ1)) σ1) as Hm.
  { unfold σm, handlers in *.
    destruct (map_get (handlerMap r) e σ1) as [a|];
      [by apply forEach_plain|by rewrite add_trace_nil]. }
  rewrite Hl, Hm.
  rewrite (forEach_plain_then A [e; p] fs0 once_fn) by done.
  split; [|apply target_called_last].
  rewrite fired_call, decide_True by done.
  pose proof (fired_add_trace (target once_fn) (calls [e; p] fs0)
                (add_trace (calls [p] (handlers r e σ1)) σ1)).
  pose proof (fired_add_trace (target once_fn)
                (calls [p] (handlers r e σ1)) σ1).
  lia.
Qed.

(** An emission of its event calls a closure of [once(event, handler)]. *)
Lemma armed_handler_fires e p :
  map_get (handlerMap r) e σ1 = Some A →
  S (fired (target once_fn) (trace σ1))
  ≤ fired (target once_fn) (trace (emit k e p σ1))
  ∧ (target once_fn, [p]) ∈ trace (emit k e p σ1).
Proof.
  intros Hg.
  destruct armed_sequence as (fs0 & HA & Hpl).
  pose proof (ar_entry _ _ _ _ _ Harmed) as Hr.
  unfold emit. rewrite Hr, Hg.
  rewrite (forEach_plain_then A [p] fs0 once_fn) by done.
  set (σm := call once_fn [p] (add_trace (calls [p] fs0) σ1)).
  pose proof (shrinks_forEach (listeners r) [e; p] σm) as Hs.
  assert (S (fired (target once_fn) (trace σ1))
          ≤ fired (target once_fn) (trace σm)) as Hfired.
  { unfold σm. rewrite fired_call, decide_True by done.
    pose proof (fired_add_trace (target once_fn) (calls [p] fs0) σ1). lia. }
  split.
  - pose proof (fired_shrinks (target once_fn) _ _ Hs). lia.
  - destruct (sh_trace _ _ Hs) as [t ->].
    apply elem_of_app. left. apply target_called_last.
Qed.

(** Hence a second emission does not invoke the target again. *)
Lemma armed_fired_exactly_once e p k2 e2 p2 :
  S (fired (target once_fn) (trace σ1))
  ≤ fired (target once_fn) (trace (emit k e p σ1)) →
  fired (target once_fn) (trace (emits [(k, e, p); (k2, e2, p2)] σ1))
  = S (fired (target once_fn) (trace σ1)).
Proof.
  intros Hlo.
  pose proof (armed_fires_at_most_once _ _ _ _ _ Harmed
                [(k, e, p); (k2, e2, p2)]) as Hup.
  pose proof (fired_shrinks (target once_fn) _ _
                (shrinks_emit k2 e2 p2 (emit k e p σ1))) as Hmono.
  simpl in *. lia.
Qed.

End armed_fires.

(** ** What [on] adds *)

Lemma trace_register_cleanup s u σ : trace (register_cleanup s u σ) = trace σ.
Proof. by destruct s. Qed.

Lemma trace_on_listener b f σ : trace (on_listener b f σ).2 = trace σ.
Proof.
  unfold on_listener, listenerRecord.
  destruct (events σ !! key b); simpl; by rewrite trace_register_cleanup.
Qed.

Lemma trace_on_handler b e f σ : trace (on_handler b e f σ).2 = trace σ.
Proof.
  unfold on_handler, listenerRecord.
  destruct (events σ !! key b) as [r|].
  - destruct (map_get (handlerMap r) (key b) σ); simpl;
      by rewrite trace_register_cleanup.
  - simpl. destruct (map_get _ _ _); simpl; by rewrite trace_register_cleanup.
Qed.

Lemma owns_array_register_cleanup s u σ k a :
  owns_array (register_cleanup s u σ) k a ↔ owns_array σ k a.
Proof. by destruct s. Qed.

Lemma content_register_cleanup s u σ a :
  content a (register_cleanup s u σ) = content a σ.
Proof. by destruct s. Qed.

Lemma events_register_cleanup s u σ :
  events (register_cleanup s u σ) = events σ.
Proof. by destruct s. Qed.

Lemma handlers_register_cleanup s u σ r e :
  handlers r e (register_cleanup s u σ) = handlers r e σ.
Proof. by destruct s. Qed.

(** After [on(listener)] the listener is in the global sequence of the
    entry, and the sequences of the bus hold nothing else that is new. *)
Lemma on_listener_registered b f σ :
  wf σ →
  ∃ r, events (on_listener b f σ).2 !! key b = Some r
       ∧ f ∈ content (listeners r) (on_listener b f σ).2.
Proof.
  intros Hwf. unfold on_listener, listenerRecord.
  destruct (events σ !! key b) as [r|] eqn:Hr; simpl.
  - exists r. rewrite events_register_cleanup, content_register_cleanup.
    split; [simpl; apply lookup_insert_eq|].
    destruct (wf_listeners _ Hwf _ _ Hr) as [_ Hal].
    change (f ∈ content (listeners r) (push (listeners r) f σ)).
    rewrite content_push_eq by done. apply elem_of_app. right.
    by apply list_elem_of_singleton.
  - eexists. rewrite events_register_cleanup, content_register_cleanup.
    split; [simpl; apply lookup_insert_eq|].
    unfold content. simpl. rewrite lookup_alter_eq, lookup_insert_eq. simpl.
    by apply list_elem_of_singleton.
Qed.

Lemma on_listener_elem b f σ k' a g :
  owns_array (on_listener b f σ).2 k' a →
  g ∈ content a (on_listener b f σ).2 →
  g = f ∨ (owns_array σ k' a ∧ g ∈ content a σ).
Proof.
  unfold on_listener, listenerRecord.
  destruct (events σ !! key b) as [r|] eqn:Hr; simpl;
    rewrite owns_array_register_cleanup, content_register_cleanup.
  - rewrite set_events_insert_id by done.
    intros Ho [Hin|[_ ->]]%content_push_elem; [right|by left]. done.
  - intros Ho Hin.
    apply content_push_elem in Hin as [Hin|[_ ->]]; [|by left].
    apply content_new_array_elem in Hin as [Hne Hin].
    apply owns_array_insert_entry in Ho as [[Hk Ho]|[-> Ho]].
    + right. split; [|done]. by apply owns_array_push, owns_array_new_map in Ho.
    + destruct Ho as [->|[e He]]; [done|].
      unfold map_get in He. simpl in He.
      rewrite lookup_insert_eq in He. simpl in He.
      by rewrite lookup_empty in He.
Qed.

(** After [on(event, handler)] the handler is in the sequence that the
    entry holds for [event]. *)
Lemma on_handler_registered b e f σ :
  wf σ →
  ∃ r, events (on_handler b e f σ).2 !! key b = Some r
       ∧ f ∈ handlers r e (on_handler b e f σ).2.
Proof.
  intros Hwf. unfold on_handler, listenerRecord.
  destruct (events σ !! key b) as [r|] eqn:Hr.
  - destruct (wf_handlerMap _ Hwf _ _ Hr) as [_ Hmal].
    destruct (map_get (handlerMap r) (key b) σ) as [a|] eqn:Ha; simpl;
      exists r; rewrite events_register_cleanup, handlers_register_cleanup;
      (split; [simpl; apply lookup_insert_eq|]).
    + destruct (wf_handlers _ Hwf _ _ _ _ Hr Ha) as (_ & Hal & _).
      unfold handlers. rewrite set_events_insert_id by done.
      rewrite map_get_map_set_eq by done.
      change (f ∈ content a (push a f σ)).
      rewrite content_push_eq by done. apply elem_of_app. right.
      by apply list_elem_of_singleton.
    + unfold handlers. rewrite set_events_insert_id by done.
      rewrite map_get_map_set_eq by exact Hmal.
      unfold content. simpl. rewrite lookup_alter_eq, lookup_insert_eq. simpl.
      by apply list_elem_of_singleton.
  - simpl. unfold map_get at 1 2. simpl. rewrite lookup_insert_eq. simpl.
    rewrite lookup_empty. simpl.
    eexists. rewrite events_register_cleanup, handlers_register_cleanup.
    split; [simpl; apply lookup_insert_eq|].
    unfold handlers, map_get. simpl.
    rewrite lookup_alter_eq, lookup_insert_eq. simpl.
    rewrite lookup_insert_eq.
    unfold content. simpl. rewrite lookup_alter_eq, lookup_insert_eq. simpl.
    by apply list_elem_of_singleton.
Qed.

Lemma on_handler_elem b e f σ k' a g :
  wf σ →
  owns_array (on_handler b e f σ).2 k' a →
  g ∈ content a (on_handler b e f σ).2 →
  g = f ∨ (∃ a', owns_array σ k' a' ∧ g ∈ content a' σ).
Proof.
  intros Hwf. unfold on_handler, listenerRecord.
  destruct (events σ !! key b) as [r|] eqn:Hr.
  - destruct (map_get (handlerMap r) (key b) σ) as [a0|] eqn:Ha; simpl;
      rewrite owns_array_register_cleanup, content_register_cleanup;
      rewrite set_events_insert_id by done; intros Ho Hin.
    + apply content_push_elem in Hin as [Hin|[_ ->]]; [right|by left].
      apply owns_array_map_set in Ho as [Ho|[-> Ho]].
      * by exists a.
      * exists a0. split; [|done].
        assert (k' = key b) as ->.
        { apply (wf_sep_maps _ Hwf k' (key b) (handlerMap r)); [done|].
          by apply owns_map_self. }
        by eapply owns_array_self_handlers.
    + apply content_push_elem in Hin as [Hin|[_ ->]]; [right|by left].
      apply content_new_array_elem in Hin as [Hne Hin].
      apply owns_array_map_set in Ho as [Ho|[-> Ho]]; [|done].
      by exists a.
  - simpl. unfold map_get at 1 2. simpl. rewrite lookup_insert_eq. simpl.
    rewrite lookup_empty. simpl.
    rewrite owns_array_register_cleanup, content_register_cleanup.
    intros Ho Hin.
    apply content_push_elem in Hin as [Hin|[_ ->]]; [right|by left].
    apply content_new_array_elem in Hin as [Hne Hin].
    apply content_new_array_elem in Hin as [Hne' Hin].
    apply owns_array_insert_entry in Ho as [[Hk Ho]|[-> Ho]].
    + apply owns_array_map_set in Ho as [Ho|[-> Ho]]; [|done].
      apply (owns_array_new_map (new_array σ).2) in Ho. by exists a.
    + destruct Ho as [->|[e' He']]; [done|].
      apply map_get_map_set in He' as [He'|(_ & _ & ->)]; [|done].
      unfold map_get in He'. simpl in He'.
      rewrite lookup_insert_eq in He'. simpl in He'.
      by rewrite lookup_empty in He'.
Qed.

Lemma plain_bus_forall k r a σ :
  events σ !! k = Some r → plain_bus k σ → owns_array σ k a →
  Forall plain (content a σ).
Proof.
  intros Hr Hp Ho. apply Forall_forall. intros f Hf. by apply (Hp a).
Qed.

Lemma plain_bus_handlers k r e σ :
  events σ !! k = Some r → plain_bus k σ → Forall plain (handlers r e σ).
Proof.
  intros Hr Hp. unfold handlers.
  destruct (map_get (handlerMap r) e σ) as [a|] eqn:Ha; [|constructor].
  eapply plain_bus_forall; [done|done|]. by eapply owns_array_self_handlers.
Qed.

Lemma plain_bus_listeners k r σ :
  events σ !! k = Some r → plain_bus k σ →
  Forall plain (content (listeners r) σ).
Proof.
  intros Hr Hp. eapply plain_bus_forall; [done|done|].
  by apply owns_array_self_listeners.
Qed.

Lemma plain_bus_on_listener b n σ :
  plain_bus (key b) σ → plain_bus (key b) (on_listener b (Callback n) σ).2.
Proof.
  intros Hp a g Ho Hin.
  destruct (on_listener_elem _ _ _ _ _ _ Ho Hin) as [->|[Ho' Hin']]; [done|].
  by apply (Hp a).
Qed.

Lemma plain_bus_on_handler b e n σ :
  wf σ →
  plain_bus (key b) σ → plain_bus (key b) (on_handler b e (Callback n) σ).2.
Proof.
  intros Hwf Hp a g Ho Hin.
  destruct (on_handler_elem _ _ _ _ _ _ _ Hwf Ho Hin)
    as [->|(a' & Ho' & Hin')]; [done|].
  by apply (Hp a').
Qed.

Lemma calls_elem f args fs : f ∈ fs → (target f, args) ∈ calls args fs.
Proof. intros Hin. unfold calls. apply list_elem_of_fmap. by exists f. Qed.

Lemma emit_plain_bus k e p σ r :
  events σ !! k = Some r → plain_bus k σ →
  emit k e p σ
  = add_trace (calls [p] (handlers r e σ)
               ++ calls [e; p] (content (listeners r) σ)) σ.
Proof.
  intros Hr Hp. apply emit_plain; [done| |].
  - by eapply plain_bus_handlers.
  - by eapply plain_bus_listeners.
Qed.

(** The function [on] returns is the matching [off] call. *)
Lemma on_listener_stop b f σ : (on_listener b f σ).1 = StopListener (key b) f.
Proof. unfold on_listener, listenerRecord. by destruct (events _ !! _). Qed.

Lemma on_handler_stop b e f σ : (on_handler b e f σ).1 = StopHandler (key b) e f.
Proof.
  unfold on_handler, listenerRecord.
  destruct (events σ !! key b) as [r|].
  - by destruct (map_get _ _ _).
  - simpl. unfold map_get. simpl. rewrite lookup_insert_eq. simpl.
    by rewrite lookup_empty.
Qed.

(** ** [once] on a bus of plain functions *)

Lemma once_listener_others b n σ a g :
  plain_bus (key b) σ →
  owns_array (once_listener b n σ).2 (key b) a →
  g ∈ content a (once_listener b n σ).2 →
  g = OnceListener (next_fn σ) (key b) n ∨ plain g.
Proof.
  intros Hp Ho Hin. unfold once_listener in *.
  destruct (on_listener_elem _ _ _ _ _ _ Ho Hin) as [->|[Ho' Hin']];
    [by left|right].
  by apply (Hp a).
Qed.

Lemma once_handler_others b e n σ a g :
  wf σ →
  plain_bus (key b) σ →
  owns_array (once_handler b e n σ).2 (key b) a →
  g ∈ content a (once_handler b e n σ).2 →
  g = OnceHandler (next_fn σ) (key b) e n ∨ plain g.
Proof.
  intros Hwf Hp Ho Hin. unfold once_handler in *.
  destruct (on_handler_elem _ _ _ _ _ _ _ (wf_set_next_fn _ _ Hwf) Ho Hin)
    as [->|(a' & Ho' & Hin')]; [by left|right].
  by apply (Hp a').
Qed.

Lemma once_listener_exactly_once b n σ e1 p1 k2 e2 p2 :
  wf σ → unregistered n σ → plain_bus (key b) σ →
  fired n (trace (emits [(key b, e1, p1); (k2, e2, p2)] (once_listener b n σ).2))
  = S (fired n (trace σ))
  ∧ (n, [e1; p1]) ∈ trace (emit (key b) e1 p1 (once_listener b n σ).2).
Proof.
  intros Hwf Hun Hp.
  destruct (armed_once_listener b n σ Hwf Hun) as (r & A & Harmed).
  pose proof (ar_linked _ _ _ _ _ Harmed) as Hl. simpl in Hl.
  destruct (armed_listener_fires _ _ _ _ _ Harmed
              (λ a g, once_listener_others b n σ a g Hp) e1 p1 Hl)
    as [Hlo Hin].
  split; [|exact Hin].
  pose proof (armed_fired_exactly_once _ _ _ _ _ Harmed e1 p1 k2 e2 p2 Hlo)
    as Heq.
  simpl in Heq. unfold once_listener in Heq at 2.
  by rewrite trace_on_listener in Heq.
Qed.

Lemma once_handler_exactly_once b e n σ p1 k2 e2 p2 :
  wf σ → unregistered n σ → plain_bus (key b) σ →
  fired n (trace (emits [(key b, e, p1); (k2, e2, p2)] (once_handler b e n σ).2))
  = S (fired n (trace σ))
  ∧ (n, [p1]) ∈ trace (emit (key b) e p1 (once_handler b e n σ).2).
Proof.
  intros Hwf Hun Hp.
  destruct (armed_once_handler b e n σ Hwf Hun) as (r & A & Harmed).
  pose proof (ar_linked _ _ _ _ _ Harmed) as Hl. simpl in Hl.
  destruct (armed_handler_fires _ _ _ _ _ Harmed
              (λ a g, once_handler_others b e n σ a g Hwf Hp) e p1 Hl)
    as [Hlo Hin].
  split; [|exact Hin].
  pose proof (armed_fired_exactly_once _ _ _ _ _ Harmed e p1 k2 e2 p2 Hlo)
    as Heq.
  simpl in Heq. unfold once_handler in Heq at 2.
  by rewrite trace_on_handler in Heq.
Qed.

(** ** Calling an unsubscribe function twice in a row *)

Lemma set_arrays_again a fs σ :
  set_arrays <[a := fs]> (set_arrays <[a := fs]> σ) = set_arrays <[a := fs]> σ.
Proof. unfold set_arrays. simpl. by rewrite insert_insert_eq. Qed.

Lemma off_listener_again k f σ :
  ¬ subscribed (StopListener k f) (off_listener k f σ) →
  off_listener k f (off_listener k f σ) = off_listener k f σ.
Proof.
  intros Hnot.
  destruct (events σ !! k) as [r|] eqn:Hr.
  2:{ unfold off_listener. rewrite Hr. by rewrite Hr. }
  destruct (arrays σ !! listeners r) as [fs|] eqn:Hfs.
  2:{ unfold off_listener. rewrite Hr, Hfs. by rewrite Hr, Hfs. }
  assert (off_listener k f σ
          = if decide (length (remove_first f fs) = 0)
            then set_events (delete k)
                   (set_arrays <[listeners r := remove_first f fs]> σ)
            else set_arrays <[listeners r := remove_first f fs]> σ) as Heq.
  { unfold off_listener. by rewrite Hr, Hfs. }
  rewrite Heq in *. case_decide as Hlen.
  - unfold off_listener. simpl. by rewrite lookup_delete_eq.
  - assert (f ∉ remove_first f fs) as Hnin.
    { intros Hin. apply Hnot. exists r. split; [done|].
      unfold content. simpl. by rewrite lookup_insert_eq. }
    unfold off_listener. simpl. rewrite Hr, lookup_insert_eq.
    rewrite (remove_first_notin _ _ Hnin).
    rewrite decide_False by done. apply set_arrays_again.
Qed.

Lemma remove_handler_events r e f σ :
  events (remove_handler r e f σ) = events σ.
Proof.
  unfold remove_handler. destruct (map_get _ _ _); [|done].
  destruct (arrays σ !! _); [|done]. by case_decide.
Qed.

Lemma remove_handler_again r e f σ :
  f ∉ handlers r e (remove_handler r e f σ) →
  remove_handler r e f (remove_handler r e f σ) = remove_handler r e f σ.
Proof.
  intros Hnin.
  destruct (map_get (handlerMap r) e σ) as [a|] eqn:Hg.
  2:{ unfold remove_handler. rewrite Hg. by rewrite Hg. }
  destruct (arrays σ !! a) as [fs|] eqn:Hfs.
  2:{ unfold remove_handler. rewrite Hg, Hfs. by rewrite Hg, Hfs. }
  assert (remove_handler r e f σ
          = if decide (length (remove_first f fs) = 0)
            then map_delete (handlerMap r) e
                   (set_arrays <[a := remove_first f fs]> σ)
            else set_arrays <[a := remove_first f fs]> σ) as Heq.
  { unfold remove_handler. by rewrite Hg, Hfs. }
  rewrite Heq in *. case_decide as Hlen.
  - assert (map_get (handlerMap r) e
              (map_delete (handlerMap r) e
                 (set_arrays <[a := remove_first f fs]> σ)) = None) as Hnone.
    { unfold map_get, map_delete in *. simpl in *. rewrite lookup_alter_eq.
      destruct (maps σ !! handlerMap r); simpl; [|done].
      apply lookup_delete_eq. }
    unfold remove_handler. by rewrite Hnone.
  - assert (f ∉ remove_first f fs) as Hnin'.
    { intros Hin. apply Hnin. unfold handlers.
      change (map_get (handlerMap r) e
                (set_arrays <[a := remove_first f fs]> σ))
        with (map_get (handlerMap r) e σ).
      rewrite Hg. unfold content. simpl. by rewrite lookup_insert_eq. }
    unfold remove_handler.
    change (map_get (handlerMap r) e
              (set_arrays <[a := remove_first f fs]> σ))
      with (map_get (handlerMap r) e σ).
    rewrite Hg. simpl. rewrite lookup_insert_eq.
    rewrite (remove_first_notin _ _ Hnin').
    rewrite decide_False by done. apply set_arrays_again.
Qed.

Lemma off_handler_again k e f σ :
  ¬ subscribed (StopHandler k e f) (off_handler k e f σ) →
  off_handler k e f (off_handler k e f σ) = off_handler k e f σ.
Proof.
  intros Hnot.
  destruct (events σ !! k) as [r|] eqn:Hr.
  2:{ unfold off_handler. rewrite Hr. by rewrite Hr. }
  pose proof (off_handler_unfold k e f σ r Hr) as Heq.
  set (σ1 := remove_handler r e f σ) in *.
  assert (events σ1 !! k = Some r) as Hr1.
  { unfold σ1. by rewrite remove_handler_events. }
  destruct (maps σ1 !! handlerMap r) as [hm|] eqn:Hm;
    [destruct (decide (size hm = 0)) as [Hsz|Hsz]|].
  - rewrite Heq. unfold off_handler. simpl. by rewrite lookup_delete_eq.
  - rewrite Heq in *.
    assert (remove_handler r e f σ1 = σ1) as Hagain.
    { apply remove_handler_again. intros Hin. apply Hnot. by exists r. }
    rewrite (off_handler_unfold k e f σ1 r Hr1), Hagain, Hm.
    by rewrite decide_False.
  - rewrite Heq in *.
    assert (remove_handler r e f σ1 = σ1) as Hagain.
    { apply remove_handler_again. intros Hin. apply Hnot. by exists r. }
    by rewrite (off_handler_unfold k e f σ1 r Hr1), Hagain, Hm.
Qed.

(** X5: a function returned by [on] or [once], called twice in a row: when
    the first call has left its function in no sequence it looks at, the
    second call changes nothing at all. *)
Lemma run_stop_again u σ :
  ¬ subscribed u (run_stop u σ) →
  run_stop u (run_stop u σ) = run_stop u σ.
Proof.
  destruct u; simpl; [apply off_listener_again|apply off_handler_again].
Qed.

(** ** The claims *)

Lemma emit_plain_not_called k e p σ r n args :
  events σ !! k = Some r →
  Forall plain (handlers r e σ) →
  Forall plain (content (listeners r) σ) →
  Callback n ∉ handlers r e σ →
  Callback n ∉ content (listeners r) σ →
  (n, args) ∉ drop (length (trace σ)) (trace (emit k e p σ)).
Proof.
  intros Hr Hh Hl Hn1 Hn2. rewrite (emit_plain _ _ _ _ _ Hr Hh Hl). simpl.
  rewrite drop_app_length.
  intros [Hin|Hin]%elem_of_app.
  - apply Hn1. by eapply calls_target_elem.
  - apply Hn2. by eapply calls_target_elem.
Qed.

Lemma unregistered_empty n : unregistered n empty_state.
Proof. intros k a f (r & Hr & _). simpl in Hr. by rewrite lookup_empty in Hr. Qed.

Lemma plain_bus_empty k : plain_bus k empty_state.
Proof. intros a f (r & Hr & _). simpl in Hr. by rewrite lookup_empty in Hr. Qed.

(** C1 (what the code does): [on(event, handler)] looks the existing
    sequence up under the bus identifier instead of the event name.  On the
    bus ["news"], after [on("e", H1)] and [on("e", H2)] the sequence for
    ["e"] holds [H2] alone, and [emit("e", "hello")] invokes [H2] only. *)
Theorem on_handler_drops_earlier_handler :
  let k := VString "news" in
  let b := useEventBus k None in
  let e := VString "e" in
  let σ1 := (on_handler b e (Callback 1) empty_state).2 in
  let σ2 := (on_handler b e (Callback 2) σ1).2 in
  (∃ r, events σ2 !! k = Some r ∧ handlers r e σ2 = [Callback 2])
  ∧ trace (emit k e (VString "hello") σ2) = [(2, [VString "hello"])].
Proof.
  split.
  - eexists. split; [vm_compute; reflexivity|]. vm_compute. reflexivity.
  - vm_compute. reflexivity.
Qed.

(** C2 (what the code does): [off(listener)] deletes the Bus Entry as soon
    as the global sequence is empty, and [off(event, handler)] as soon as
    the handler map is empty, without looking at the other collection.
    After [on(L)] and [on("e", S)], [off(L)] deletes the entry although [S]
    is still in its sequence, and [emit("e")] then invokes nothing; likewise
    [off("e", S)] deletes the entry although [L] is still registered. *)
Theorem off_deletes_entry_with_remaining_subscribers :
  let k := VString "news" in
  let b := useEventBus k None in
  let e := VString "e" in
  let σ1 := (on_listener b (Callback 0) empty_state).2 in
  let σ2 := (on_handler b e (Callback 1) σ1).2 in
  (∃ r, events σ2 !! k = Some r
        ∧ content (listeners r) σ2 = [Callback 0]
        ∧ handlers r e σ2 = [Callback 1]
        ∧ handlers r e (off_listener k (Callback 0) σ2) = [Callback 1]
        ∧ content (listeners r) (off_handler k e (Callback 1) σ2) = [Callback 0])
  ∧ events (off_listener k (Callback 0) σ2) !! k = None
  ∧ trace (emit k e VUndefined (off_listener k (Callback 0) σ2)) = []
  ∧ events (off_handler k e (Callback 1) σ2) !! k = None
  ∧ trace (emit k e VUndefined (off_handler k e (Callback 1) σ2)) = [].
Proof.
  split.
  - eexists. split; [vm_compute; reflexivity|].
    split_and!; vm_compute; reflexivity.
  - split_and!; vm_compute; reflexivity.
Qed.

(** C3 (what the code does): [off] with a function that was never
    registered is not always a no-op.  On an entry that holds the scoped
    handler [S] only, [off(L)] finds the global sequence empty and deletes
    the entry; on an entry that holds the global listener [L] only,
    [off("x", S)] finds the handler map empty and deletes the entry. *)
Theorem off_unregistered_deletes_entry :
  let k := VString "news" in
  let b := useEventBus k None in
  let σs := (on_handler b (VString "e") (Callback 1) empty_state).2 in
  let σl := (on_listener b (Callback 0) empty_state).2 in
  is_Some (events σs !! k)
  ∧ events (off_listener k (Callback 0) σs) !! k = None
  ∧ off_listener k (Callback 0) σs ≠ σs
  ∧ is_Some (events σl !! k)
  ∧ events (off_handler k (VString "x") (Callback 1) σl) !! k = None
  ∧ off_handler k (VString "x") (Callback 1) σl ≠ σl.
Proof.
  intros k b σs σl. split_and!.
  - vm_compute. eauto.
  - vm_compute. reflexivity.
  - intros H. apply (f_equal (λ σ, events σ !! VString "news")) in H.
    vm_compute in H. discriminate.
  - vm_compute. eauto.
  - vm_compute. reflexivity.
  - intros H. apply (f_equal (λ σ, events σ !! VString "news")) in H.
    vm_compute in H. discriminate.
Qed.

(** C4, as the code has it: on an entry whose two sequences hold observers
    only, that is functions of the caller that return normally and perform
    no operation of a bus while they run (so no closure of [once], no
    function that unsubscribes itself, none that throws),
    [emit(event, payload)] first invokes every handler of the sequence for
    [event], in insertion order, with [payload] alone, then every global
    listener, in insertion order, with [(event, payload)]; a function that
    is in neither of the two sequences, such as a handler held under another
    event name only, is not invoked. *)
Theorem emit_handlers_then_listeners k e p σ r :
  events σ !! k = Some r →
  Forall plain (handlers r e σ) →
  Forall plain (content (listeners r) σ) →
  emit k e p σ
  = add_trace (calls [p] (handlers r e σ)
               ++ calls [e; p] (content (listeners r) σ)) σ
  ∧ ∀ n args,
      Callback n ∉ handlers r e σ →
      Callback n ∉ content (listeners r) σ →
      (n, args) ∉ drop (length (trace σ)) (trace (emit k e p σ)).
Proof.
  intros Hr Hh Hl. split; [by apply emit_plain|].
  intros n args. by apply emit_plain_not_called.
Qed.

(** The scenario of C4: [on(L)], [on("specific", S)], then
    [emit("specific", "hello")] and [emit("other", "x")]. *)
Lemma emit_handlers_then_listeners_witness :
  let k := VString "news" in
  let b := useEventBus k None in
  let σ1 := (on_listener b (Callback 0) empty_state).2 in
  let σ2 := (on_handler b (VString "specific") (Callback 1) σ1).2 in
  let σ3 := emit k (VString "specific") (VString "hello") σ2 in
  let σ4 := emit k (VString "other") (VString "x") σ3 in
  trace σ3 = [(1, [VString "hello"]);
              (0, [VString "specific"; VString "hello"])]
  ∧ trace σ4 = trace σ3 ++ [(0, [VString "other"; VString "x"])].
Proof.
  intros k b σ1 σ2 σ3 σ4.
  destruct (emit_handlers_then_listeners k (VString "specific")
              (VString "hello") σ2 (MkListeners 0 1)) as [H3 _].
  { vm_compute. reflexivity. }
  { vm_compute. repeat constructor. }
  { vm_compute. repeat constructor. }
  destruct (emit_handlers_then_listeners k (VString "other")
              (VString "x") σ3 (MkListeners 0 1)) as [H4 _].
  { vm_compute. reflexivity. }
  { vm_compute. repeat constructor. }
  { vm_compute. repeat constructor. }
  split.
  - unfold σ3. rewrite H3. vm_compute. reflexivity.
  - unfold σ4. rewrite H4. vm_compute. reflexivity.
Defined.

(** C4 as stated fails when a closure of [once] sits in a sequence: after
    [once(A)] and [on(B)], the closure of [A] takes itself out of the array
    while [forEach] is at index 0, [B] moves to index 0, and index 1 is
    empty when the loop gets there.  [B] is a global listener of the entry
    and [emit("x")] does not invoke it. *)
Lemma emit_skips_listener_after_once :
  let k := VString "news" in
  let b := useEventBus k None in
  let σ1 := (once_listener b 7 empty_state).2 in
  let σ2 := (on_listener b (Callback 0) σ1).2 in
  (∃ r, events σ2 !! k = Some r
        ∧ content (listeners r) σ2 = [OnceListener 0 k 7; Callback 0])
  ∧ trace (emit k (VString "x") VUndefined σ2)
    = [(7, [VString "x"; VUndefined])]
  ∧ (0, [VString "x"; VUndefined]) ∉ trace (emit k (VString "x") VUndefined σ2).
Proof.
  intros k b σ1 σ2.
  assert (trace (emit k (VString "x") VUndefined σ2)
          = [(7, [VString "x"; VUndefined])]) as Ht
    by (vm_compute; reflexivity).
  split_and!.
  - eexists. split; vm_compute; reflexivity.
  - exact Ht.
  - rewrite Ht. intros [H|H]%elem_of_cons; [discriminate|].
    by apply elem_of_nil in H.
Qed.

(** C5, as the code has it: the closure that [once] registers first
    performs the [off] call of the function [once] returns and then invokes
    the original with the arguments it received.  When the original is not
    registered otherwise, no sequence of emissions after [once] invokes it
    more than once; and when every function the bus already holds is an
    observer, that is a function of the caller that returns normally and
    performs no operation of a bus while it runs (so no other closure of
    [once], no function that unsubscribes itself, none that throws), two
    emissions of the matching event invoke it exactly once, the first of
    them with its arguments.  The functions of the caller are observers
    throughout. *)
Theorem once_fires_at_most_once (b : bus) (n : nat) (σ : state) :
  wf σ →
  unregistered n σ →
  (∀ args σ',
     call (OnceListener (next_fn σ) (key b) n) args σ'
     = log n args (run_stop (once_listener b n σ).1 σ'))
  ∧ (∀ e args σ',
       call (OnceHandler (next_fn σ) (key b) e n) args σ'
       = log n args (run_stop (once_handler b e n σ).1 σ'))
  ∧ (∀ es, fired n (trace (emits es (once_listener b n σ).2))
           ≤ S (fired n (trace σ)))
  ∧ (∀ e es, fired n (trace (emits es (once_handler b e n σ).2))
             ≤ S (fired n (trace σ)))
  ∧ (plain_bus (key b) σ →
     ∀ e1 p1 e2 p2,
       fired n (trace (emits [(key b, e1, p1); (key b, e2, p2)]
                         (once_listener b n σ).2))
       = S (fired n (trace σ))
       ∧ (n, [e1; p1]) ∈ trace (emit (key b) e1 p1 (once_listener b n σ).2))
  ∧ (plain_bus (key b) σ →
     ∀ e p1 p2,
       fired n (trace (emits [(key b, e, p1); (key b, e, p2)]
                         (once_handler b e n σ).2))
       = S (fired n (trace σ))
       ∧ (n, [p1]) ∈ trace (emit (key b) e p1 (once_handler b e n σ).2)).
Proof.
  intros Hwf Hun. split_and!.
  - intros args σ'. unfold once_listener. by rewrite on_listener_stop.
  - intros e args σ'. unfold once_handler. by rewrite on_handler_stop.
  - intros es.
    destruct (armed_once_listener b n σ Hwf Hun) as (r & A & Harmed).
    pose proof (armed_fires_at_most_once _ _ _ _ _ Harmed es) as Hle.
    simpl in Hle. unfold once_listener in Hle at 2.
    by rewrite trace_on_listener in Hle.
  - intros e es.
    destruct (armed_once_handler b e n σ Hwf Hun) as (r & A & Harmed).
    pose proof (armed_fires_at_most_once _ _ _ _ _ Harmed es) as Hle.
    simpl in Hle. unfold once_handler in Hle at 2.
    by rewrite trace_on_handler in Hle.
  - intros Hp e1 p1 e2 p2. by apply once_listener_exactly_once.
  - intros Hp e p1 p2. by apply once_handler_exactly_once.
Qed.

(** The scenario of C5: [once(L)], [emit("a")], [emit("b")] on a new bus. *)
Lemma once_fires_at_most_once_witness :
  let k := VString "news" in
  let b := useEventBus k None in
  wf empty_state
  ∧ unregistered 0 empty_state
  ∧ plain_bus k empty_state
  ∧ fired 0 (trace (emits [(k, VString "a", VUndefined);
                           (k, VString "b", VUndefined)]
                      (once_listener b 0 empty_state).2)) = 1
  ∧ (0, [VString "a"; VUndefined])
      ∈ trace (emit k (VString "a") VUndefined (once_listener b 0 empty_state).2).
Proof.
  intros k b.
  split; [apply wf_empty|]. split; [apply unregistered_empty|].
  split; [apply plain_bus_empty|].
  destruct (once_fires_at_most_once b 0 empty_state wf_empty
              (unregistered_empty 0)) as (_ & _ & _ & _ & H & _).
  apply (H (plain_bus_empty k)).
Defined.

(** C5 as stated fails on a bus that already holds closures of [once]:
    with three of them in front, each emission skips every second element
    of the live array, and the closure registered last is reached by the
    third emission only.  After [once(h)] and two emissions [h] has not
    been invoked. *)
Lemma once_not_fired_after_two_emits :
  let k := VString "news" in
  let b := useEventBus k None in
  let σ1 := (once_listener b 1 empty_state).2 in
  let σ2 := (once_listener b 2 σ1).2 in
  let σ3 := (once_listener b 3 σ2).2 in
  let σ4 := (once_listener b 0 σ3).2 in
  let σ5 := emits [(k, VString "a", VUndefined); (k, VString "a", VUndefined)] σ4 in
  trace σ5 = [(1, [VString "a"; VUndefined]);
              (3, [VString "a"; VUndefined]);
              (2, [VString "a"; VUndefined])]
  ∧ fired 0 (trace σ5) = 0
  ∧ trace (emit k (VString "a") VUndefined σ5)
    = trace σ5 ++ [(0, [VString "a"; VUndefined])].
Proof. intros k b σ1 σ2 σ3 σ4 σ5. split_and!; vm_compute; reflexivity. Qed.

(** C6 (what the code does): the function returned by [on(L)] is
    [() => off(L)].  Invoked a second time, after [L] is gone and the
    scoped handler [S] has been registered on the same bus, it finds the
    global sequence empty and deletes the entry, so [S] is lost. *)
Theorem unsubscribe_twice_deletes_entry :
  let k := VString "news" in
  let b := useEventBus k None in
  let e := VString "e" in
  let u := (on_listener b (Callback 0) empty_state).1 in
  let σ1 := (on_listener b (Callback 0) empty_state).2 in
  let σ2 := run_stop u σ1 in
  let σ3 := (on_handler b e (Callback 1) σ2).2 in
  u = StopListener k (Callback 0)
  ∧ (∃ r, events σ3 !! k = Some r
          ∧ content (listeners r) σ3 = []
          ∧ handlers r e σ3 = [Callback 1])
  ∧ trace (emit k e VUndefined σ3) = [(1, [VUndefined])]
  ∧ events (run_stop u σ3) !! k = None
  ∧ trace (emit k e VUndefined (run_stop u σ3)) = [].
Proof.
  intros k b e u σ1 σ2 σ3. split; [done|]. split.
  - eexists. split; [vm_compute; reflexivity|].
    split; vm_compute; reflexivity.
  - split_and!; vm_compute; reflexivity.
Qed.

(** C7, as the code has it: two handles made with the same identifier work
    on one entry.  On a bus whose sequences hold observers only, that is
    functions of the caller that return normally and perform no operation
    of a bus while they run (so no closure of [once], no function that
    unsubscribes itself, none that throws), an observer subscribed as
    listener through the first handle is invoked by an emission through the
    second, and so is one subscribed as handler for the emitted event. *)
Theorem handles_share_entry (hA hB : bus) (σ : state) n e p :
  wf σ →
  plain_bus (key hA) σ →
  key hA = key hB →
  (n, [e; p]) ∈ drop (length (trace σ))
                  (trace (emit (key hB) e p (on_listener hA (Callback n) σ).2))
  ∧ (n, [p]) ∈ drop (length (trace σ))
                 (trace (emit (key hB) e p (on_handler hA e (Callback n) σ).2)).
Proof.
  intros Hwf Hp <-. split.
  - destruct (on_listener_registered hA (Callback n) σ Hwf) as (r & Hr & Hin).
    rewrite (emit_plain_bus _ _ _ _ _ Hr (plain_bus_on_listener _ _ _ Hp)).
    simpl. rewrite trace_on_listener, drop_app_length.
    apply elem_of_app. right. by apply (calls_elem (Callback n)).
  - destruct (on_handler_registered hA e (Callback n) σ Hwf) as (r & Hr & Hin).
    rewrite (emit_plain_bus _ _ _ _ _ Hr (plain_bus_on_handler _ _ _ _ Hwf Hp)).
    simpl. rewrite trace_on_handler, drop_app_length.
    apply elem_of_app. left. by apply (calls_elem (Callback n)).
Qed.

Lemma handles_share_entry_witness :
  let hA := useEventBus (VString "news") None in
  let hB := useEventBus (VString "news") (Some 0) in
  (7, [VString "e"; VString "hello"])
    ∈ trace (emit (key hB) (VString "e") (VString "hello")
               (on_listener hA (Callback 7) empty_state).2).
Proof.
  intros hA hB.
  apply (handles_share_entry hA hB empty_state 7 (VString "e") (VString "hello")
           wf_empty (plain_bus_empty _) eq_refl).
Defined.

(** C7 as stated fails on a bus that holds a closure of [once]: the
    listener subscribed through the first handle comes right after the
    closure in the array, and the emission through the second handle skips
    it. *)
Lemma shared_listener_skipped_after_once :
  let hA := useEventBus (VString "news") None in
  let hB := useEventBus (VString "news") (Some 0) in
  let σ1 := (once_listener hB 7 empty_state).2 in
  let σ2 := (on_listener hA (Callback 0) σ1).2 in
  trace (emit (key hB) (VString "e") (VString "hello") σ2)
  = [(7, [VString "e"; VString "hello"])]
  ∧ (0, [VString "e"; VString "hello"])
      ∉ trace (emit (key hB) (VString "e") (VString "hello") σ2).
Proof.
  intros hA hB σ1 σ2.
  assert (trace (emit (key hB) (VString "e") (VString "hello") σ2)
          = [(7, [VString "e"; VString "hello"])]) as Ht
    by (vm_compute; reflexivity).
  split; [exact Ht|].
  rewrite Ht. intros [H|H]%elem_of_cons; [discriminate|].
  by apply elem_of_nil in H.
Qed.

(** C8: [reset()] deletes the entry whatever it holds; every emission on
    the bus that follows invokes nothing and changes nothing; on a bus
    without entry [reset()] changes nothing, so a second [reset()] is a
    no-op. *)
Theorem reset_clears_bus k σ :
  events (reset k σ) !! k = None
  ∧ trace (reset k σ) = trace σ
  ∧ (∀ es, Forall (λ x, x.1.1 = k) es → emits es (reset k σ) = reset k σ)
  ∧ (events σ !! k = None → reset k σ = σ)
  ∧ reset k (reset k σ) = reset k σ.
Proof.
  assert (∀ σ', events σ' !! k = None → reset k σ' = σ') as Hnoop.
  { intros σ' Hr. destruct σ'. unfold reset, set_events. simpl in *.
    by rewrite delete_id. }
  assert (events (reset k σ) !! k = None) as Hgone by apply lookup_delete_eq.
  split_and!; [done|done| |apply Hnoop|by apply Hnoop].
  intros es. induction es as [|x es IH]; intros Hall; [done|].
  apply Forall_cons in Hall as [Hx Hall]. simpl. rewrite Hx.
  rewrite emit_absent by done. by apply IH.
Qed.

(** A bus with a global listener and handlers under two event names. *)
Lemma reset_clears_bus_witness :
  let k := VString "news" in
  let b := useEventBus k None in
  let σ1 := (on_listener b (Callback 0) empty_state).2 in
  let σ2 := (on_handler b (VString "a") (Callback 1) σ1).2 in
  let σ3 := (on_handler b (VString "b") (Callback 2) σ2).2 in
  trace (emits [(k, VString "a", VUndefined); (k, VString "b", VUndefined)]
           (reset k σ3)) = []
  ∧ reset k empty_state = empty_state.
Proof.
  intros k b σ1 σ2 σ3.
  destruct (reset_clears_bus k σ3) as (_ & _ & H & _).
  destruct (reset_clears_bus k empty_state) as (_ & _ & _ & H0 & _).
  split.
  - rewrite H; [reflexivity|]. repeat constructor.
  - apply H0. reflexivity.
Defined.

(** C9, as the code has it: an emission without event name, on an entry
    whose two sequences hold observers only, that is functions of the
    caller that return normally and perform no operation of a bus while
    they run (so no closure of [once], no function that unsubscribes itself,
    none that throws), invokes the handlers of the sequence held under the
    key [undefined], then all global listeners; a handler that is only in
    the sequence of a named event is not invoked. *)
Theorem emit_without_event_name k p σ r :
  events σ !! k = Some r →
  Forall plain (handlers r VUndefined σ) →
  Forall plain (content (listeners r) σ) →
  emit k VUndefined p σ
  = add_trace (calls [p] (handlers r VUndefined σ)
               ++ calls [VUndefined; p] (content (listeners r) σ)) σ
  ∧ ∀ e n args,
      e ≠ VUndefined →
      Callback n ∈ handlers r e σ →
      Callback n ∉ handlers r VUndefined σ →
      Callback n ∉ content (listeners r) σ →
      (n, args) ∉ drop (length (trace σ)) (trace (emit k VUndefined p σ)).
Proof.
  intros Hr Hh Hl. split; [by apply emit_plain|].
  intros e n args _ _. by apply emit_plain_not_called.
Qed.

Lemma emit_without_event_name_witness :
  let k := VString "news" in
  let b := useEventBus k None in
  let σ1 := (on_listener b (Callback 0) empty_state).2 in
  let σ2 := (on_handler b (VString "a") (Callback 1) σ1).2 in
  let σ3 := (on_handler b VUndefined (Callback 2) σ2).2 in
  trace (emit k VUndefined (VString "p") σ3)
  = [(2, [VString "p"]); (0, [VUndefined; VString "p"])].
Proof.
  intros k b σ1 σ2 σ3.
  destruct (emit_without_event_name k (VString "p") σ3 (MkListeners 0 1))
    as [H _].
  { vm_compute. reflexivity. }
  { vm_compute. repeat constructor. }
  { vm_compute. repeat constructor. }
  rewrite H. vm_compute. reflexivity.
Defined.

(** C9 as stated fails when a closure of [once] sits in the global
    sequence: after [once(A)] and [on(B)], an emission without event name
    invokes [A] and skips the global listener [B]. *)
Lemma undefined_emit_skips_listener :
  let k := VString "news" in
  let b := useEventBus k None in
  let σ1 := (once_listener b 7 empty_state).2 in
  let σ2 := (on_listener b (Callback 0) σ1).2 in
  (∃ r, events σ2 !! k = Some r
        ∧ Callback 0 ∈ content (listeners r) σ2)
  ∧ trace (emit k VUndefined (VString "p") σ2)
    = [(7, [VUndefined; VString "p"])]
  ∧ (0, [VUndefined; VString "p"])
      ∉ trace (emit k VUndefined (VString "p") σ2).
Proof.
  intros k b σ1 σ2.
  assert (trace (emit k VUndefined (VString "p") σ2)
          = [(7, [VUndefined; VString "p"])]) as Ht
    by (vm_compute; reflexivity).
  split_and!.
  - exists (MkListeners 0 1). split; [vm_compute; reflexivity|].
    apply list_elem_of_In. vm_compute. right. left. reflexivity.
  - exact Ht.
  - rewrite Ht. intros [H|H]%elem_of_cons; [discriminate|].
    by apply elem_of_nil in H.
Qed.

(** C10: whatever is done through a handle of the bus [k] ([on], [once],
    [off], [emit], [reset], or a function returned by [on]), the entry of
    every other identifier and the objects it refers to stay as they are. *)
Theorem operations_touch_their_bus_only (b : bus) (σ : state) :
  wf σ →
  (∀ f, frame (key b) σ (on_listener b f σ).2)
  ∧ (∀ e f, frame (key b) σ (on_handler b e f σ).2)
  ∧ (∀ n, frame (key b) σ (once_listener b n σ).2)
  ∧ (∀ e n, frame (key b) σ (once_handler b e n σ).2)
  ∧ (∀ f, frame (key b) σ (off_listener (key b) f σ))
  ∧ (∀ e f, frame (key b) σ (off_handler (key b) e f σ))
  ∧ (∀ f σ', frame (key b) σ (run_stop (on_listener b f σ').1 σ))
  ∧ (∀ e f σ', frame (key b) σ (run_stop (on_handler b e f σ').1 σ))
  ∧ (∀ e p, frame (key b) σ (emit (key b) e p σ))
  ∧ frame (key b) σ (reset (key b) σ).
Proof.
  intros Hwf. split_and!; intros.
  - apply local_frame; [done|]. apply local_on_listener.
  - apply local_frame; [done|]. apply local_on_handler.
  - apply local_frame; [done|]. unfold once_listener.
    apply (local_set_next_fn _ (S (next_fn σ))), local_on_listener.
  - apply local_frame; [done|]. unfold once_handler.
    apply (local_set_next_fn _ (S (next_fn σ))), local_on_handler.
  - apply local_frame; [done|]. apply local_off_listener.
  - apply local_frame; [done|]. apply local_off_handler.
  - apply local_frame; [done|]. rewrite on_listener_stop.
    apply local_off_listener.
  - apply local_frame; [done|]. rewrite on_handler_stop.
    apply local_off_handler.
  - by apply frame_emit.
  - apply local_frame; [done|]. apply local_reset.
Qed.

(** Two buses: what is done on ["news"] leaves the entry of ["sport"]. *)
Lemma operations_touch_their_bus_only_witness :
  let other := useEventBus (VString "sport") None in
  let b := useEventBus (VString "news") None in
  let σ := (on_handler other (VString "goal") (Callback 0) empty_state).2 in
  wf σ
  ∧ events (on_listener b (Callback 1) σ).2 !! key other = events σ !! key other
  ∧ events (reset (key b) σ) !! key other = events σ !! key other.
Proof.
  intros other b σ.
  assert (wf σ) as Hwf by (by apply wf_on_handler; [apply wf_empty|]).
  split; [exact Hwf|].
  destruct (operations_touch_their_bus_only b σ Hwf)
    as (Hon & _ & _ & _ & _ & _ & _ & _ & _ & Hreset).
  split.
  - apply (Hon (Callback 1) (key other)). discriminate.
  - apply (Hreset (key other)). discriminate.
Defined.

(** ** Further properties of the code *)

(** X2: [off], [reset], [emit] and the functions [on] returns never add
    anything: registry entries, bindings of a handler Map and elements of an
    array are only taken out, nothing is allocated, the cleanups of the
    scopes stay as they are, and the trace only grows. *)
Theorem removal_never_adds k e p f u σ :
  shrinks σ (off_listener k f σ)
  ∧ shrinks σ (off_handler k e f σ)
  ∧ shrinks σ (reset k σ)
  ∧ shrinks σ (run_stop u σ)
  ∧ shrinks σ (emit k e p σ).
Proof.
  split_and!.
  - apply shrinks_off_listener.
  - apply shrinks_off_handler.
  - apply shrinks_reset.
  - apply shrinks_run_stop.
  - apply shrinks_emit.
Qed.

Lemma unregistered_shrinks n σ σ' :
  shrinks σ σ' → unregistered n σ → unregistered n σ'.
Proof.
  intros Hs Hun k a f Ho Hin. apply (Hun k a f).
  - by eapply shrinks_owns_array.
  - by eapply shrinks_content_elem.
Qed.

Lemma forEach_unregistered n k a args σ0 σ :
  unregistered n σ0 → owns_array σ0 k a → shrinks σ0 σ →
  fired n (trace (forEach a (λ v, call v args) σ)) = fired n (trace σ).
Proof.
  intros Hun Ho Hs.
  assert (shrinks σ0 (forEach a (λ v, call v args) σ)
          ∧ fired n (trace (forEach a (λ v, call v args) σ))
            = fired n (trace σ)) as [_ H]; [|done].
  apply (forEach_inv (λ σ', shrinks σ0 σ'
                            ∧ fired n (trace σ') = fired n (trace σ)));
    [|done].
  intros f σ' [Hs' Hf] Hin. split.
  - eapply shrinks_trans; [exact Hs'|apply shrinks_call].
  - rewrite fired_call, decide_False; [lia|].
    apply (Hun k a f Ho). by eapply shrinks_content_elem.
Qed.

Lemma emit_unregistered n k e p σ :
  unregistered n σ → fired n (trace (emit k e p σ)) = fired n (trace σ).
Proof.
  intros Hun. unfold emit.
  destruct (events σ !! k) as [r|] eqn:Hr; [|done].
  set (σm := match map_get (handlerMap r) e σ with
             | Some a => forEach a (λ v, call v [p]) σ
             | None => σ
             end).
  assert (shrinks σ σm ∧ fired n (trace σm) = fired n (trace σ)) as [Hs Hm].
  { unfold σm. destruct (map_get (handlerMap r) e σ) as [a|] eqn:Ha.
    - split; [apply shrinks_forEach|].
      apply (forEach_unregistered n k a [p] σ σ Hun); [|apply shrinks_refl].
      by eapply owns_array_self_handlers.
    - split; [apply shrinks_refl|done]. }
  rewrite <- Hm.
  apply (forEach_unregistered n k (listeners r) [e; p] σ σm Hun); [|done].
  by apply owns_array_self_listeners.
Qed.

Lemma emits_unregistered n es σ :
  unregistered n σ →
  fired n (trace (emits es σ)) = fired n (trace σ)
  ∧ unregistered n (emits es σ).
Proof.
  revert σ. induction es as [|x es IH]; intros σ Hun; simpl; [done|].
  assert (unregistered n (emit x.1.1 x.1.2 x.2 σ)) as Hun'.
  { eapply unregistered_shrinks; [apply shrinks_emit|done]. }
  destruct (IH _ Hun') as [Hf Hu]. split; [|done].
  rewrite Hf. by apply emit_unregistered.
Qed.

(** X3: a function of the caller that is in no sequence of the registry,
    neither by itself nor wrapped by [once], is invoked by no emission,
    on whatever bus and however many; and it stays out of the registry. *)
Theorem unregistered_never_invoked n es σ :
  unregistered n σ →
  fired n (trace (emits es σ)) = fired n (trace σ)
  ∧ unregistered n (emits es σ).
Proof. apply emits_unregistered. Qed.

(** Function 0 is registered on ["news"], function 5 nowhere. *)
Lemma unregistered_never_invoked_witness :
  let k := VString "news" in
  let σ := (on_listener (useEventBus k None) (Callback 0) empty_state).2 in
  fired 5 (trace (emits [(k, VString "a", VUndefined);
                         (k, VString "b", VUndefined)] σ)) = 0.
Proof.
  intros k σ.
  assert (unregistered 5 σ) as Hun.
  { intros k' a f Ho Hin.
    destruct (on_listener_elem _ _ _ _ _ _ Ho Hin) as [->|[Ho' _]]; [done|].
    destruct Ho' as (r & Hr & _). simpl in Hr. by rewrite lookup_empty in Hr. }
  destruct (unregistered_never_invoked 5
              [(k, VString "a", VUndefined); (k, VString "b", VUndefined)]
              σ Hun) as [H _].
  rewrite H. reflexivity.
Defined.

Lemma armed_unsubscribed once_fn k r A σ1 args :
  armed once_fn k r A σ1 →
  unregistered (target once_fn) (call once_fn args σ1).
Proof.
  intros Harmed k' a f Ho Hin Ht.
  pose proof (once_inv_start _ _ _ _ _ Harmed) as Hstart.
  assert (once_fn ∈ content A σ1) as HinA.
  { destruct (ar_last _ _ _ _ _ Harmed) as (fs0 & -> & _).
    apply elem_of_app. right. by apply list_elem_of_singleton. }
  pose proof (once_inv_call_self _ _ _ _ _ Harmed σ1 args Hstart HinA eq_refl)
    as Hinv.
  pose proof (shrinks_call once_fn args σ1) as Hs.
  assert (f = once_fn) as ->.
  { eapply (once_fn_only _ _ _ _ _ Harmed (call once_fn args σ1) k' a f);
      [done| |done|done].
    by eapply shrinks_owns_array. }
  apply (spent_unreachable _ _ _ _ _ Harmed (call once_fn args σ1) k' a);
    [done| |done|done].
  rewrite fired_call, decide_True by done. lia.
Qed.

(** X4: the function [once] returns takes the closure out again: called
    before any emission, it keeps the original from ever being invoked. *)
Theorem once_unsubscribed_never_fires (b : bus) (n : nat) (σ : state) :
  wf σ →
  unregistered n σ →
  (∀ es, fired n (trace (emits es (run_stop (once_listener b n σ).1
                                     (once_listener b n σ).2)))
         = fired n (trace σ))
  ∧ (∀ e es, fired n (trace (emits es (run_stop (once_handler b e n σ).1
                                         (once_handler b e n σ).2)))
             = fired n (trace σ)).
Proof.
  intros Hwf Hun. split.
  - intros es.
    destruct (armed_once_listener b n σ Hwf Hun) as (r & A & Harmed).
    pose proof (armed_unsubscribed _ _ _ _ _ [] Harmed) as Hun'.
    unfold once_listener at 1. rewrite on_listener_stop. simpl run_stop.
    destruct (emits_unregistered n es
                (off_listener (key b) (OnceListener (next_fn σ) (key b) n)
                   (once_listener b n σ).2) Hun') as [-> _].
    rewrite trace_off_listener. unfold once_listener.
    by rewrite trace_on_listener.
  - intros e es.
    destruct (armed_once_handler b e n σ Hwf Hun) as (r & A & Harmed).
    pose proof (armed_unsubscribed _ _ _ _ _ [] Harmed) as Hun'.
    unfold once_handler at 1. rewrite on_handler_stop. simpl run_stop.
    destruct (emits_unregistered n es
                (off_handler (key b) e (OnceHandler (next_fn σ) (key b) e n)
                   (once_handler b e n σ).2) Hun') as [-> _].
    rewrite trace_off_handler. unfold once_handler.
    by rewrite trace_on_handler.
Qed.

Lemma once_unsubscribed_never_fires_witness :
  let k := VString "news" in
  let b := useEventBus k None in
  fired 0 (trace (emits [(k, VString "a", VUndefined);
                         (k, VString "b", VUndefined)]
                    (run_stop (once_listener b 0 empty_state).1
                       (once_listener b 0 empty_state).2))) = 0.
Proof.
  intros k b.
  destruct (once_unsubscribed_never_fires b 0 empty_state wf_empty
              (unregistered_empty 0)) as [H _].
  apply H.
Defined.

(** A state reached by [on("e", H)], [once(L)] and [emit("e")]. *)
Lemma reachable_wf_witness :
  let k := VString "news" in
  let b := useEventBus k (Some 0) in
  let σ1 := (on_handler b (VString "e") (Callback 0) empty_state).2 in
  let σ2 := (once_listener b 1 σ1).2 in
  wf (emit k (VString "e") VUndefined σ2).
Proof.
  intros k b σ1 σ2. apply reachable_wf. unfold reachable.
  eapply rtc_l; [apply (step_on_handler b (VString "e") 0)|].
  eapply rtc_l; [apply (step_once_listener b 1)|].
  eapply rtc_l; [apply (step_emit k (VString "e") VUndefined)|].
  apply rtc_refl.
Defined.

(** Two global listeners; the function that [on] returned for the first is
    called twice. *)
Lemma run_stop_again_witness :
  let k := VString "news" in
  let b := useEventBus k None in
  let u := (on_listener b (Callback 0) empty_state).1 in
  let σ1 := (on_listener b (Callback 0) empty_state).2 in
  let σ2 := (on_listener b (Callback 1) σ1).2 in
  run_stop u (run_stop u σ2) = run_stop u σ2.
Proof.
  intros k b u σ1 σ2. apply run_stop_again.
  intros (r & Hr & Hin). vm_compute in Hr. injection Hr as <-.
  apply list_elem_of_In in Hin. vm_compute in Hin.
  destruct Hin as [H|[]]. discriminate.
Defined.

Lemma off_listener_last σ k r f :
  events σ !! k = Some r →
  arrays σ !! listeners r = Some [f] →
  off_listener k f σ
  = set_events (delete k) (set_arrays <[listeners r := []]> σ).
Proof.
  intros Hr Ha. unfold off_listener. by rewrite Hr, Ha, remove_first_hd.
Qed.

Lemma off_handler_last σ k r e a f :
  events σ !! k = Some r →
  maps σ !! handlerMap r = Some (<[e := a]> ∅) →
  arrays σ !! a = Some [f] →
  events (off_handler k e f σ) = delete k (events σ).
Proof.
  intros Hr Hm Ha.
  assert (map_get (handlerMap r) e σ = Some a) as Hg.
  { unfold map_get. rewrite Hm. simpl. apply lookup_insert_eq. }
  unfold off_handler. rewrite Hr, Hg, Ha, remove_first_hd. simpl.
  rewrite lookup_alter_eq, Hm. simpl.
  by rewrite delete_insert_eq, delete_empty, map_size_empty.
Qed.

Lemma on_off_listener_unused b f σ :
  events σ !! key b = None →
  events (off_listener (key b) f (on_listener b f σ).2) = events σ.
Proof.
  intros Hr.
  rewrite (off_listener_last _ _ (MkListeners (next_loc σ) (S (next_loc σ)))).
  - unfold on_listener, listenerRecord. rewrite Hr. simpl.
    rewrite events_register_cleanup. simpl.
    by rewrite delete_insert_eq, delete_id.
  - unfold on_listener, listenerRecord. rewrite Hr. simpl.
    rewrite events_register_cleanup. simpl. apply lookup_insert_eq.
  - unfold on_listener, listenerRecord. rewrite Hr. simpl.
    destruct (scope b); simpl; by rewrite lookup_alter_eq, lookup_insert_eq.
Qed.

Lemma on_off_handler_unused b e f σ :
  events σ !! key b = None →
  events (off_handler (key b) e f (on_handler b e f σ).2) = events σ.
Proof.
  intros Hr.
  rewrite (off_handler_last _ _ (MkListeners (next_loc σ) (S (next_loc σ)))
             e (S (S (next_loc σ)))).
  - unfold on_handler, listenerRecord. rewrite Hr. simpl.
    unfold map_get. simpl. rewrite lookup_insert_eq. simpl.
    rewrite lookup_empty. simpl.
    rewrite events_register_cleanup. simpl.
    by rewrite delete_insert_eq, delete_id.
  - unfold on_handler, listenerRecord. rewrite Hr. simpl.
    unfold map_get. simpl. rewrite lookup_insert_eq. simpl.
    rewrite lookup_empty. simpl.
    rewrite events_register_cleanup. simpl. apply lookup_insert_eq.
  - unfold on_handler, listenerRecord. rewrite Hr. simpl.
    unfold map_get. simpl. rewrite lookup_insert_eq. simpl.
    rewrite lookup_empty. simpl.
    destruct (scope b); simpl; by rewrite lookup_alter_eq, lookup_insert_eq.
  - unfold on_handler, listenerRecord. rewrite Hr. simpl.
    unfold map_get. simpl. rewrite lookup_insert_eq. simpl.
    rewrite lookup_empty. simpl.
    destruct (scope b); simpl; by rewrite lookup_alter_eq, lookup_insert_eq.
Qed.

Lemma insert_alter_restore (m : gmap loc (list fn)) l fs g :
  m !! l = Some fs → <[l := fs]> (alter g l m) = m.
Proof.
  intros Hl. apply map_eq. intros i.
  destruct (decide (l = i)) as [<-|Hne].
  - by rewrite lookup_insert_eq.
  - by rewrite lookup_insert_ne, lookup_alter_ne.
Qed.

Lemma on_off_listener_restores b f σ r :
  wf σ →
  events σ !! key b = Some r →
  content (listeners r) σ ≠ [] →
  f ∉ content (listeners r) σ →
  events (off_listener (key b) f (on_listener b f σ).2) = events σ
  ∧ arrays (off_listener (key b) f (on_listener b f σ).2) = arrays σ
  ∧ maps (off_listener (key b) f (on_listener b f σ).2) = maps σ.
Proof.
  intros Hwf Hr Hne Hnin.
  destruct (wf_listeners _ Hwf _ _ Hr) as [_ [fs Hfs]].
  rewrite (content_lookup _ _ _ Hfs) in Hne, Hnin.
  unfold on_listener, listenerRecord. rewrite Hr. simpl.
  rewrite (set_events_insert_id (key b) r) by done.
  unfold off_listener. rewrite events_register_cleanup. simpl. rewrite Hr.
  assert (arrays (register_cleanup (scope b) (StopListener (key b) f)
                    (push (listeners r) f σ)) !! listeners r
          = Some (fs ++ [f])) as ->.
  { destruct (scope b); simpl; by rewrite lookup_alter_eq, Hfs. }
  rewrite remove_first_snoc by done.
  rewrite decide_False by (by destruct fs).
  destruct (scope b); simpl; split_and!; try done;
    by apply insert_alter_restore.
Qed.

(** X6: subscribing and then calling the function [on] returned.  On a bus
    without entry the entry is gone again, for both call shapes.  On a bus
    whose global sequence is not empty and does not hold the listener yet,
    the registry, every array and every handler Map are as before. *)
Theorem subscribe_unsubscribe_round_trip (b : bus) (f : fn) (σ : state) :
  wf σ →
  (events σ !! key b = None →
   events (run_stop (on_listener b f σ).1 (on_listener b f σ).2) = events σ
   ∧ ∀ e, events (run_stop (on_handler b e f σ).1 (on_handler b e f σ).2)
          = events σ)
  ∧ (∀ r, events σ !! key b = Some r →
          content (listeners r) σ ≠ [] →
          f ∉ content (listeners r) σ →
          events (run_stop (on_listener b f σ).1 (on_listener b f σ).2)
          = events σ
          ∧ arrays (run_stop (on_listener b f σ).1 (on_listener b f σ).2)
            = arrays σ
          ∧ maps (run_stop (on_listener b f σ).1 (on_listener b f σ).2)
            = maps σ).
Proof.
  intros Hwf. split.
  - intros Hr. split.
    + rewrite on_listener_stop. by apply on_off_listener_unused.
    + intros e. rewrite on_handler_stop. by apply on_off_handler_unused.
  - intros r Hr Hne Hnin. rewrite on_listener_stop.
    by apply (on_off_listener_restores b f σ r).
Qed.

Lemma subscribe_unsubscribe_round_trip_witness :
  let k := VString "news" in
  let b := useEventBus k None in
  let σ := (on_listener b (Callback 0) empty_state).2 in
  arrays (run_stop (on_listener b (Callback 1) σ).1
            (on_listener b (Callback 1) σ).2) = arrays σ
  ∧ events (run_stop (on_listener b (Callback 1) empty_state).1
              (on_listener b (Callback 1) empty_state).2) = ∅.
Proof.
  intros k b σ.
  assert (wf σ) as Hwf by (by apply wf_on_listener; [apply wf_empty|]).
  destruct (subscribe_unsubscribe_round_trip b (Callback 1) σ Hwf)
    as [_ Hsome].
  destruct (subscribe_unsubscribe_round_trip b (Callback 1) empty_state
              wf_empty) as [Hnone _].
  split.
  - destruct (Hsome (MkListeners 0 1)) as (_ & Ha & _); [| | |exact Ha].
    + vm_compute. reflexivity.
    + vm_compute. discriminate.
    + intros Hin. apply list_elem_of_In in Hin. vm_compute in Hin.
      destruct Hin as [H|[]]. discriminate.
  - destruct Hnone as [He _]; [reflexivity|]. exact He.
Defined.

Lemma on_listener_listeners_of b f σ :
  wf σ →
  listeners_of (key b) (on_listener b f σ).2 = listeners_of (key b) σ ++ [f].
Proof.
  intros Hwf. unfold listeners_of, on_listener, listenerRecord.
  destruct (events σ !! key b) as [r|] eqn:Hr; simpl;
    rewrite events_register_cleanup; simpl; rewrite lookup_insert_eq;
    rewrite content_register_cleanup.
  - destruct (wf_listeners _ Hwf _ _ Hr) as [_ Hal].
    change (content (listeners r) (push (listeners r) f σ)
            = content (listeners r) σ ++ [f]).
    by apply content_push_eq.
  - unfold content. simpl. by rewrite lookup_alter_eq, lookup_insert_eq.
Qed.

Lemma on_listener_handlers_of b f e σ :
  wf σ →
  handlers_of (key b) e (on_listener b f σ).2 = handlers_of (key b) e σ.
Proof.
  intros Hwf. unfold handlers_of, on_listener, listenerRecord.
  destruct (events σ !! key b) as [r|] eqn:Hr; simpl;
    rewrite events_register_cleanup; simpl; rewrite lookup_insert_eq;
    rewrite handlers_register_cleanup.
  - unfold handlers.
    change (map_get (handlerMap r) e
              (set_events <[key b := r]> (push (listeners r) f σ)))
      with (map_get (handlerMap r) e σ).
    destruct (map_get (handlerMap r) e σ) as [a|] eqn:Ha; [|done].
    destruct (wf_handlers _ Hwf _ _ _ _ Hr Ha) as (_ & _ & Hne).
    change (content a (push (listeners r) f σ) = content a σ).
    by apply content_push_ne.
  - unfold handlers, map_get. simpl. rewrite lookup_insert_eq. simpl.
    by rewrite lookup_empty.
Qed.

Lemma emit_plain_of k e p σ :
  plain_bus k σ →
  emit k e p σ
  = add_trace (calls [p] (handlers_of k e σ)
               ++ calls [e; p] (listeners_of k σ)) σ.
Proof.
  intros Hp. unfold handlers_of, listeners_of.
  destruct (events σ !! k) as [r|] eqn:Hr.
  - by apply emit_plain_bus.
  - rewrite emit_absent by done. simpl. by rewrite add_trace_nil.
Qed.

Lemma on_listeners_facts b ns :
  ∀ σ, wf σ → plain_bus (key b) σ →
    wf (on_listeners b ns σ)
    ∧ plain_bus (key b) (on_listeners b ns σ)
    ∧ listeners_of (key b) (on_listeners b ns σ)
      = listeners_of (key b) σ ++ map Callback ns
    ∧ (∀ e, handlers_of (key b) e (on_listeners b ns σ)
            = handlers_of (key b) e σ)
    ∧ trace (on_listeners b ns σ) = trace σ.
Proof.
  induction ns as [|n ns IH]; intros σ Hwf Hp; simpl.
  - split_and!; try done. by rewrite app_nil_r.
  - destruct (IH (on_listener b (Callback n) σ).2) as (H1 & H2 & H3 & H4 & H5).
    + by apply wf_on_listener.
    + by apply plain_bus_on_listener.
    + split_and!; [done|done| | |].
      * unfold on_listeners in *. simpl. rewrite H3.
        rewrite on_listener_listeners_of by done. by rewrite <- app_assoc.
      * intros e. unfold on_listeners in *. simpl. rewrite H4.
        by apply on_listener_handlers_of.
      * unfold on_listeners in *. simpl. rewrite H5.
        apply trace_on_listener.
Qed.

(** X7: global listeners are invoked in the order of their registration.
    On a bus whose sequences hold observers only, that is functions of the
    caller that return normally and perform no operation of a bus while
    they run (so no closure of [once], no function that unsubscribes itself,
    none that throws), after [on(L1)], ..., [on(LN)] for observers
    [L1 .. LN] the global sequence is the former one followed by
    [L1 .. LN], and an emission calls the former handlers of the event and
    then the former listeners and [L1 .. LN], in this order. *)
Theorem listeners_fire_in_registration_order (b : bus) (ns : list nat) σ :
  wf σ →
  plain_bus (key b) σ →
  listeners_of (key b) (on_listeners b ns σ)
  = listeners_of (key b) σ ++ map Callback ns
  ∧ ∀ e p,
      trace (emit (key b) e p (on_listeners b ns σ))
      = trace σ
        ++ calls [p] (handlers_of (key b) e σ)
        ++ calls [e; p] (listeners_of (key b) σ ++ map Callback ns).
Proof.
  intros Hwf Hp.
  destruct (on_listeners_facts b ns σ Hwf Hp) as (_ & Hp' & Hl & Hh & Ht).
  split; [done|]. intros e p.
  rewrite (emit_plain_of _ _ _ _ Hp'). simpl.
  by rewrite Ht, Hh, Hl.
Qed.

Lemma listeners_fire_in_registration_order_witness :
  let k := VString "news" in
  let b := useEventBus k None in
  trace (emit k (VString "e") (VString "p")
           (on_listeners b [3; 1; 2] empty_state))
  = [(3, [VString "e"; VString "p"]);
     (1, [VString "e"; VString "p"]);
     (2, [VString "e"; VString "p"])].
Proof.
  intros k b.
  destruct (listeners_fire_in_registration_order b [3; 1; 2] empty_state
              wf_empty (plain_bus_empty _)) as [_ H].
  rewrite H. reflexivity.
Defined.

Lemma handlers_lookup r e a σ :
  map_get (handlerMap r) e σ = Some a → handlers r e σ = content a σ.
Proof. unfold handlers. by intros ->. Qed.

(** X8: what [on(event, handler)] does on a bus that has an entry.  The
    sequence it extends is the one held under the bus identifier, not the
    one held under [event]: afterwards the sequence for [event] is the
    former sequence of the identifier followed by the handler.  When the
    identifier had a sequence, it is the same array, so the sequence of the
    identifier has grown as well.  The global sequence and every sequence
    held in another array are as before. *)
Theorem on_handler_extends_identifier_sequence (b : bus) e h σ r :
  wf σ →
  events σ !! key b = Some r →
  events (on_handler b e h σ).2 !! key b = Some r
  ∧ handlers r e (on_handler b e h σ).2 = handlers r (key b) σ ++ [h]
  ∧ (is_Some (map_get (handlerMap r) (key b) σ) →
     handlers r (key b) (on_handler b e h σ).2 = handlers r (key b) σ ++ [h])
  ∧ content (listeners r) (on_handler b e h σ).2 = content (listeners r) σ
  ∧ (∀ e' a', e' ≠ e →
       map_get (handlerMap r) e' σ = Some a' →
       map_get (handlerMap r) (key b) σ ≠ Some a' →
       handlers r e' (on_handler b e h σ).2 = handlers r e' σ).
Proof.
  intros Hwf Hr.
  destruct (wf_handlerMap _ Hwf _ _ Hr) as [_ Hmal].
  destruct (wf_listeners _ Hwf _ _ Hr) as [Hllt _].
  unfold on_handler, listenerRecord. rewrite Hr.
  destruct (map_get (handlerMap r) (key b) σ) as [a|] eqn:Ha; simpl;
    rewrite events_register_cleanup, !handlers_register_cleanup,
      content_register_cleanup;
    rewrite (set_events_insert_id (key b) r) by done.
  - destruct (wf_handlers _ Hwf _ _ _ _ Hr Ha) as (_ & Hal & Hne).
    assert (map_get (handlerMap r) e
              (map_set (handlerMap r) e a (push a h σ)) = Some a) as Hge
      by (by apply map_get_map_set_eq).
    assert (content a (map_set (handlerMap r) e a (push a h σ))
            = content a σ ++ [h]) as Hca
      by (by apply (content_push_eq a h σ)).
    rewrite (handlers_lookup _ _ _ _ Ha).
    split_and!.
    + done.
    + by rewrite (handlers_lookup _ _ _ _ Hge).
    + intros _. destruct (decide (e = key b)) as [->|Hek].
      * by rewrite (handlers_lookup _ _ _ _ Hge).
      * rewrite (handlers_lookup r (key b) a); [done|].
        unfold map_get, map_set in *. simpl.
        rewrite lookup_alter_eq.
        destruct (maps σ !! handlerMap r); simpl in *; [|done].
        by rewrite lookup_insert_ne.
    + apply (content_push_ne a (listeners r) h σ). done.
    + intros e' a' He' Hg' Hdiff.
      rewrite handlers_register_cleanup.
      rewrite (handlers_lookup _ _ _ _ Hg').
      rewrite (handlers_lookup r e' a').
      * apply (content_push_ne a a' h σ). congruence.
      * unfold map_get, map_set in *. simpl.
        rewrite lookup_alter_eq.
        destruct (maps σ !! handlerMap r); simpl in *; [|done].
        by rewrite lookup_insert_ne.
  - set (a := next_loc σ).
    set (σn := set_next_loc (S a) (set_arrays <[a := []]> σ)).
    assert (map_get (handlerMap r) e
              (map_set (handlerMap r) e a (push a h σn)) = Some a) as Hge
      by (apply map_get_map_set_eq; exact Hmal).
    assert (∀ a', a' < next_loc σ →
              content a' (map_set (handlerMap r) e a (push a h σn))
              = content a' σ)
      as Hold.
    { intros a' Hlt. unfold content. simpl.
      rewrite lookup_alter_ne, lookup_insert_ne by (unfold a; lia). done. }
    assert (handlers r (key b) σ = []) as -> by (unfold handlers; by rewrite Ha).
    split_and!.
    + done.
    + rewrite (handlers_lookup _ _ _ _ Hge). unfold content. simpl.
      by rewrite lookup_alter_eq, lookup_insert_eq.
    + by intros [? ?].
    + by apply Hold.
    + intros e' a' He' Hg' _.
      destruct (wf_handlers _ Hwf _ _ _ _ Hr Hg') as (Hlt & _ & _).
      rewrite handlers_register_cleanup.
      rewrite (handlers_lookup _ _ _ _ Hg').
      rewrite (handlers_lookup r e' a'); [by apply Hold|].
      unfold map_get, map_set in *. simpl.
      rewrite lookup_alter_eq.
      destruct (maps σ !! handlerMap r); simpl in *; [|done].
      by rewrite lookup_insert_ne.
Qed.

(** The bus ["news"] with a handler under its own name: a handler
    registered for ["other"] joins that sequence. *)
Lemma on_handler_extends_identifier_sequence_witness :
  let k := VString "news" in
  let b := useEventBus k None in
  let σ := (on_handler b k (Callback 0) empty_state).2 in
  let σ' := (on_handler b (VString "other") (Callback 1) σ).2 in
  handlers (MkListeners 0 1) (VString "other") σ' = [Callback 0; Callback 1]
  ∧ handlers (MkListeners 0 1) k σ' = [Callback 0; Callback 1].
Proof.
  intros k b σ σ'.
  assert (wf σ) as Hwf by (by apply wf_on_handler; [apply wf_empty|]).
  destruct (on_handler_extends_identifier_sequence b (VString "other")
              (Callback 1) σ (MkListeners 0 1) Hwf)
    as (_ & He & Hk & _); [vm_compute; reflexivity|].
  split.
  - etrans; [exact He|]. vm_compute. reflexivity.
  - etrans; [apply Hk; vm_compute; eauto|]. vm_compute. reflexivity.
Defined.

Lemma new_listener_entry b f σ e :
  events σ !! key b = None →
  let r := MkListeners (next_loc σ) (S (next_loc σ)) in
  events (on_listener b f σ).2 !! key b = Some r
  ∧ handlers r e (on_listener b f σ).2 = []
  ∧ content (listeners r) (on_listener b f σ).2 = [f].
Proof.
  intros Hr r. unfold on_listener, listenerRecord. rewrite Hr. simpl.
  rewrite events_register_cleanup, handlers_register_cleanup,
    content_register_cleanup.
  split_and!.
  - simpl. apply lookup_insert_eq.
  - unfold handlers, map_get. simpl. rewrite lookup_insert_eq. simpl.
    by rewrite lookup_empty.
  - unfold content. simpl. by rewrite lookup_alter_eq, lookup_insert_eq.
Qed.

Lemma new_handler_entry b e f σ :
  events σ !! key b = None →
  let r := MkListeners (next_loc σ) (S (next_loc σ)) in
  events (on_handler b e f σ).2 !! key b = Some r
  ∧ handlers r e (on_handler b e f σ).2 = [f]
  ∧ (∀ e', e' ≠ e → handlers r e' (on_handler b e f σ).2 = [])
  ∧ content (listeners r) (on_handler b e f σ).2 = [].
Proof.
  intros Hr r. unfold handlers, content, on_handler, listenerRecord, map_get.
  rewrite Hr. simpl. rewrite !lookup_insert_eq. simpl.
  rewrite !lookup_empty. simpl.
  destruct (scope b); simpl; split_and!.
  all: try (intros e' He').
  all: rewrite ?lookup_alter_eq, ?lookup_insert_eq; simpl.
  all: rewrite ?lookup_insert_eq, ?lookup_alter_eq; simpl.
  all: rewrite ?lookup_insert_eq; simpl; try done.
  all: try (rewrite lookup_insert_ne by done; by rewrite lookup_empty).
  all: rewrite lookup_alter_ne, lookup_insert_ne by lia.
  all: by rewrite lookup_insert_eq.
Qed.

Lemma emit_new_listener b n σ e p :
  events σ !! key b = None →
  trace (emit (key b) e p (on_listener b (Callback n) σ).2)
  = trace σ ++ [(n, [e; p])].
Proof.
  intros Hr.
  destruct (new_listener_entry b (Callback n) σ e Hr) as (He & Hh & Hc).
  rewrite (emit_plain _ _ _ _ _ He).
  - rewrite Hh, Hc. simpl. by rewrite trace_on_listener.
  - rewrite Hh. constructor.
  - rewrite Hc. by repeat constructor.
Qed.

Lemma emit_new_handler b n σ e e' p :
  events σ !! key b = None →
  trace (emit (key b) e' p (on_handler b e (Callback n) σ).2)
  = trace σ ++ (if decide (e' = e) then [(n, [p])] else []).
Proof.
  intros Hr.
  destruct (new_handler_entry b e (Callback n) σ Hr) as (He & Hh & Ho & Hc).
  case_decide as Hd.
  - subst e'.
    rewrite (emit_plain _ _ _ _ _ He).
    + rewrite Hh, Hc. simpl. by rewrite trace_on_handler.
    + rewrite Hh. by repeat constructor.
    + rewrite Hc. constructor.
  - rewrite (emit_plain _ _ _ _ _ He).
    + rewrite (Ho e' Hd), Hc. simpl. by rewrite trace_on_handler.
    + rewrite (Ho e' Hd). constructor.
    + rewrite Hc. constructor.
Qed.

(** X10: a subscription made after [reset()] starts from a new entry.
    Whatever the bus held before, the next emission invokes the new global
    listener and nothing else; a new handler is invoked by an emission of
    its event, alone, and an emission of another event invokes nothing. *)
Theorem subscription_after_reset (b : bus) (n : nat) (e p : value) σ :
  trace (emit (key b) e p (on_listener b (Callback n) (reset (key b) σ)).2)
  = trace σ ++ [(n, [e; p])]
  ∧ trace (emit (key b) e p (on_handler b e (Callback n) (reset (key b) σ)).2)
    = trace σ ++ [(n, [p])]
  ∧ ∀ e', e' ≠ e →
      trace (emit (key b) e' p
               (on_handler b e (Callback n) (reset (key b) σ)).2)
      = trace σ.
Proof.
  assert (events (reset (key b) σ) !! key b = None) as Hr
    by apply lookup_delete_eq.
  split_and!.
  - by rewrite emit_new_listener.
  - rewrite emit_new_handler by done. by rewrite decide_True.
  - intros e' He'. rewrite emit_new_handler by done.
    rewrite decide_False by done. simpl. by rewrite app_nil_r.
Qed.

(** ** [emit] over the adapters of [once] *)

Lemma evens_cons x l : evens (x :: l) = x :: odds l.
Proof. by destruct l. Qed.

Lemma forEach_from_past a cb n :
  ∀ k σ, length (content a σ) ≤ k → forEach_from a cb k n σ = σ.
Proof.
  induction n as [|n IH]; intros k σ Hk; [done|].
  simpl. unfold content in Hk.
  destruct (arrays σ !! a) as [fs|] eqn:Ha; simpl in *.
  - rewrite (lookup_ge_None_2 fs k) by done. apply IH.
    unfold content. rewrite Ha. simpl. lia.
  - apply IH. unfold content. rewrite Ha. simpl. lia.
Qed.

Lemma forEach_from_S a cb k n σ fs f :
  arrays σ !! a = Some fs → fs !! k = Some f →
  forEach_from a cb k (S n) σ = forEach_from a cb (S k) n (cb f σ).
Proof. intros Ha Hf. simpl. rewrite Ha. simpl. by rewrite Hf. Qed.

Lemma remove_first_middle x kept rest :
  x ∉ kept → remove_first x (kept ++ x :: rest) = kept ++ rest.
Proof.
  induction kept as [|y kept IH]; intros Hx; simpl.
  - by rewrite decide_True.
  - rewrite decide_False by (intros ->; apply Hx; left).
    rewrite IH; [done|]. intros ?. apply Hx. by right.
Qed.

Lemma call_once_listener_at k r x kept rest args σ :
  events σ !! k = Some r →
  arrays σ !! listeners r = Some (kept ++ x :: rest) →
  x ∉ kept →
  once_listener_of k x →
  trace (call x args σ) = trace σ ++ [(target x, args)]
  ∧ arrays (call x args σ) !! listeners r = Some (kept ++ rest)
  ∧ events (call x args σ) !! k
    = (if decide (kept ++ rest = []) then None else Some r).
Proof.
  intros He Ha Hx Hk. destruct x as [|uid k' l|]; simpl in Hk; try done.
  subst k'. unfold call, off_listener. rewrite He, Ha.
  rewrite remove_first_middle by done.
  destruct (decide (length (kept ++ rest) = 0)) as [Hl|Hl]; simpl.
  - apply length_zero_iff_nil in Hl.
    rewrite lookup_insert_eq, lookup_delete_eq, decide_True by done. done.
  - rewrite lookup_insert_eq, He.
    rewrite decide_False; [done|]. intros H0. by rewrite H0 in Hl.
Qed.

Lemma forEach_from_once k r args m :
  ∀ rest kept n σ,
    length rest = m →
    length rest ≤ n →
    events σ !! k = Some r →
    arrays σ !! listeners r = Some (kept ++ rest) →
    NoDup (kept ++ rest) →
    Forall (once_listener_of k) rest →
    let σ' := forEach_from (listeners r) (λ v, call v args) (length kept) n σ in
    trace σ' = trace σ ++ calls args (evens rest)
    ∧ arrays σ' !! listeners r = Some (kept ++ odds rest)
    ∧ events σ' !! k
      = (if decide (kept = [] ∧ length rest = 1) then None else Some r).
Proof.
  induction m as [m IH] using lt_wf_ind.
  intros rest kept n σ Hm Hn He Ha Hnd Hall σ'. subst σ'.
  destruct rest as [|x [|y rest]].
  - rewrite forEach_from_past.
    + simpl. rewrite !app_nil_r in *. split_and!; [done..|].
      rewrite decide_False; [done|]. intros [_ ?]. simpl in *. lia.
    + unfold content. rewrite Ha. simpl. by rewrite app_nil_r.
  - destruct n as [|n]; [simpl in Hn; lia|].
    rewrite (forEach_from_S _ _ _ _ _ (kept ++ [x]) x Ha)
      by (by apply list_lookup_middle).
    apply NoDup_app in Hnd as (_ & Hnd & _).
    assert (x ∉ kept) as Hx by (intros ?; eapply Hnd; [done|left]).
    destruct (call_once_listener_at k r x kept [] args σ He Ha Hx)
      as (Ht & Ha' & He'); [by inversion Hall|].
    rewrite forEach_from_past.
    + simpl. rewrite !app_nil_r in *. split_and!; [done..|].
      rewrite He'. destruct kept; [|done].
      by rewrite !decide_True.
    + unfold content. rewrite Ha'. simpl. rewrite app_nil_r. lia.
  - destruct n as [|n]; [simpl in Hn; lia|].
    rewrite (forEach_from_S _ _ _ _ _ (kept ++ x :: y :: rest) x Ha)
      by (by apply list_lookup_middle).
    pose proof Hnd as Hnd'.
    apply NoDup_app in Hnd' as (_ & Hnd' & _).
    assert (x ∉ kept) as Hx by (intros ?; eapply Hnd'; [done|left]).
    destruct (call_once_listener_at k r x kept (y :: rest) args σ He Ha Hx)
      as (Ht & Ha' & He'); [by inversion Hall|].
    rewrite decide_False in He' by (by destruct kept).
    assert (S (length kept) = length (kept ++ [y])) as ->
      by (rewrite length_app; simpl; lia).
    simpl in Hn, Hm.
    opose proof (IH (length rest) _ rest (kept ++ [y]) n
                   (call x args σ) eq_refl _ He' _ _ _)
      as (Ht2 & Ha2 & He2).
    + lia.
    + lia.
    + by rewrite <- app_assoc.
    + rewrite <- app_assoc. simpl.
      apply NoDup_app in Hnd as (Hk & Hd & Hr).
      apply NoDup_app. split_and!; [done| |by inversion Hr].
      intros z Hz Hz'. eapply Hd; [done|by right].
    + inversion Hall as [|? ? _ Hall']. by inversion Hall'.
    + split_and!.
      * rewrite Ht2, Ht. simpl. by rewrite <- app_assoc.
      * rewrite Ha2. change (odds (x :: y :: rest)) with (evens (y :: rest)).
        by rewrite evens_cons, <- app_assoc.
      * rewrite He2. rewrite !decide_False; [done|..].
        -- intros [_ ?]. simpl in *. lia.
        -- intros [? _]. by destruct kept.
Qed.

(** X11: what one emission does to a global sequence made of listeners
    registered with [once].  Each listener removes itself from the array
    that [forEach] is walking, so the walk invokes the listeners at the
    1st, 3rd, 5th... positions only; those at the 2nd, 4th... positions
    are not invoked and stay subscribed.  The entry is deleted exactly when
    the sequence held a single listener. *)
Theorem emit_once_listeners_alternate k e p r l σ :
  events σ !! k = Some r →
  arrays σ !! listeners r = Some l →
  Forall (once_listener_of k) l →
  NoDup l →
  Forall plain (handlers r e σ) →
  trace (emit k e p σ)
  = trace σ ++ calls [p] (handlers r e σ) ++ calls [e; p] (evens l)
  ∧ arrays (emit k e p σ) !! listeners r = Some (odds l)
  ∧ events (emit k e p σ) !! k
    = (if decide (length l = 1) then None else Some r).
Proof.
  intros He Ha Hall Hnd Hp. unfold emit. rewrite He.
  set (σ1 := match map_get (handlerMap r) e σ with
             | Some a => forEach a (λ v, call v [p]) σ
             | None => σ
             end).
  assert (σ1 = add_trace (calls [p] (handlers r e σ)) σ) as ->.
  { subst σ1. unfold handlers in *.
    destruct (map_get (handlerMap r) e σ).
    - by apply forEach_plain.
    - by rewrite add_trace_nil. }
  unfold forEach. simpl. rewrite Ha.
  destruct (forEach_from_once k r [e; p] (length l) l [] (length l)
              (add_trace (calls [p] (handlers r e σ)) σ))
    as (Ht & Ha' & He'); try done.
  simpl in Ht, Ha', He'. split_and!.
  - rewrite Ht. by rewrite <- app_assoc.
  - done.
  - rewrite He'. destruct (decide (length l = 1)).
    + by rewrite decide_True.
    + rewrite decide_False; [done|]. by intros [_ ?].
Qed.

Lemma emit_once_listeners_alternate_witness :
  let k := VString "news" in
  let b := useEventBus k None in
  let σ := (once_listener b 30
              (once_listener b 20 (once_listener b 10 empty_state).2).2).2 in
  trace (emit k (VString "e") (VString "p") σ)
  = [(10, [VString "e"; VString "p"]); (30, [VString "e"; VString "p"])]
  ∧ listeners_of k (emit k (VString "e") (VString "p") σ)
    = [OnceListener 1 k 20].
Proof.
  intros k b σ.
  destruct (emit_once_listeners_alternate k (VString "e") (VString "p")
              (MkListeners 0 1)
              [OnceListener 0 k 10; OnceListener 1 k 20; OnceListener 2 k 30]
              σ) as (Ht & Ha & He).
  - reflexivity.
  - reflexivity.
  - repeat constructor.
  - apply (bool_decide_unpack _). vm_compute. exact I.
  - constructor.
  - split.
    + rewrite Ht. reflexivity.
    + unfold listeners_of, content. rewrite He.
      change (default [] (arrays (emit k (VString "e") (VString "p") σ)
                            !! listeners (MkListeners 0 1))
              = [OnceListener 1 k 20]).
      by rewrite Ha.
Defined.

(** ** An entry has a listener or a binding *)

Lemma has_length_or_size_local k σ σ' :
  wf σ → has_length_or_size σ → local k σ σ' →
  (∀ r, events σ' !! k = Some r →
        content (listeners r) σ' ≠ []
        ∨ ∃ hm, maps σ' !! handlerMap r = Some hm ∧ hm ≠ ∅) →
  has_length_or_size σ'.
Proof.
  intros Hwf Hpop Hloc Hown k' r Hr.
  destruct (decide (k' = k)) as [->|Hne]; [by apply Hown|].
  destruct (local_frame _ _ _ Hwf Hloc k' Hne) as (He & Ha & Hm).
  rewrite He in Hr.
  destruct (Hpop k' r Hr) as [Hl|(hm & Hhm & Hne')].
  - left. unfold content in *.
    by rewrite (Ha (listeners r)) by (by eapply owns_array_self_listeners).
  - right. exists hm. split; [|done].
    by rewrite (Hm (handlerMap r)) by (by eapply owns_map_self).
Qed.

Lemma has_length_or_size_on_listener b f σ :
  wf σ → has_length_or_size σ → has_length_or_size (on_listener b f σ).2.
Proof.
  intros Hwf Hpop.
  apply (has_length_or_size_local (key b) σ); [done|done|apply local_on_listener|].
  intros r Hr. left.
  destruct (on_listener_registered b f σ Hwf) as (r' & Hr' & Hin).
  rewrite Hr in Hr'. injection Hr' as <-.
  intros Hnil. rewrite Hnil in Hin. by apply elem_of_nil in Hin.
Qed.

Lemma has_length_or_size_on_handler b e f σ :
  wf σ → has_length_or_size σ → has_length_or_size (on_handler b e f σ).2.
Proof.
  intros Hwf Hpop.
  apply (has_length_or_size_local (key b) σ); [done|done|apply local_on_handler|].
  intros r Hr. right.
  destruct (on_handler_registered b e f σ Hwf) as (r' & Hr' & Hin).
  rewrite Hr in Hr'. injection Hr' as <-.
  unfold handlers, map_get in Hin.
  destruct (maps (on_handler b e f σ).2 !! handlerMap r) as [hm|] eqn:Hm;
    simpl in Hin; [|by apply elem_of_nil in Hin].
  exists hm. split; [done|]. intros ->.
  rewrite lookup_empty in Hin. by apply elem_of_nil in Hin.
Qed.

Lemma has_length_or_size_off_listener k f σ :
  wf σ → has_length_or_size σ → has_length_or_size (off_listener k f σ).
Proof.
  intros Hwf Hpop.
  apply (has_length_or_size_local k σ); [done|done|apply local_off_listener|].
  intros r0. unfold off_listener.
  destruct (events σ !! k) as [r|] eqn:Hr; [|by rewrite Hr].
  destruct (arrays σ !! listeners r) as [fs|] eqn:Ha.
  - case_decide as Hlen; simpl.
    + by rewrite lookup_delete_eq.
    + rewrite Hr. intros [= <-]. left. unfold content. simpl.
      rewrite lookup_insert_eq. simpl. intros Hnil. by rewrite Hnil in Hlen.
  - rewrite Hr. intros [= <-]. by apply (Hpop k).
Qed.

Lemma remove_handler_map_allocated r e f σ :
  is_Some (maps σ !! handlerMap r) →
  is_Some (maps (remove_handler r e f σ) !! handlerMap r).
Proof.
  intros Hm. unfold remove_handler.
  destruct (map_get _ _ _); [|done].
  destruct (arrays σ !! _); [|done].
  case_decide; simpl; [|done]. by apply is_Some_alter.
Qed.

Lemma events_remove_handler r e f σ :
  events (remove_handler r e f σ) = events σ.
Proof.
  unfold remove_handler. destruct (map_get _ _ _); [|done].
  destruct (arrays σ !! _); [|done]. by case_decide.
Qed.

Lemma has_length_or_size_off_handler k e f σ :
  wf σ → has_length_or_size σ → has_length_or_size (off_handler k e f σ).
Proof.
  intros Hwf Hpop.
  apply (has_length_or_size_local k σ); [done|done|apply local_off_handler|].
  intros r0.
  destruct (events σ !! k) as [r|] eqn:Hr.
  - rewrite (off_handler_unfold _ _ _ _ _ Hr).
    destruct (wf_handlerMap _ Hwf _ _ Hr) as [_ Hmal].
    destruct (remove_handler_map_allocated r e f σ Hmal) as [hm Hhm].
    rewrite Hhm. case_decide as Hsz; simpl.
    + by rewrite events_remove_handler, lookup_delete_eq.
    + rewrite events_remove_handler, Hr. intros [= <-]. right.
      exists hm. split; [done|]. intros ->. by rewrite map_size_empty in Hsz.
  - unfold off_handler. by rewrite Hr, Hr.
Qed.

Lemma has_length_or_size_call f args σ :
  wf σ → has_length_or_size σ → has_length_or_size (call f args σ).
Proof.
  intros Hwf Hpop. destruct f as [n|uid k l|uid k e h]; simpl.
  - exact Hpop.
  - exact (has_length_or_size_off_listener k _ σ Hwf Hpop).
  - exact (has_length_or_size_off_handler k e _ σ Hwf Hpop).
Qed.

Lemma has_length_or_size_forEach a args σ :
  wf σ → has_length_or_size σ →
  wf (forEach a (λ v, call v args) σ)
  ∧ has_length_or_size (forEach a (λ v, call v args) σ).
Proof.
  intros Hwf Hpop.
  apply (forEach_inv (λ σ, wf σ ∧ has_length_or_size σ)); [|done].
  intros f σ' [Hwf' Hpop'] _. split.
  - eapply wf_shrinks; [done|apply shrinks_call].
  - by apply has_length_or_size_call.
Qed.

Lemma has_length_or_size_emit k e p σ :
  wf σ → has_length_or_size σ → has_length_or_size (emit k e p σ).
Proof.
  intros Hwf Hpop. unfold emit.
  destruct (events σ !! k) as [r|]; [|done].
  destruct (map_get (handlerMap r) e σ) as [a|].
  - destruct (has_length_or_size_forEach a [p] σ Hwf Hpop) as [Hwf1 Hpop1].
    by apply has_length_or_size_forEach.
  - by apply has_length_or_size_forEach.
Qed.

Lemma has_length_or_size_reset k σ : wf σ → has_length_or_size σ → has_length_or_size (reset k σ).
Proof.
  intros Hwf Hpop.
  apply (has_length_or_size_local k σ); [done|done|apply local_reset|].
  intros r. unfold reset. simpl. by rewrite lookup_delete_eq.
Qed.

Lemma step_has_length_or_size σ σ' : step σ σ' → wf σ → has_length_or_size σ → has_length_or_size σ'.
Proof.
  intros Hstep Hwf Hpop. destruct Hstep.
  - by apply has_length_or_size_on_listener.
  - by apply has_length_or_size_on_handler.
  - unfold once_listener.
    apply has_length_or_size_on_listener; [by apply wf_set_next_fn|exact Hpop].
  - unfold once_handler.
    apply has_length_or_size_on_handler; [by apply wf_set_next_fn|exact Hpop].
  - by apply has_length_or_size_off_listener.
  - by apply has_length_or_size_off_handler.
  - by apply has_length_or_size_emit.
  - by apply has_length_or_size_reset.
Qed.

(** X9: in every state that [on], [once], [off], [emit] and [reset] lead
    to, every entry of the registry has [listeners.length > 0] or
    [handlerMap.size > 0]: an entry whose global array and whose handler
    Map are both empty is never left in the registry.  This is all the
    code keeps: a binding of the Map may point to an empty array, and the
    entry then stays without any subscriber. *)
Theorem reachable_has_length_or_size σ : reachable σ → has_length_or_size σ.
Proof.
  unfold reachable. intros Hr.
  assert (wf empty_state ∧ has_length_or_size empty_state) as H0.
  { split; [apply wf_empty|]. intros k r Hk. unfold empty_state in Hk.
    simpl in Hk. by rewrite lookup_empty in Hk. }
  induction Hr as [|σ1 σ2 σ3 Hstep _ IH]; [by destruct H0|].
  apply IH. destruct H0 as [Hwf Hpop]. split.
  - by eapply step_wf.
  - by eapply step_has_length_or_size.
Qed.

(** The state reached by [on("news", H0)], [on("x", H1)], [off("x", H0)]
    and [off("x", H1)] on the bus ["news"]: the entry is still there, its
    Map binds ["news"] to the array that both calls of [on] filled and both
    calls of [off] emptied, and no sequence of the bus holds a function. *)
Lemma reachable_has_length_or_size_witness :
  let k := VString "news" in
  let b := useEventBus k None in
  let σ1 := (on_handler b k (Callback 0) empty_state).2 in
  let σ2 := (on_handler b (VString "x") (Callback 1) σ1).2 in
  let σ3 := off_handler k (VString "x") (Callback 0) σ2 in
  let σ4 := off_handler k (VString "x") (Callback 1) σ3 in
  has_length_or_size σ4
  ∧ events σ4 !! k = Some (MkListeners 0 1)
  ∧ maps σ4 !! 1 = Some (<[k := 2]> ∅)
  ∧ listeners_of k σ4 = []
  ∧ ∀ e, handlers_of k e σ4 = [].
Proof.
  intros k b σ1 σ2 σ3 σ4.
  assert (events σ4 !! k = Some (MkListeners 0 1)) as He
    by (vm_compute; reflexivity).
  assert (maps σ4 !! handlerMap (MkListeners 0 1) = Some (<[k := 2]> ∅))
    as Hm by (vm_compute; reflexivity).
  split_and!; [|exact He|exact Hm|vm_compute; reflexivity|].
  - apply reachable_has_length_or_size. unfold reachable.
    eapply rtc_l; [apply (step_on_handler b k 0)|].
    eapply rtc_l; [apply (step_on_handler b (VString "x") 1)|].
    eapply rtc_l; [apply (step_off_handler k (VString "x") (Callback 0))|].
    eapply rtc_l; [apply (step_off_handler k (VString "x") (Callback 1))|].
    apply rtc_refl.
  - intros e. unfold handlers_of. rewrite He.
    destruct (decide (e = k)) as [->|Hne]; [vm_compute; reflexivity|].
    unfold handlers, map_get. rewrite Hm. simpl.
    rewrite lookup_insert_ne by done. by rewrite lookup_empty.
Defined.

(** ** Registration with the scope *)

Lemma cleanups_on_listener b f σ :
  cleanups (on_listener b f σ).2
  = cleanups (register_cleanup (scope b) (StopListener (key b) f) σ).
Proof.
  unfold on_listener, listenerRecord.
  destruct (events σ !! key b); simpl; by destruct (scope b).
Qed.

Lemma cleanups_on_handler b e f σ :
  cleanups (on_handler b e f σ).2
  = cleanups (register_cleanup (scope b) (StopHandler (key b) e f) σ).
Proof.
  unfold on_handler, listenerRecord.
  destruct (events σ !! key b) as [r|].
  - destruct (map_get (handlerMap r) (key b) σ); simpl; by destruct (scope b).
  - simpl. destruct (map_get _ _ _); simpl; by destruct (scope b).
Qed.

Lemma scope_registered_intro b σ p :
  cleanups p.2 = cleanups (register_cleanup (scope b) p.1 σ) →
  scope_registered b σ p.
Proof.
  intros Hc. split.
  - intros i cs Hs Hi. rewrite Hc, Hs. simpl.
    by rewrite lookup_alter_eq, Hi.
  - intros j Hj. rewrite Hc. destruct (scope b) as [i|]; [|done]. simpl.
    apply lookup_alter_ne. by intros ->.
Qed.

(** X12: every subscription is registered with the scope of its handle.
    [on] and [once], in both forms, append the very function they return to
    the [cleanups] array of the scope that was current when [useEventBus]
    was called, when there is such an array, and touch the array of no
    other scope. *)
Theorem subscriptions_register_with_scope (b : bus) (e : value) (f : fn)
    (n : nat) (σ : state) :
  scope_registered b σ (on_listener b f σ)
  ∧ scope_registered b σ (on_handler b e f σ)
  ∧ scope_registered b σ (once_listener b n σ)
  ∧ scope_registered b σ (once_handler b e n σ).
Proof.
  split_and!; apply scope_registered_intro.
  - by rewrite cleanups_on_listener, on_listener_stop.
  - by rewrite cleanups_on_handler, on_handler_stop.
  - unfold once_listener. rewrite cleanups_on_listener, on_listener_stop.
    by destruct (scope b).
  - unfold once_handler. rewrite cleanups_on_handler, on_handler_stop.
    by destruct (scope b).
Qed.

(** ** What [off] removes *)

Lemma remove_first_length_nil f fs :
  length (remove_first f fs) = 0 → remove_first f fs = [].
Proof. apply length_zero_iff_nil. Qed.

Lemma off_listener_listeners_of k f σ :
  listeners_of k (off_listener k f σ) = remove_first f (listeners_of k σ).
Proof.
  unfold listeners_of, off_listener, content.
  destruct (events σ !! k) as [r|] eqn:Hr; [|by rewrite Hr].
  destruct (arrays σ !! listeners r) as [fs|] eqn:Ha.
  - case_decide as Hlen; simpl.
    + rewrite lookup_delete_eq. by rewrite remove_first_length_nil.
    + by rewrite Hr, lookup_insert_eq.
  - by rewrite Hr, Ha.
Qed.

Lemma off_handler_handlers_of k e f σ :
  handlers_of k e (off_handler k e f σ) = remove_first f (handlers_of k e σ).
Proof.
  unfold handlers_of.
  destruct (events σ !! k) as [r|] eqn:Hr;
    [|by unfold off_handler; rewrite Hr, Hr].
  rewrite (off_handler_unfold _ _ _ _ _ Hr).
  assert (handlers r e (remove_handler r e f σ)
          = remove_first f (handlers r e σ)) as Hh.
  { unfold handlers, remove_handler, content, map_get.
    destruct (maps σ !! handlerMap r) as [hm|] eqn:Hm; simpl; [|by rewrite Hm].
    destruct (hm !! e) as [a|] eqn:He; simpl; [|by rewrite Hm; simpl; rewrite He].
    destruct (arrays σ !! a) as [fs|] eqn:Ha; simpl.
    - case_decide as Hlen; simpl.
      + rewrite lookup_alter_eq, Hm. simpl. rewrite lookup_delete_eq.
        by rewrite remove_first_length_nil.
      + rewrite Hm. simpl. rewrite He. by rewrite lookup_insert_eq.
    - rewrite Hm. simpl. rewrite He. by rewrite Ha. }
  assert (maps (remove_handler r e f σ) !! handlerMap r = None ∨
          ∃ hm, maps (remove_handler r e f σ) !! handlerMap r = Some hm)
    as [Hn|(hm & Hhm)].
  { destruct (maps (remove_handler r e f σ) !! handlerMap r); eauto. }
  - rewrite Hn. by rewrite events_remove_handler, Hr.
  - rewrite Hhm. case_decide as Hsz; simpl.
    + rewrite lookup_delete_eq. rewrite <- Hh.
      unfold handlers, map_get. rewrite Hhm. simpl.
      apply map_size_empty_iff in Hsz. subst hm. by rewrite lookup_empty.
    + by rewrite events_remove_handler, Hr.
Qed.

(** X13: [off] takes out one occurrence, the first.  When the global
    sequence of the bus is [l1], the listener, [l2], with the listener not
    in [l1], it is [l1], [l2] after [off(listener)], whatever [l2] holds;
    likewise for the sequence of [event] and [off(event, handler)].  When
    the function is not in the sequence at all, the sequence is as before.
    The function that [on(listener)] returned does the same: it removes the
    oldest subscription of that listener, not the one it was returned
    for. *)
Theorem off_removes_first_occurrence (b : bus) (e : value) (f : fn)
    (l1 l2 : list fn) σ :
  f ∉ l1 →
  (listeners_of (key b) σ = l1 ++ f :: l2 →
   listeners_of (key b) (off_listener (key b) f σ) = l1 ++ l2)
  ∧ (handlers_of (key b) e σ = l1 ++ f :: l2 →
     handlers_of (key b) e (off_handler (key b) e f σ) = l1 ++ l2)
  ∧ (listeners_of (key b) σ = l1 →
     listeners_of (key b) (off_listener (key b) f σ) = l1)
  ∧ (handlers_of (key b) e σ = l1 →
     handlers_of (key b) e (off_handler (key b) e f σ) = l1)
  ∧ (listeners_of (key b) (on_listener b f σ).2 = l1 ++ f :: l2 →
     listeners_of (key b)
       (run_stop (on_listener b f σ).1 (on_listener b f σ).2)
     = l1 ++ l2).
Proof.
  intros Hnin. split_and!; intros Hl.
  - by rewrite off_listener_listeners_of, Hl, remove_first_middle.
  - by rewrite off_handler_handlers_of, Hl, remove_first_middle.
  - by rewrite off_listener_listeners_of, Hl, remove_first_notin.
  - by rewrite off_handler_handlers_of, Hl, remove_first_notin.
  - rewrite on_listener_stop. simpl.
    by rewrite off_listener_listeners_of, Hl, remove_first_middle.
Qed.

(** [on(G)], [on(F)], [on(H)], [on(F)], then the function that the last
    [on(F)] returned: the first [F] is gone, the second one stays. *)
Lemma off_removes_first_occurrence_witness :
  let k := VString "news" in
  let b := useEventBus k None in
  let σ1 := (on_listener b (Callback 0) empty_state).2 in
  let σ2 := (on_listener b (Callback 1) σ1).2 in
  let σ3 := (on_listener b (Callback 2) σ2).2 in
  listeners_of k (on_listener b (Callback 1) σ3).2
  = [Callback 0; Callback 1; Callback 2; Callback 1]
  ∧ listeners_of k (run_stop (on_listener b (Callback 1) σ3).1
                      (on_listener b (Callback 1) σ3).2)
    = [Callback 0; Callback 2; Callback 1].
Proof.
  intros k b σ1 σ2 σ3.
  split; [vm_compute; reflexivity|].
  assert (Callback 1 ∉ [Callback 0]) as Hnin.
  { intros [H|H]%elem_of_cons; [discriminate|]. by apply elem_of_nil in H. }
  destruct (off_removes_first_occurrence b VUndefined (Callback 1)
              [Callback 0] [Callback 2; Callback 1] σ3 Hnin)
    as (_ & _ & _ & _ & H).
  apply H. vm_compute. reflexivity.
Defined.
